(** * Tegamino: the recipe similarity hash ([cook]) and its comparison
      ([compareTo]), from [src/Recipe.js].

    The development embeds the hashing pipeline of [Recipe.js] over an
    explicit store of recipe instances.  Everything the source obtains from
    the Node.js runtime ([node:crypto], [node:zlib], [Buffer],
    [String.prototype.toLowerCase]) is an interface, the class [Node]; a
    reference implementation of that interface (RFC 1321 MD5, RFC 4648
    base64, an RFC 1952 container with stored RFC 1951 blocks) is given as
    well and used to run the code on concrete recipes. *)

From Stdlib Require Import ZArith QArith Qabs Qround Qpower Qcanon Lqa.
From Stdlib Require Import List String Ascii Lia Bool.
From stdpp Require Import base option list gmap.
Import ListNotations.

Local Open Scope string_scope.
Local Open Scope list_scope.
Local Open Scope Z_scope.

(** ** JavaScript values used by the pipeline *)

(** A JavaScript number.  A finite double is kept as the rational it is
    equal to.  [num_mul], [num_div], [num_sub] and [num_add] are the
    operations on the values; an operator of JavaScript is the operation
    followed by [binary64], the rounding to the nearest double.  The sign of
    zero is not modelled. *)
Inductive number :=
  | NaN
  | Infinity (negative : bool)
  | Finite (q : Q).

Definition num_of_Z (z : Z) : number := Finite (inject_Z z).

Definition Qnegb (q : Q) : bool := Qnum q <? 0.
Definition Qzerob (q : Q) : bool := Qnum q =? 0.

(** [a * b] *)
Definition num_mul (a b : number) : number :=
  match a, b with
  | NaN, _ | _, NaN => NaN
  | Finite x, Finite y => Finite (x * y)
  | Infinity s, Finite y | Finite y, Infinity s =>
      if Qzerob y then NaN else Infinity (xorb s (Qnegb y))
  | Infinity s, Infinity t => Infinity (xorb s t)
  end.

(** [a / b] *)
Definition num_div (a b : number) : number :=
  match a, b with
  | NaN, _ | _, NaN => NaN
  | Finite x, Finite y =>
      if Qzerob y then (if Qzerob x then NaN else Infinity (Qnegb x))
      else Finite (x / y)
  | Infinity s, Finite y => Infinity (xorb s (Qnegb y))
  | Finite _, Infinity _ => Finite 0
  | Infinity _, Infinity _ => NaN
  end.

(** [a - b] *)
Definition num_sub (a b : number) : number :=
  match a, b with
  | NaN, _ | _, NaN => NaN
  | Finite x, Finite y => Finite (x - y)
  | Infinity s, Finite _ => Infinity s
  | Finite _, Infinity s => Infinity (negb s)
  | Infinity s, Infinity t => if Bool.eqb s t then NaN else Infinity s
  end.

(** [a + b] *)
Definition num_add (a b : number) : number :=
  match a, b with
  | NaN, _ | _, NaN => NaN
  | Finite x, Finite y => Finite (x + y)
  | Infinity s, Finite _ | Finite _, Infinity s => Infinity s
  | Infinity s, Infinity t => if Bool.eqb s t then Infinity s else NaN
  end.

(** [Math.abs(a)] *)
Definition Math_abs (a : number) : number :=
  match a with
  | NaN => NaN
  | Infinity _ => Infinity false
  | Finite x => Finite (Qabs x)
  end.

(** *** Rounding to binary64 (IEEE 754, to nearest, ties to even) *)

Definition pow2 (e : Z) : Q := (2 ^ e)%Q.

(** The integer nearest to [x], the even one of the two when [x] is half-way. *)
Definition round_half_even (x : Q) : Z :=
  let f := Qfloor x in
  match (x - inject_Z f ?= 1 # 2)%Q with
  | Lt => f
  | Gt => f + 1
  | Eq => if Z.even f then f else f + 1
  end.

(** The exponent [e] of [x > 0]: [2^e <= x < 2^(e+1)]. *)
Definition exponent (x : Q) : Z :=
  let e := Z.log2 (Qnum x) - Z.log2 (Zpos (Qden x)) in
  if Qle_bool (pow2 e) x then e else e - 1.

(** The exponent of the last bit of a double in the binade of [x]: 53 bits
    of precision, and no bit below [2^-1074]. *)
Definition quantum (x : Q) : Z := Z.max (exponent (Qabs x) - 52) (-1074).

(** The multiple of the quantum nearest to [x]; it is the double nearest to
    [x] when it is below [2^1024]. *)
Definition round64 (x : Q) : Q :=
  if Qeq_bool x 0 then 0%Q
  else Qred (inject_Z (round_half_even (x / pow2 (quantum x)))
             * pow2 (quantum x)).

(** The double for the exact result [a] of an operation; from [2^1024] on it
    is an infinity. *)
Definition binary64 (a : number) : number :=
  match a with
  | Finite x =>
      let r := round64 x in
      if Qle_bool (pow2 1024) (Qabs r) then Infinity (Qnegb r) else Finite r
  | _ => a
  end.

(** Equality of numbers as values ([NaN] is only here to be compared as a
    result, not by JavaScript's [===]). *)
Definition num_eq (a b : number) : Prop :=
  match a, b with
  | NaN, NaN => True
  | Infinity s, Infinity t => s = t
  | Finite x, Finite y => x == y
  | _, _ => False
  end.

(** The values handed to [_hashAttribute]: [undefined], [null], a string, or
    a number. *)
Inductive value :=
  | VUndefined
  | VNull
  | VString (s : string)
  | VNumber (x : number).

(** ** Strings, hexadecimal text and buffers *)

(** A [Buffer] is a list of bytes; a byte is an [ascii]. *)
Abbreviation byte := ascii (only parsing).

Definition byte_of_Z (z : Z) : byte := ascii_of_N (Z.to_N (z mod 256)).
Definition Z_of_byte (b : byte) : Z := Z.of_N (N_of_ascii b).

(** The lower-case hexadecimal digit of [d], [0 <= d < 16]. *)
Definition hexdigit (d : Z) : ascii :=
  if d <? 10 then ascii_of_N (Z.to_N (48 + d)) else ascii_of_N (Z.to_N (87 + d)).

(** The value of a hexadecimal digit, either case. *)
Definition hexval (c : ascii) : option Z :=
  let n := Z_of_byte c in
  if (48 <=? n) && (n <=? 57) then Some (n - 48)
  else if (97 <=? n) && (n <=? 102) then Some (n - 87)
  else if (65 <=? n) && (n <=? 70) then Some (n - 55)
  else None.

(** Text made of hexadecimal digits only. *)
Definition hex_string (s : string) : bool :=
  forallb (fun c => match hexval c with Some _ => true | None => false end)
    (list_ascii_of_string s).

Fixpoint hex_digits (fuel : nat) (n : Z) (acc : string) : string :=
  match fuel with
  | O => acc
  | S fuel' =>
      let acc' := String (hexdigit (n mod 16)) acc in
      if n <? 16 then acc' else hex_digits fuel' (n / 16) acc'
  end.

(** [n.toString(16)] for a non-negative integer [n]. *)
Definition toString16 (n : Z) : string :=
  hex_digits (S (Z.to_nat (Z.log2 n))) n "".

(** [s.padStart(2, '0')] *)
Definition padStart2 (s : string) : string :=
  match s with
  | "" => "00"
  | String c "" => String "0" (String c "")
  | _ => s
  end.

(** [parts.join('')] *)
Definition join (parts : list string) : string :=
  fold_right String.append "" parts.

(** [s.substr(start, len)] for non-negative arguments. *)
Definition substr (s : string) (start len : nat) : string :=
  substring start len s.

Fixpoint parse_hex_prefix (s : string) (acc : option Z) : option Z :=
  match s with
  | "" => acc
  | String c rest =>
      match hexval c with
      | Some d => parse_hex_prefix rest (Some (16 * default 0 acc + d))
      | None => acc
      end
  end.

(** [parseInt(s, 16)] on text without sign, blanks or [0x] prefix: the value
    of the longest prefix of hexadecimal digits, [None] (NaN) when the first
    character is not one. *)
Definition parseInt16 (s : string) : option Z := parse_hex_prefix s None.

(** [Buffer.from(s, 'hex')]: one byte per pair of hexadecimal digits, stopping
    at the first pair that is not one; a trailing single digit is dropped. *)
Fixpoint Buffer_from_hex (s : string) : list byte :=
  match s with
  | String a (String b rest) =>
      match hexval a, hexval b with
      | Some x, Some y => byte_of_Z (16 * x + y) :: Buffer_from_hex rest
      | _, _ => []
      end
  | _ => []
  end.

(** [buf.toString('hex')] *)
Fixpoint Buffer_toString_hex (buf : list byte) : string :=
  match buf with
  | [] => ""
  | b :: rest =>
      String (hexdigit (Z_of_byte b / 16))
        (String (hexdigit (Z_of_byte b mod 16)) (Buffer_toString_hex rest))
  end.

(** [Buffer.from(s)] for a string of UTF-8 code units. *)
Definition Buffer_from_utf8 (s : string) : list byte := list_ascii_of_string s.

Fixpoint dec_digits (fuel : nat) (n : Z) (acc : string) : string :=
  match fuel with
  | O => acc
  | S fuel' =>
      let acc' := String (ascii_of_N (Z.to_N (48 + n mod 10))) acc in
      if n <? 10 then acc' else dec_digits fuel' (n / 10) acc'
  end.

(** *** [Number.prototype.toString] (ECMAScript, Number::toString, radix 10) *)

(** The decimal digits of a non-negative integer. *)
Definition digits (n : Z) : string :=
  dec_digits (S (Z.to_nat (Z.log2 n))) n "".

Definition pow10 (e : Z) : Q := (10 ^ e)%Q.

(** The least [j >= 1] with [x * 10^j >= 1], for [0 < x < 1]. *)
Fixpoint decimal_shift (fuel : nat) (x : Q) (j : Z) : Z :=
  match fuel with
  | O => j
  | S fuel' =>
      if Qle_bool 1 (x * 10) then j + 1
      else decimal_shift fuel' (x * 10) (j + 1)
  end.

(** The [n] with [10^(n-1) <= x < 10^n], for a double [x > 0]. *)
Definition decimal_exponent (x : Q) : Z :=
  if Qle_bool 1 x then Z.of_nat (String.length (digits (Qfloor x)))
  else 1 - decimal_shift 400 x 0.

(** The integer [s] of [k] digits for which [s * 10^(n-k)] is nearest to
    [x], among those that the rounding to binary64 sends to [x]. *)
Definition digits_of_length (x : Q) (n k : Z) : option Z :=
  let scale := pow10 (n - k) in
  let lo := Qfloor (x / scale) in
  let hi := lo + 1 in
  let ok (s : Z) := Qeq_bool (round64 (inject_Z s * scale)) x in
  let below := (x - inject_Z lo * scale)%Q in
  let above := (inject_Z hi * scale - x)%Q in
  match ok lo, ok hi with
  | true, true =>
      match (below ?= above)%Q with
      | Lt => Some lo
      | Gt => Some hi
      | Eq => if Z.even lo then Some lo else Some hi
      end
  | true, false => Some lo
  | false, true => Some hi
  | false, false => None
  end.

(** The least number [k] of digits, and the digits. *)
Fixpoint shortest_digits (fuel : nat) (x : Q) (n k : Z) : Z * Z :=
  match fuel with
  | O => (k, Qfloor (x / pow10 (n - k)))
  | S fuel' =>
      match digits_of_length x n k with
      | Some s => (k, s)
      | None => shortest_digits fuel' x n (k + 1)
      end
  end.

Definition zeros (n : Z) : string :=
  string_of_list_ascii (repeat "0"%char (Z.to_nat n)).

(** Steps 7 to 11 of [Number::toString]: the digits [s], [k] of them, of a
    number between [10^(n-1)] and [10^n]. *)
Definition format_digits (s : string) (k n : Z) : string :=
  if (k <=? n) && (n <=? 21) then (s ++ zeros (n - k))%string
  else if (0 <? n) && (n <=? 21) then
    (substring 0 (Z.to_nat n) s ++ "."
     ++ substring (Z.to_nat n) (Z.to_nat k) s)%string
  else if (-6 <? n) && (n <=? 0) then ("0." ++ zeros (- n) ++ s)%string
  else
    let e := n - 1 in
    let sign := if e <? 0 then "e-" else "e+" in
    let exp := (sign ++ digits (Z.abs e))%string in
    if k =? 1 then (s ++ exp)%string
    else (substring 0 1 s ++ "." ++ substring 1 (Z.to_nat k) s ++ exp)%string.

(** [Number::toString(x)] of ECMAScript for a double [x > 0]. *)
Definition positive_toString (x : Q) : string :=
  let n := decimal_exponent x in
  let '(k, s) := shortest_digits 17 x n 1 in
  if s =? 10 ^ k then format_digits "1" 1 (n + 1)
  else format_digits (digits s) k n.

(** [x.toString()] for a number [x]; a rational that is not a double stands
    for the double nearest to it. *)
Definition Number_toString (x : number) : string :=
  match binary64 x with
  | NaN => "NaN"
  | Infinity false => "Infinity"
  | Infinity true => "-Infinity"
  | Finite q =>
      if Qeq_bool q 0 then "0"
      else if Qnegb q then ("-" ++ positive_toString (- q))%string
      else positive_toString q
  end.

(** ** The Node.js runtime, as an interface

    [node:crypto], [node:zlib], [Buffer] and [String.prototype.toLowerCase]
    are not part of the repository.  The pipeline is verified against the
    contract below: the digest is 16 bytes long, [gunzipSync] inverts
    [gzipSync] and every compressed stream is non-empty, and base64 decoding
    inverts base64 encoding.  [gunzipSync] returns [None] where zlib throws. *)
Class Node := {
  toLowerCase : string -> string;
  md5 : list byte -> list byte;
  gzipSync : list byte -> list byte;
  gunzipSync : list byte -> option (list byte);
  toBase64 : list byte -> string;
  fromBase64 : string -> list byte;
  md5_length : forall m, length (md5 m) = 16%nat;
  gunzip_gzip : forall b, gunzipSync (gzipSync b) = Some b;
  gzip_nonempty : forall b, gzipSync b <> [];
  fromBase64_toBase64 : forall b, fromBase64 (toBase64 b) = b;
  fromBase64_empty : fromBase64 "" = []
}.

(** ** The recipe data model ([entities.js], [measurement.js],
       [RecipeStep.js], [Recipe.js]) *)

(** [createEntity(type)(name, properties)]; of the properties only [amount]
    and [unit] are read by [Recipe] ([None] is an absent property). *)
Record Entity := {
  ent_type : string;
  name : string;
  amount : option number;
  ent_unit : option string
}.

(** [Duration(value, unit)] and [Temperature(value, unit)]. *)
Record Measurement := {
  value_of : number;
  unit_of : string
}.

(** [RecipeStep.heat] stores a [Temperature], or the string it was given when
    that string names no [StoveHeat] level. *)
Inductive TemperatureField :=
  | TemperatureObject (t : Measurement)
  | TemperatureString (s : string).

(** An entry of [step.actions].  [None] is a property that is [undefined] or
    [null].  The remaining properties of an action ([technique], [from],
    [to], [equipment], [setting], [appliance], [targetTemperature], [method],
    [condition]) are never read by the hash. *)
Record Action := {
  action_type : string;
  ingredient : option Entity;
  container : option Entity;
  temperature : option TemperatureField;
  duration : option Measurement
}.

Record Cue := {
  cue_type : string;
  cue_description : string
}.

Record SensoryCheck := {
  check_type : string;
  check_description : string;
  check_adjustment : string
}.

Record Adjustment := {
  adj_condition : string;
  adj_action : string
}.

#[local] Unset Elimination Schemes.
Inductive RecipeStep := mkRecipeStep {
  actions : list Action;
  threads : list RecipeStep;
  cues : list Cue;
  adjustments : list Adjustment;
  sensoryChecks : list SensoryCheck
}.
#[local] Set Elimination Schemes.

(** A [Recipe] instance.  [hash] is [None] for [null].  [nutritionInfo], an
    object that only the text exports read, is left out. *)
Record Recipe := {
  recipe_name : string;
  ingredients : list Entity;
  tools : list Entity;
  appliances : list Entity;
  steps : list RecipeStep;
  servings : number;
  difficulty : string;
  estimatedTime : option Measurement;
  miseEnPlace : list string;
  servingSuggestions : list string;
  substitutions : list (Entity * Entity);
  tags : list string;
  hash : option string
}.

(** ** Exceptions and the store of recipe instances *)

Inductive exn :=
  | Error (message : string)
  | RangeError (message : string)
  | TypeError (message : string)
  | ReferenceError (message : string).

Inductive completion (A : Type) :=
  | Return (a : A)
  | Throw (e : exn).
Arguments Return {A} a.
Arguments Throw {A} e.

(** Recipe instances live in a store and are passed by reference, so that
    [r.compareTo(r)] and repeated calls on one instance see the cached hash. *)
Abbreviation loc := nat (only parsing).
Abbreviation store := (gmap nat Recipe).

Definition M (A : Type) : Type := store -> completion A * store.

Definition ret {A} (a : A) : M A := fun st => (Return a, st).
Definition bind {A B} (m : M A) (k : A -> M B) : M B :=
  fun st =>
    match m st with
    | (Return a, st') => k a st'
    | (Throw e, st') => (Throw e, st')
    end.
Definition lift {A} (c : completion A) : M A := fun st => (c, st).

Notation "'let!' x ':=' m 'in' k" := (bind m (fun x => k))
  (at level 10, x name, m at level 100, k at level 200).

(** Reading [this]; a reference outside the store is not a [Recipe]. *)
Definition deref (this : loc) : M Recipe :=
  fun st =>
    match st !! this with
    | Some r => (Return r, st)
    | None => (Throw (TypeError "not a Recipe"), st)
    end.

Definition set_hash (r : Recipe) (h : option string) : Recipe :=
  {| recipe_name := recipe_name r; ingredients := ingredients r;
     tools := tools r; appliances := appliances r; steps := steps r;
     servings := servings r; difficulty := difficulty r;
     estimatedTime := estimatedTime r; miseEnPlace := miseEnPlace r;
     servingSuggestions := servingSuggestions r;
     substitutions := substitutions r; tags := tags r; hash := h |}.

(** [this.hash = h] *)
Definition assign_hash (this : loc) (h : string) : M unit :=
  fun st => (Return tt, alter (fun r => set_hash r (Some h)) this st).

(** ** [Recipe.js]: the hash *)

Section Pipeline.
Context `{Node}.

(** [crypto.createHash('md5').update(s).digest('hex')] *)
Definition md5_hex (s : string) : string :=
  Buffer_toString_hex (md5 (Buffer_from_utf8 s)).

(** [new Array(len)]: the length when [len] is an integer in [0, 2^32),
    a [RangeError] otherwise. *)
Definition array_length (len : number) : option Z :=
  match len with
  | Finite q =>
      let q' := Qred q in
      if (Qden q' =? 1)%positive && (0 <=? Qnum q') && (Qnum q' <? 2 ^ 32)
      then Some (Qnum q') else None
  | _ => None
  end.

(** [parseInt(hash.substr(0, 8), 16) % numBuckets], where [numBuckets] is the
    length [n] that [new Array] accepted; [None] is NaN. *)
Definition bucketIndex (hash : string) (n : Z) : option Z :=
  match parseInt16 (substr hash 0 8) with
  | Some v => if n =? 0 then None else Some (Z.rem v n)
  | None => None
  end.

(** [buckets[bucketIndex]++].  An index computed modulo the array's length is
    inside the array; a NaN index names a property that is no element, so it
    leaves the elements as they are. *)
Definition increment (buckets : list Z) (bucketIndex : option Z) : list Z :=
  match bucketIndex with
  | Some i => alter Z.succ (Z.to_nat i) buckets
  | None => buckets
  end.

(** [value.toString()] *)
Definition toString (v : value) : string :=
  match v with
  | VString s => s
  | VNumber x => Number_toString x
  | VUndefined => "undefined"
  | VNull => "null"
  end.

(** [this[_hashAttribute](value, buckets, numBuckets)] *)
Definition _hashAttribute (v : value) (buckets : list Z) (numBuckets : Z)
  : list Z :=
  match v with
  | VUndefined | VNull => buckets
  | _ =>
      let hash := md5_hex (toLowerCase (toString v)) in
      increment buckets (bucketIndex hash numBuckets)
  end.

(** The bucket that [_hashAttribute] increments: none for [undefined] and
    [null]. *)
Definition value_index (v : value) (n : Z) : option Z :=
  match v with
  | VUndefined | VNull => None
  | _ => bucketIndex (md5_hex (toLowerCase (toString v))) n
  end.

(** [action.temperature.value] once [action.temperature] is truthy. *)
Definition temperature_value (t : TemperatureField) : value :=
  match t with
  | TemperatureObject m => VNumber (value_of m)
  | TemperatureString _ => VUndefined
  end.

(** [if (action.temperature)]: an object is truthy, a string is unless
    empty. *)
Definition truthy_temperature (t : option TemperatureField) : bool :=
  match t with
  | None => false
  | Some (TemperatureObject _) => true
  | Some (TemperatureString s) => negb (String.eqb s "")
  end.

(** The body of [step.actions.forEach]. *)
Definition hashAction (numBuckets : Z) (buckets : list Z) (action : Action)
  : list Z :=
  let buckets := _hashAttribute (VString (action_type action)) buckets numBuckets in
  let buckets :=
    match ingredient action with
    | Some e => _hashAttribute (VString (name e)) buckets numBuckets
    | None => buckets
    end in
  let buckets :=
    match container action with
    | Some e => _hashAttribute (VString (name e)) buckets numBuckets
    | None => buckets
    end in
  let buckets :=
    if truthy_temperature (temperature action) then
      match temperature action with
      | Some t => _hashAttribute (temperature_value t) buckets numBuckets
      | None => buckets
      end
    else buckets in
  match duration action with
  | Some d => _hashAttribute (VNumber (value_of d)) buckets numBuckets
  | None => buckets
  end.

(** The body of [step.cues.forEach]. *)
Definition hashCue (numBuckets : Z) (buckets : list Z) (cue : Cue) : list Z :=
  let buckets := _hashAttribute (VString (cue_type cue)) buckets numBuckets in
  _hashAttribute (VString (cue_description cue)) buckets numBuckets.

(** The body of [step.sensoryChecks.forEach]. *)
Definition hashCheck (numBuckets : Z) (buckets : list Z) (check : SensoryCheck)
  : list Z :=
  let buckets := _hashAttribute (VString (check_type check)) buckets numBuckets in
  _hashAttribute (VString (check_description check)) buckets numBuckets.

(** [this[_hashStep](step, buckets, numBuckets)] *)
Fixpoint _hashStep (step : RecipeStep) (buckets : list Z) (numBuckets : Z)
  : list Z :=
  let buckets := fold_left (hashAction numBuckets) (actions step) buckets in
  let buckets := fold_left (hashCue numBuckets) (cues step) buckets in
  let buckets := fold_left (hashCheck numBuckets) (sensoryChecks step) buckets in
  fold_left (fun b thread => _hashStep thread b numBuckets) (threads step) buckets.

(** [_hashAttribute] called on each value of a list in turn. *)
Definition hash_values (numBuckets : Z) (vs : list value) (buckets : list Z)
  : list Z :=
  fold_left (fun b v => _hashAttribute v b numBuckets) vs buckets.

(** The body of [this.ingredients.forEach] in [cook]. *)
Definition hashIngredient (numBuckets : Z) (buckets : list Z)
  (ingredient : Entity) : list Z :=
  let hash := md5_hex (toLowerCase (name ingredient)) in
  increment buckets (bucketIndex hash numBuckets).

(** The histogram that [cook] builds for a recipe. *)
Definition histogram (r : Recipe) (numBuckets : Z) (buckets : list Z)
  : list Z :=
  let buckets := fold_left (hashIngredient numBuckets) (ingredients r) buckets in
  fold_left (fun b step => _hashStep step b numBuckets) (steps r) buckets.

(** [buckets.map((count) => count.toString(16).padStart(2, '0')).join('')] *)
Definition hexString (buckets : list Z) : string :=
  join (map (fun count => padStart2 (toString16 count)) buckets).

(** [gzipSync(Buffer.from(hexString, 'hex')).toString('base64')] *)
Definition encode (buckets : list Z) : string :=
  toBase64 (gzipSync (Buffer_from_hex (hexString buckets))).

(** [this.hash] when [if (this.hash)] holds: [null] and the empty string
    are falsy. *)
Definition cached_hash (r : Recipe) : option string :=
  match hash r with
  | Some h => if String.eqb h "" then None else Some h
  | None => None
  end.

(** The part of [cook] that runs when no hash is cached, up to the
    assignment of [this.hash]: [new Array(numBuckets).fill(0)] throws a
    [RangeError] unless [numBuckets] is an array length [n]. *)
Definition compute_hash (r : Recipe) (numBuckets : number) : completion string :=
  match array_length numBuckets with
  | Some n =>
      let buckets := repeat 0 (Z.to_nat n) in
      Return (encode (histogram r n buckets))
  | None => Throw (RangeError "Invalid array length")
  end.

(** [cook(numBuckets)] *)
Definition cook (this : loc) (numBuckets : number) : M string :=
  let! r := deref this in
  match cached_hash r with
  | Some h => ret h
  | None =>
      let! h := lift (compute_hash r numBuckets) in
      let! _ := assign_hash this h in
      ret h
  end.

(** [cook()]: the default parameter. *)
Definition default_numBuckets : number := Finite 256.

(** ** [Recipe.js]: the comparison *)

(** The second operand of [compareTo]: a [Recipe] or a string. *)
Inductive operand :=
  | OtherRecipe (other : loc)
  | OtherHash (hash : string).

(** [decompressHash(hash)]: whatever [gunzipSync] throws is replaced. *)
Definition decompressHash (hash : string) : completion string :=
  match gunzipSync (fromBase64 hash) with
  | Some buf => Return (Buffer_toString_hex buf)
  | None => Throw (Error "Invalid hash format: unable to decompress")
  end.

(** [parseInt(hash.substr(i, 2), 16)] as a number. *)
Definition count_at (hash : string) (i : nat) : number :=
  match parseInt16 (substr hash i 2) with
  | Some v => num_of_Z v
  | None => NaN
  end.

(** The [for (let i = 0; i < thisHash.length; i += 2)] loop of [compareTo];
    [String.length thisHash] iterations are enough fuel. *)
Fixpoint distance_loop (fuel i : nat) (thisHash otherHash : string)
  (distance : number) : number :=
  match fuel with
  | O => distance
  | S fuel' =>
      if (i <? String.length thisHash)%nat then
        let count1 := count_at thisHash i in
        let count2 := count_at otherHash i in
        distance_loop fuel' (i + 2) thisHash otherHash
          (num_add distance (Math_abs (num_sub count1 count2)))
      else distance
  end.

(** [compareTo] from the two decompressed hashes on.  The counters, their
    differences and sum, the length, its half and the product by 16 are
    integers, which a double holds exactly below [2^53]: they are computed
    exactly.  The quotient and the difference of the last line are rounded. *)
Definition compare_hex (thisHash otherHash : string) : completion number :=
  if negb (String.length thisHash =? String.length otherHash)%nat then
    Throw (Error "Hashes must be of equal length")
  else
    let distance :=
      distance_loop (String.length thisHash) 0 thisHash otherHash (Finite 0) in
    let totalBuckets :=
      num_div (num_of_Z (Z.of_nat (String.length thisHash))) (Finite 2) in
    Return (binary64
              (num_sub (Finite 1)
                 (binary64
                    (num_div distance (num_mul (Finite 16) totalBuckets))))).

(** [compareTo(other)] *)
Definition compareTo (this : loc) (other : operand) : M number :=
  let! h := cook this default_numBuckets in
  let! thisHash := lift (decompressHash h) in
  let! otherHash :=
    match other with
    | OtherRecipe o =>
        let! h' := cook o default_numBuckets in
        lift (decompressHash h')
    | OtherHash s => lift (decompressHash s)
    end in
  lift (compare_hex thisHash otherHash).

(** The hash string of the second operand: [other.cook()] for a recipe, the
    string itself otherwise. *)
Definition operand_hash (other : operand) : M string :=
  match other with
  | OtherRecipe o => cook o default_numBuckets
  | OtherHash s => ret s
  end.

(** The counters read back from a decompressed hash, the way the loop of
    [compareTo] reads them: one [parseInt] per two characters. *)
Definition counts_of_hex (hex : string) : list number :=
  map (fun k => count_at hex (2 * k)) (seq 0 (Nat.div2 (S (String.length hex)))).

(** Decoding an encoded hash into its counters. *)
Definition decode (hash : string) : completion (list number) :=
  match decompressHash hash with
  | Return hex => Return (counts_of_hex hex)
  | Throw e => Throw e
  end.

End Pipeline.

(** ** [Recipe.js]: the constructor and the methods that mutate a recipe *)

(** [new Recipe(name, { ingredients, steps, tags })] with the defaults of the
    constructor for the other options. *)
Definition Recipe_new (name : string) (ingredients : list Entity)
  (steps : list RecipeStep) (tags : list string) : Recipe :=
  {| recipe_name := name; ingredients := ingredients; tools := [];
     appliances := []; steps := steps; servings := Finite 1;
     difficulty := "medium"; estimatedTime := None; miseEnPlace := [];
     servingSuggestions := []; substitutions := []; tags := tags;
     hash := None |}.

(** [ingredient.amount * factor]; an absent amount is [undefined], whose
    product is NaN. *)
Definition scale_entity (factor : number) (e : Entity) : Entity :=
  {| ent_type := ent_type e; name := name e;
     amount := Some (binary64 (num_mul (default NaN (amount e)) factor));
     ent_unit := ent_unit e |}.

(** The changes a caller can make to an instance without [cook]: the mutating
    methods of [Recipe] and plain assignments to the public fields
    [ingredients] and [steps].  ([createStep] is not one of them: it changes
    nothing, see below.) *)
Inductive mutation :=
  | scale (factor : number)
  | addTags (newTags : list string)
  | setDifficulty (level : string)
  | setEstimatedTime (time : Measurement)
  | addMiseEnPlace (steps : list string)
  | addServingSuggestion (suggestion : string)
  | suggestSubstitution (ingredient alternative : Entity)
  | assign_ingredients (ingredients : list Entity)
  | assign_steps (steps : list RecipeStep).

Definition mutate (m : mutation) (r : Recipe) : Recipe :=
  match m with
  | scale factor =>
      {| recipe_name := recipe_name r;
         ingredients := map (scale_entity factor) (ingredients r);
         tools := tools r; appliances := appliances r; steps := steps r;
         servings := binary64 (num_mul (servings r) factor);
         difficulty := difficulty r;
         estimatedTime := estimatedTime r; miseEnPlace := miseEnPlace r;
         servingSuggestions := servingSuggestions r;
         substitutions := substitutions r; tags := tags r; hash := hash r |}
  | addTags newTags =>
      {| recipe_name := recipe_name r; ingredients := ingredients r;
         tools := tools r; appliances := appliances r; steps := steps r;
         servings := servings r; difficulty := difficulty r;
         estimatedTime := estimatedTime r; miseEnPlace := miseEnPlace r;
         servingSuggestions := servingSuggestions r;
         substitutions := substitutions r; tags := tags r ++ newTags;
         hash := hash r |}
  | setDifficulty level =>
      {| recipe_name := recipe_name r; ingredients := ingredients r;
         tools := tools r; appliances := appliances r; steps := steps r;
         servings := servings r; difficulty := level;
         estimatedTime := estimatedTime r; miseEnPlace := miseEnPlace r;
         servingSuggestions := servingSuggestions r;
         substitutions := substitutions r; tags := tags r; hash := hash r |}
  | setEstimatedTime time =>
      {| recipe_name := recipe_name r; ingredients := ingredients r;
         tools := tools r; appliances := appliances r; steps := steps r;
         servings := servings r; difficulty := difficulty r;
         estimatedTime := Some time; miseEnPlace := miseEnPlace r;
         servingSuggestions := servingSuggestions r;
         substitutions := substitutions r; tags := tags r; hash := hash r |}
  | addMiseEnPlace l =>
      {| recipe_name := recipe_name r; ingredients := ingredients r;
         tools := tools r; appliances := appliances r; steps := steps r;
         servings := servings r; difficulty := difficulty r;
         estimatedTime := estimatedTime r; miseEnPlace := l;
         servingSuggestions := servingSuggestions r;
         substitutions := substitutions r; tags := tags r; hash := hash r |}
  | addServingSuggestion suggestion =>
      {| recipe_name := recipe_name r; ingredients := ingredients r;
         tools := tools r; appliances := appliances r; steps := steps r;
         servings := servings r; difficulty := difficulty r;
         estimatedTime := estimatedTime r; miseEnPlace := miseEnPlace r;
         servingSuggestions := servingSuggestions r ++ [suggestion];
         substitutions := substitutions r; tags := tags r; hash := hash r |}
  | suggestSubstitution original alternative =>
      {| recipe_name := recipe_name r; ingredients := ingredients r;
         tools := tools r; appliances := appliances r; steps := steps r;
         servings := servings r; difficulty := difficulty r;
         estimatedTime := estimatedTime r; miseEnPlace := miseEnPlace r;
         servingSuggestions := servingSuggestions r;
         substitutions := substitutions r ++ [(original, alternative)];
         tags := tags r; hash := hash r |}
  | assign_ingredients l =>
      {| recipe_name := recipe_name r; ingredients := l;
         tools := tools r; appliances := appliances r; steps := steps r;
         servings := servings r; difficulty := difficulty r;
         estimatedTime := estimatedTime r; miseEnPlace := miseEnPlace r;
         servingSuggestions := servingSuggestions r;
         substitutions := substitutions r; tags := tags r; hash := hash r |}
  | assign_steps l =>
      {| recipe_name := recipe_name r; ingredients := ingredients r;
         tools := tools r; appliances := appliances r; steps := l;
         servings := servings r; difficulty := difficulty r;
         estimatedTime := estimatedTime r; miseEnPlace := miseEnPlace r;
         servingSuggestions := servingSuggestions r;
         substitutions := substitutions r; tags := tags r; hash := hash r |}
  end.

(** [createStep(ingredients)].  Its first statement is
    [new RecipeStep().add(ingredients)], and [Recipe.js] neither imports nor
    declares [RecipeStep]: evaluating the name throws a ReferenceError,
    before [this.steps.push(step)].  So the method returns no step and
    pushes none. *)
Definition createStep (this : loc) : M RecipeStep :=
  let! _ := deref this in
  lift (Throw (ReferenceError "RecipeStep is not defined")).

(** A call of a mutating method on the instance at [this]. *)
Definition call_mutation (this : loc) (m : mutation) (st : store) : store :=
  alter (mutate m) this st.

(** The calls of mutating methods, on any instances, in order. *)
Definition call_mutations (ms : list (loc * mutation)) (st : store) : store :=
  fold_left (fun s c => call_mutation (fst c) (snd c) s) ms st.

(** ** A reference implementation of the runtime interface

    MD5 as in RFC 1321, base64 as in RFC 4648 with the lenient decoder of
    [Buffer.from(s, 'base64')] (characters outside the alphabet are skipped,
    [=] ends the input, the URL-safe [-] and [_] are accepted), and a gzip
    member (RFC 1952) whose deflate stream (RFC 1951) consists of stored
    blocks of one byte each, closed by an empty final block, with the CRC-32
    and length trailer.  [toLowerCase] folds the ASCII letters. *)
Module Reference.

Definition bytes_of (l : list Z) : list byte := map byte_of_Z l.

Definition word (z : Z) : Z := z mod 2 ^ 32.

Fixpoint le_bytes (n : nat) (z : Z) : list byte :=
  match n with
  | O => []
  | S n' => byte_of_Z z :: le_bytes n' (z / 256)
  end.

Definition le_word (bs : list byte) : Z :=
  fold_right (fun b acc => Z_of_byte b + 256 * acc) 0 bs.

(** *** MD5 *)

Definition rotl (x c : Z) : Z :=
  word (Z.lor (Z.shiftl x c) (Z.shiftr x (32 - c))).

Definition lnot32 (x : Z) : Z := Z.lxor x 0xffffffff.

Definition md5_K : list Z :=
  [ 0xd76aa478; 0xe8c7b756; 0x242070db; 0xc1bdceee;
    0xf57c0faf; 0x4787c62a; 0xa8304613; 0xfd469501;
    0x698098d8; 0x8b44f7af; 0xffff5bb1; 0x895cd7be;
    0x6b901122; 0xfd987193; 0xa679438e; 0x49b40821;
    0xf61e2562; 0xc040b340; 0x265e5a51; 0xe9b6c7aa;
    0xd62f105d; 0x02441453; 0xd8a1e681; 0xe7d3fbc8;
    0x21e1cde6; 0xc33707d6; 0xf4d50d87; 0x455a14ed;
    0xa9e3e905; 0xfcefa3f8; 0x676f02d9; 0x8d2a4c8a;
    0xfffa3942; 0x8771f681; 0x6d9d6122; 0xfde5380c;
    0xa4beea44; 0x4bdecfa9; 0xf6bb4b60; 0xbebfbc70;
    0x289b7ec6; 0xeaa127fa; 0xd4ef3085; 0x04881d05;
    0xd9d4d039; 0xe6db99e5; 0x1fa27cf8; 0xc4ac5665;
    0xf4292244; 0x432aff97; 0xab9423a7; 0xfc93a039;
    0x655b59c3; 0x8f0ccc92; 0xffeff47d; 0x85845dd1;
    0x6fa87e4f; 0xfe2ce6e0; 0xa3014314; 0x4e0811a1;
    0xf7537e82; 0xbd3af235; 0x2ad7d2bb; 0xeb86d391 ].

Definition md5_s : list Z :=
  [ 7; 12; 17; 22; 7; 12; 17; 22; 7; 12; 17; 22; 7; 12; 17; 22;
    5; 9; 14; 20; 5; 9; 14; 20; 5; 9; 14; 20; 5; 9; 14; 20;
    4; 11; 16; 23; 4; 11; 16; 23; 4; 11; 16; 23; 4; 11; 16; 23;
    6; 10; 15; 21; 6; 10; 15; 21; 6; 10; 15; 21; 6; 10; 15; 21 ].

Definition md5_state : Type := Z * Z * Z * Z.

Definition md5_init : md5_state :=
  (0x67452301, 0xefcdab89, 0x98badcfe, 0x10325476).

Definition md5_pad (m : list byte) : list byte :=
  let len := Z.of_nat (length m) in
  m ++ byte_of_Z 0x80 :: repeat (byte_of_Z 0) (Z.to_nat ((55 - len) mod 64))
    ++ le_bytes 8 (8 * len).

Fixpoint blocks (size fuel : nat) (l : list byte) : list (list byte) :=
  match fuel with
  | O => []
  | S fuel' =>
      match l with
      | [] => []
      | _ => firstn size l :: blocks size fuel' (skipn size l)
      end
  end.

Definition md5_step (M : list Z) (st : md5_state) (i : nat) : md5_state :=
  let '(A, B, C, D) := st in
  let F :=
    if (i <? 16)%nat then Z.lor (Z.land B C) (Z.land (lnot32 B) D)
    else if (i <? 32)%nat then Z.lor (Z.land D B) (Z.land (lnot32 D) C)
    else if (i <? 48)%nat then Z.lxor B (Z.lxor C D)
    else Z.lxor C (Z.lor B (lnot32 D)) in
  let g :=
    if (i <? 16)%nat then i
    else if (i <? 32)%nat then ((5 * i + 1) mod 16)%nat
    else if (i <? 48)%nat then ((3 * i + 5) mod 16)%nat
    else ((7 * i) mod 16)%nat in
  let F' := word (F + A + nth i md5_K 0 + nth g M 0) in
  (D, word (B + rotl F' (nth i md5_s 0)), B, C).

Definition md5_block (h : md5_state) (block : list byte) : md5_state :=
  let M := map le_word (blocks 4 16 block) in
  let '(a0, b0, c0, d0) := h in
  let '(A, B, C, D) := fold_left (md5_step M) (seq 0 64) h in
  (word (a0 + A), word (b0 + B), word (c0 + C), word (d0 + D)).

Definition md5 (m : list byte) : list byte :=
  let padded := md5_pad m in
  let '(a, b, c, d) :=
    fold_left md5_block (blocks 64 (length padded) padded) md5_init in
  le_bytes 4 a ++ le_bytes 4 b ++ le_bytes 4 c ++ le_bytes 4 d.

(** *** Base64 *)

Definition b64char (v : Z) : ascii :=
  if v <? 26 then ascii_of_N (Z.to_N (65 + v))
  else if v <? 52 then ascii_of_N (Z.to_N (71 + v))
  else if v <? 62 then ascii_of_N (Z.to_N (v - 4))
  else if v =? 62 then "+"%char else "/"%char.

Definition unbase64 (c : ascii) : option Z :=
  let n := Z_of_byte c in
  if (65 <=? n) && (n <=? 90) then Some (n - 65)
  else if (97 <=? n) && (n <=? 122) then Some (n - 71)
  else if (48 <=? n) && (n <=? 57) then Some (n + 4)
  else if (n =? 43) || (n =? 45) then Some 62
  else if (n =? 47) || (n =? 95) then Some 63
  else None.

Fixpoint toBase64 (buf : list byte) : string :=
  match buf with
  | [] => ""
  | [x] =>
      let x := Z_of_byte x in
      String (b64char (x / 4)) (String (b64char (x mod 4 * 16)) "==")
  | [x; y] =>
      let x := Z_of_byte x in
      let y := Z_of_byte y in
      String (b64char (x / 4))
        (String (b64char (x mod 4 * 16 + y / 16))
           (String (b64char (y mod 16 * 4)) "="))
  | x :: y :: z :: rest =>
      let x := Z_of_byte x in
      let y := Z_of_byte y in
      let z := Z_of_byte z in
      String (b64char (x / 4))
        (String (b64char (x mod 4 * 16 + y / 16))
           (String (b64char (y mod 16 * 4 + z / 64))
              (String (b64char (z mod 64)) (toBase64 rest))))
  end.

(** The legal characters of the input up to the first [=]. *)
Fixpoint sextets (s : string) : list Z :=
  match s with
  | "" => []
  | String c rest =>
      if Ascii.eqb c "=" then []
      else
        match unbase64 c with
        | Some v => v :: sextets rest
        | None => sextets rest
        end
  end.

Fixpoint bytes_of_sextets (l : list Z) : list byte :=
  match l with
  | a :: b :: c :: d :: rest =>
      byte_of_Z (a * 4 + b / 16) :: byte_of_Z (b mod 16 * 16 + c / 4)
        :: byte_of_Z (c mod 4 * 64 + d) :: bytes_of_sextets rest
  | [a; b; c] =>
      [byte_of_Z (a * 4 + b / 16); byte_of_Z (b mod 16 * 16 + c / 4)]
  | [a; b] => [byte_of_Z (a * 4 + b / 16)]
  | _ => []
  end.

Definition fromBase64 (s : string) : list byte :=
  bytes_of_sextets (sextets s).

(** *** CRC-32 and the gzip container *)

Definition crc32_bit (crc : Z) : Z :=
  if Z.odd crc then Z.lxor (Z.shiftr crc 1) 0xedb88320 else Z.shiftr crc 1.

Definition crc32_byte (crc : Z) (b : byte) : Z :=
  Nat.iter 8 crc32_bit (Z.lxor crc (Z_of_byte b)).

Definition crc32 (data : list byte) : Z :=
  Z.lxor (fold_left crc32_byte data 0xffffffff) 0xffffffff.

Definition gzip_header : list byte :=
  bytes_of [0x1f; 0x8b; 8; 0; 0; 0; 0; 0; 0; 3].

Definition gzip_trailer (data : list byte) : list byte :=
  le_bytes 4 (crc32 data) ++ le_bytes 4 (Z.of_nat (length data)).

Fixpoint stored_blocks (data : list byte) : list byte :=
  match data with
  | [] => bytes_of [1; 0; 0; 0xff; 0xff]
  | x :: rest => bytes_of [0; 1; 0; 0xfe; 0xff] ++ x :: stored_blocks rest
  end.

Definition gzipSync (data : list byte) : list byte :=
  gzip_header ++ stored_blocks data ++ gzip_trailer data.

(** Inflation of a stream of stored blocks: the data and the bytes after the
    final block; [None] on any other block type or a damaged block. *)
Fixpoint inflate_stored (fuel : nat) (input : list byte)
  : option (list byte * list byte) :=
  match fuel with
  | O => None
  | S fuel' =>
      match input with
      | hdr :: l0 :: l1 :: n0 :: n1 :: rest =>
          let len := Z.to_nat (Z_of_byte l0 + 256 * Z_of_byte l1) in
          if negb (Z_of_byte hdr / 2 mod 4 =? 0) then None
          else if negb ((Z_of_byte l0 + Z_of_byte n0 =? 255)
                        && (Z_of_byte l1 + Z_of_byte n1 =? 255)) then None
          else if (length rest <? len)%nat then None
          else if Z.odd (Z_of_byte hdr) then Some (firstn len rest, skipn len rest)
          else
            match inflate_stored fuel' (skipn len rest) with
            | Some (data, rest') => Some (firstn len rest ++ data, rest')
            | None => None
            end
      | _ => None
      end
  end.

Definition bytes_eqb (a b : list byte) : bool :=
  String.eqb (string_of_list_ascii a) (string_of_list_ascii b).

Definition gunzipSync (input : list byte) : option (list byte) :=
  if bytes_eqb (firstn 4 input) (bytes_of [0x1f; 0x8b; 8; 0]) then
    match inflate_stored (length input) (skipn 10 input) with
    | Some (data, trailer) =>
        if bytes_eqb trailer (gzip_trailer data) then Some data else None
    | None => None
    end
  else None.

(** *** Case folding *)

Definition lower_ascii (c : ascii) : ascii :=
  let n := Z_of_byte c in
  if (65 <=? n) && (n <=? 90) then byte_of_Z (n + 32) else c.

Fixpoint toLowerCase (s : string) : string :=
  match s with
  | "" => ""
  | String c rest => String (lower_ascii c) (toLowerCase rest)
  end.

End Reference.

(** ** The properties the specification states, in its own words *)

(** "distance = sum over all buckets of |countA - countB|" *)
Fixpoint total_distance (a b : list Z) : Z :=
  match a, b with
  | x :: a', y :: b' => Z.abs (x - y) + total_distance a' b'
  | _, _ => 0
  end.

(** "similarity = 1 - distance / (maxPerBucketDelta * N)" with the constant
    16 of the reference. *)
Definition similarity (distance n : Z) : Q :=
  1 - inject_Z distance / (16 * inject_Z n).

(** The same expression in the arithmetic of JavaScript: the quotient, then
    the difference, each rounded to binary64. *)
Definition binary64_similarity (distance n : Z) : Q :=
  round64 (1 - round64 (inject_Z distance / (16 * inject_Z n))).

(** The counters held by a decompressed buffer, one per byte. *)
Definition counters (buf : list byte) : list Z := map Z_of_byte buf.

(** "For each action in the step, emit its action-type tag, then (if
    present) the associated ingredient name, container name, temperature
    value, and duration value": the tokens before the place of the
    temperature, the tokens after it, and all of them. *)
Definition action_head (a : Action) : list value :=
  [VString (action_type a)]
  ++ match ingredient a with Some e => [VString (name e)] | None => [] end
  ++ match container a with Some e => [VString (name e)] | None => [] end.

Definition action_tail (a : Action) : list value :=
  match duration a with Some d => [VNumber (value_of d)] | None => [] end.

Definition action_tokens (a : Action) : list value :=
  action_head a
  ++ match temperature a with
     | Some (TemperatureObject t) => [VNumber (value_of t)]
     | _ => []
     end
  ++ action_tail a.

(** "For each cue, emit its type tag and its description as two tokens." *)
Definition cue_tokens (c : Cue) : list value :=
  [VString (cue_type c); VString (cue_description c)].

(** "For each sensory check, emit its type tag and description as two
    tokens." *)
Definition check_tokens (c : SensoryCheck) : list value :=
  [VString (check_type c); VString (check_description c)].

(** The tokens of a step: its actions, its cues, its sensory checks, then
    every parallel child step in order; adjustments give none. *)
Fixpoint step_tokens (s : RecipeStep) : list value :=
  flat_map action_tokens (actions s)
  ++ flat_map cue_tokens (cues s)
  ++ flat_map check_tokens (sensoryChecks s)
  ++ flat_map step_tokens (threads s).

(** "For each ingredient, emit one token = ingredient name", then the steps
    in order. *)
Definition recipe_tokens (r : Recipe) : list value :=
  map (fun e => VString (name e)) (ingredients r)
  ++ flat_map step_tokens (steps r).

(** A step with every adjustments list emptied, at every depth: two steps
    differ only in their adjustments when this makes them equal. *)
Fixpoint strip_adjustments (s : RecipeStep) : RecipeStep :=
  {| actions := actions s; threads := map strip_adjustments (threads s);
     cues := cues s; adjustments := []; sensoryChecks := sensoryChecks s |}.

(** [this.cues.push(c)] of [untilCue], [this.sensoryChecks.push(c)] of
    [checkSensory], [this.threads.push(t)] of [parallel] and
    [this.adjustments.push(a)] of [adjust]. *)
Definition push_cue (c : Cue) (s : RecipeStep) : RecipeStep :=
  mkRecipeStep (actions s) (threads s) (cues s ++ [c]) (adjustments s)
    (sensoryChecks s).

Definition push_check (c : SensoryCheck) (s : RecipeStep) : RecipeStep :=
  mkRecipeStep (actions s) (threads s) (cues s) (adjustments s)
    (sensoryChecks s ++ [c]).

Definition push_thread (t : RecipeStep) (s : RecipeStep) : RecipeStep :=
  mkRecipeStep (actions s) (threads s ++ [t]) (cues s) (adjustments s)
    (sensoryChecks s).

Definition push_adjustment (a : Adjustment) (s : RecipeStep) : RecipeStep :=
  mkRecipeStep (actions s) (threads s) (cues s) (adjustments s ++ [a])
    (sensoryChecks s).

(** The recipe [r] with the step after the steps [pre] replaced by [s']. *)
Definition replace_step (r : Recipe) (pre : list RecipeStep) (s' : RecipeStep)
  : Recipe :=
  mutate (assign_steps (pre ++ s' :: drop (S (length pre)) (steps r))) r.

(** The action [a] with [temperature] set to the [Temperature] [t]. *)
Definition with_temperature (a : Action) (t : Measurement) : Action :=
  {| action_type := action_type a; ingredient := ingredient a;
     container := container a; temperature := Some (TemperatureObject t);
     duration := duration a |}.

(** Two steps that are identical except that one action, in the step or in a
    parallel step at any depth, has no temperature in the first and the
    temperature [t] in the second. *)
Inductive step_gains_temperature (t : Measurement)
  : RecipeStep -> RecipeStep -> Prop :=
  | gains_in_action pre a post ths cs adjs scs :
      temperature a = None ->
      step_gains_temperature t
        (mkRecipeStep (pre ++ a :: post) ths cs adjs scs)
        (mkRecipeStep (pre ++ with_temperature a t :: post) ths cs adjs scs)
  | gains_in_thread acts pre s s' post cs adjs scs :
      step_gains_temperature t s s' ->
      step_gains_temperature t
        (mkRecipeStep acts (pre ++ s :: post) cs adjs scs)
        (mkRecipeStep acts (pre ++ s' :: post) cs adjs scs).

(** The same for two recipes: equal ingredients, equal steps but one. *)
Definition recipe_gains_temperature (t : Measurement) (r r' : Recipe) : Prop :=
  ingredients r' = ingredients r
  /\ exists pre s s' post,
       steps r = pre ++ s :: post /\ steps r' = pre ++ s' :: post
       /\ step_gains_temperature t s s'.

(** Induction on steps, with the hypothesis for every parallel step. *)
Fixpoint RecipeStep_threads_ind (P : RecipeStep -> Prop)
  (step : forall acts ths cs adjs scs,
      Forall P ths -> P (mkRecipeStep acts ths cs adjs scs))
  (s : RecipeStep) : P s :=
  match s with
  | mkRecipeStep acts ths cs adjs scs =>
      step acts ths cs adjs scs
        ((fix all (l : list RecipeStep) : Forall P l :=
            match l with
            | [] => List.Forall_nil P
            | x :: l' => @List.Forall_cons _ P x l' (RecipeStep_threads_ind P step x) (all l')
            end) ths)
  end.

(** "Take the digest's first 4 bytes as an unsigned 32-bit integer". *)
Definition digest_prefix (digest : list byte) : Z :=
  fold_left (fun acc b => 256 * acc + Z_of_byte b) (firstn 4 digest) 0.

(** "bucket index = that integer modulo N", for the digest "of the
    lowercased string form of the token". *)
Definition token_bucket `{Node} (token : value) (n : Z) : Z :=
  digest_prefix (md5 (Buffer_from_utf8 (toLowerCase (toString token)))) mod n.

(** "must be a positive integer": the bucket counts the specification
    allows. *)
Definition positive_integer (n : number) : Prop :=
  exists k : Z, 0 < k /\ num_eq n (num_of_Z k).

(** * The two recipes of [examples/] *)

Module Examples.

Definition tazza : Entity :=
  {| ent_type := "container"; name := "Tazza"; amount := None;
     ent_unit := None |}.

Definition Ingredient (name : string) (amount : Z) (unit : string) : Entity :=
  {| ent_type := "ingredient"; name := name;
     amount := Some (num_of_Z amount); ent_unit := Some unit |}.

Definition latte : Entity := Ingredient "Latte" 1 "cup".
Definition espresso : Entity := Ingredient "Espresso" 1 "shot".
Definition sugar : Entity := Ingredient "Sugar" 1 "tablespoon".
Definition cookie : Entity := Ingredient "Cookie" 1 "piece".

Definition with_actions (acts : list Action) : RecipeStep :=
  {| actions := acts; threads := []; cues := []; adjustments := [];
     sensoryChecks := [] |}.

(** [new RecipeStep().add(latte, espresso, sugar).to(tazza).mix()]: [add]
    has one parameter, so only [latte] is added. *)
Definition step1 : RecipeStep :=
  with_actions
    [ {| action_type := "add"; ingredient := Some latte;
         container := Some tazza; temperature := None; duration := None |};
      {| action_type := "mix"; ingredient := None; container := Some tazza;
         temperature := None; duration := None |} ].

(** [new RecipeStep().heat(Measurement.Temperature.MEDIUM).for(minutes(1))]:
    [Measurement.Temperature] is a function, its [MEDIUM] is [undefined], and
    no container has been set. *)
Definition heat_one_minute : Action :=
  {| action_type := "heat"; ingredient := None; container := None;
     temperature := None;
     duration := Some {| value_of := Finite 1; unit_of := "minutes" |} |}.

Definition step2 : RecipeStep := with_actions [heat_one_minute].

(** [new RecipeStep().add(cookie).to(tazza)] *)
Definition step3 : RecipeStep :=
  with_actions
    [ {| action_type := "add"; ingredient := Some cookie;
         container := Some tazza; temperature := None; duration := None |} ].

Definition spoon : Entity :=
  {| ent_type := "tool"; name := "Spoon"; amount := None; ent_unit := None |}.

(** [new Recipe(name, { ingredients, tools, steps, servings, difficulty,
    estimatedTime, tags })] with the options of the two example files. *)
Definition example_recipe (name : string) (steps : list RecipeStep) : Recipe :=
  {| recipe_name := name; ingredients := [latte; espresso; sugar];
     tools := [spoon]; appliances := []; steps := steps;
     servings := Finite 1; difficulty := "very easy";
     estimatedTime := Some {| value_of := Finite 3; unit_of := "minutes" |};
     miseEnPlace := []; servingSuggestions := []; substitutions := [];
     tags := ["beverage"; "Italian"; "breakfast"]; hash := None |}.

Definition latteCaffe : Recipe := example_recipe "Latte Caffe" [step1; step2].

Definition latteBiscotti : Recipe :=
  example_recipe "Latte Biscotti" [step1; step2; step3].

(** [step2] with the heat set to [Temperature(3, 'level')]. *)
Definition medium : Measurement :=
  {| value_of := Finite 3; unit_of := "level" |}.

Definition step2_medium : RecipeStep :=
  with_actions [with_temperature heat_one_minute medium].

Definition latteCaffe_medium : Recipe :=
  example_recipe "Latte Caffe" [step1; step2_medium].

(** A store with the two recipes, at references 0 and 1. *)
Definition kitchen : store :=
  <[1%nat := latteBiscotti]> {[0%nat := latteCaffe]}.

(** A store with one recipe that has no ingredient and no step. *)
Definition empty_recipe : Recipe := Recipe_new "x" [] [] [].
Definition pantry : store := {[0%nat := empty_recipe]}.

End Examples.

(** * Hexadecimal text and buffers *)

Example toString16_examples :
  map toString16 [0; 9; 10; 16; 255; 256; 4096]
  = ["0"; "9"; "a"; "10"; "ff"; "100"; "1000"].
Proof. reflexivity. Qed.

Example Number_toString_examples :
  map Number_toString
    [Finite 0; Finite 7; Finite 350; Finite (-12); Finite (3 # 2);
     Finite (1 # 10); Finite (1 # 3); binary64 (num_of_Z (2 ^ 64));
     binary64 (num_of_Z (10 ^ 21)); Finite (1 # 10 ^ 7); NaN; Infinity true]
  = ["0"; "7"; "350"; "-12"; "1.5"; "0.1"; "0.3333333333333333";
     "18446744073709552000"; "1e+21"; "1e-7"; "NaN"; "-Infinity"].
Proof. vm_compute. reflexivity. Qed.

Example Buffer_from_hex_examples :
  Buffer_from_hex "00ff10" = ["000"; "255"; "016"]%char
  /\ Buffer_from_hex "100" = ["016"]%char
  /\ Buffer_toString_hex ["000"; "255"; "016"]%char = "00ff10".
Proof. repeat split. Qed.

Lemma forallb_below (P : Z -> bool) (n : nat) :
  forallb P (map Z.of_nat (seq 0 n)) = true ->
  forall z, 0 <= z < Z.of_nat n -> P z = true.
Proof.
  intros Hall z Hz.
  rewrite forallb_forall in Hall. apply Hall.
  apply in_map_iff. exists (Z.to_nat z). split; [lia|].
  apply in_seq. lia.
Qed.

Lemma Z_of_byte_range (b : byte) : 0 <= Z_of_byte b < 256.
Proof.
  unfold Z_of_byte. pose proof (N_ascii_bounded b). lia.
Qed.

Lemma byte_of_Z_of_byte (b : byte) : byte_of_Z (Z_of_byte b) = b.
Proof.
  unfold byte_of_Z. pose proof (Z_of_byte_range b) as Hb.
  rewrite Z.mod_small by lia. unfold Z_of_byte.
  rewrite N2Z.id. apply ascii_N_embedding.
Qed.

Lemma Z_of_byte_of_Z (z : Z) : 0 <= z < 256 -> Z_of_byte (byte_of_Z z) = z.
Proof.
  intros Hz. unfold Z_of_byte, byte_of_Z.
  rewrite Z.mod_small by lia.
  rewrite N_ascii_embedding; [apply Z2N.id; lia|].
  change 256%N with (Z.to_N 256). apply Z2N.inj_lt; lia.
Qed.

Lemma hexval_hexdigit (d : Z) : 0 <= d < 16 -> hexval (hexdigit d) = Some d.
Proof.
  intros Hd.
  apply (forallb_below
           (fun d => match hexval (hexdigit d) with
                     | Some d' => d' =? d
                     | None => false
                     end) 16) in Hd; [|reflexivity].
  destruct (hexval (hexdigit d)) as [d'|]; [|discriminate].
  apply Z.eqb_eq in Hd. now subst.
Qed.

Lemma byte_digits (x : Z) :
  0 <= x < 256 -> 0 <= x / 16 < 16 /\ 0 <= x mod 16 < 16 /\ 16 * (x / 16) + x mod 16 = x.
Proof. intros Hx. Z.div_mod_to_equations. lia. Qed.

Lemma Buffer_from_hex_toString (buf : list byte) :
  Buffer_from_hex (Buffer_toString_hex buf) = buf.
Proof.
  induction buf as [|b buf IH]; [reflexivity|].
  cbn [Buffer_toString_hex Buffer_from_hex].
  destruct (byte_digits (Z_of_byte b) (Z_of_byte_range b)) as (Hh & Hl & Hsum).
  rewrite !hexval_hexdigit by assumption.
  rewrite Hsum, byte_of_Z_of_byte, IH. reflexivity.
Qed.

Lemma length_Buffer_toString_hex (buf : list byte) :
  String.length (Buffer_toString_hex buf) = (2 * length buf)%nat.
Proof.
  induction buf as [|b buf IH]; [reflexivity|].
  cbn [Buffer_toString_hex String.length length]. rewrite IH. lia.
Qed.

Lemma substr_pair_skip (a b : ascii) (s : string) (k : nat) :
  substr (String a (String b s)) (2 * S k) 2 = substr s (2 * k) 2.
Proof.
  unfold substr. replace (2 * S k)%nat with (S (S (2 * k))) by lia.
  reflexivity.
Qed.

Lemma count_at_hex (buf : list byte) (k : nat) (b : byte) :
  buf !! k = Some b ->
  count_at (Buffer_toString_hex buf) (2 * k) = num_of_Z (Z_of_byte b).
Proof.
  revert k. induction buf as [|x buf IH]; intros k Hk; [discriminate|].
  destruct k as [|k].
  - injection Hk as ->. unfold count_at.
    cbn [Buffer_toString_hex]. change (2 * 0)%nat with 0%nat.
    destruct (Buffer_toString_hex buf);
      cbn [substr substring parseInt16 parse_hex_prefix];
      destruct (byte_digits (Z_of_byte b) (Z_of_byte_range b)) as (Hh & Hl & Hsum);
      rewrite !hexval_hexdigit by assumption;
      cbn [default]; unfold id; f_equal; lia.
  - cbn [Buffer_toString_hex]. unfold count_at in *.
    rewrite substr_pair_skip. apply IH. exact Hk.
Qed.

Lemma count_at_hex_counters (buf : list byte) (k : nat) (c : Z) :
  counters buf !! k = Some c ->
  count_at (Buffer_toString_hex buf) (2 * k) = num_of_Z c.
Proof.
  unfold counters. rewrite list_lookup_fmap.
  destruct (buf !! k) as [b|] eqn:Hb; [|discriminate].
  intros [= <-]. now apply count_at_hex.
Qed.

Lemma counts_of_hex_toString (buf : list byte) :
  counts_of_hex (Buffer_toString_hex buf) = map num_of_Z (counters buf).
Proof.
  unfold counts_of_hex.
  rewrite length_Buffer_toString_hex, Nat.div2_succ_double.
  apply list_eq. intros k.
  rewrite !list_lookup_fmap.
  destruct (decide (k < length buf)%nat) as [Hk|Hk].
  - rewrite lookup_seq_lt by assumption. cbn [fmap option_fmap option_map].
    destruct (lookup_lt_is_Some_2 buf k Hk) as [b Hb].
    change (0 + k)%nat with k. rewrite (count_at_hex buf k b Hb).
    unfold counters. rewrite list_lookup_fmap, Hb. reflexivity.
  - rewrite lookup_seq_ge by lia.
    unfold counters. rewrite list_lookup_fmap.
    rewrite (lookup_ge_None_2 buf k) by lia. reflexivity.
Qed.

(** * Rounding to binary64 *)

Section Rounding.
Local Open Scope Q_scope.


Lemma pow2_pos (e : Z) : 0 < pow2 e.
Proof. apply Qpower_0_lt. reflexivity. Qed.

Lemma pow2_add (a b : Z) : pow2 (a + b) == pow2 a * pow2 b.
Proof. apply Qpower_plus. discriminate. Qed.

Lemma pow2_sub (a b : Z) : pow2 (a - b) == pow2 a / pow2 b.
Proof. apply Qpower_minus. discriminate. Qed.

Lemma pow2_lt (a b : Z) : (a < b)%Z -> pow2 a < pow2 b.
Proof. intros H. apply Qpower_lt_compat_l; [exact H|reflexivity]. Qed.

Lemma pow2_le (a b : Z) : (a <= b)%Z -> pow2 a <= pow2 b.
Proof. intros H. apply Qpower_le_compat_l; [exact H|discriminate]. Qed.

Lemma pow2_lt_inv (a b : Z) : pow2 a < pow2 b -> (a < b)%Z.
Proof. intros H. apply (Qpower_lt_compat_l_inv 2); [exact H|reflexivity]. Qed.

Lemma pow2_Z (a : Z) : (0 <= a)%Z -> pow2 a == inject_Z (2 ^ a).
Proof. intros H. unfold pow2. now rewrite Zpower_Qpower. Qed.

Lemma Qfloor_unique (x : Q) (z : Z) :
  inject_Z z <= x -> x < inject_Z (z + 1) -> Qfloor x = z.
Proof.
  intros Hle Hlt.
  pose proof (Qfloor_le x) as H1. pose proof (Qlt_floor x) as H2.
  assert (inject_Z z < inject_Z (Qfloor x + 1)) as H3 by lra.
  assert (inject_Z (Qfloor x) < inject_Z (z + 1)) as H4 by lra.
  rewrite <- Zlt_Qlt in H3, H4. lia.
Qed.

Lemma round_half_even_comp (x y : Q) :
  x == y -> round_half_even x = round_half_even y.
Proof.
  intros H. unfold round_half_even.
  rewrite (Qfloor_comp x y H).
  assert ((x - inject_Z (Qfloor y) ?= 1 # 2) = (y - inject_Z (Qfloor y) ?= 1 # 2))
    as -> by (apply Qcompare_comp; [now rewrite H|reflexivity]).
  reflexivity.
Qed.

Lemma round_half_even_cases (x : Q) :
  let f := Qfloor x in
  (round_half_even x = f /\ x - inject_Z f <= 1 # 2)
  \/ (round_half_even x = (f + 1)%Z /\ 1 # 2 <= x - inject_Z f).
Proof.
  intros f. unfold round_half_even. fold f.
  destruct (Qcompare_spec (x - inject_Z f) (1 # 2)) as [H|H|H].
  - destruct (Z.even f); [left|right]; split; auto; rewrite H; apply Qle_refl.
  - left. split; [reflexivity|]. now apply Qlt_le_weak.
  - right. split; [reflexivity|]. now apply Qlt_le_weak.
Qed.

Lemma round_half_even_Z (z : Z) : round_half_even (inject_Z z) = z.
Proof.
  unfold round_half_even. rewrite Qfloor_Z.
  destruct (Qcompare_spec (inject_Z z - inject_Z z) (1 # 2)) as [H|H|H];
    try reflexivity; exfalso; lra.
Qed.

Lemma round_half_even_mono (x y : Q) :
  x <= y -> (round_half_even x <= round_half_even y)%Z.
Proof.
  intros Hxy. pose proof (Qfloor_resp_le x y Hxy) as Hf.
  destruct (Z.eq_dec (Qfloor x) (Qfloor y)) as [E|E].
  - unfold round_half_even. rewrite E.
    destruct (Qcompare_spec (x - inject_Z (Qfloor y)) (1 # 2)) as [Hx|Hx|Hx];
      destruct (Qcompare_spec (y - inject_Z (Qfloor y)) (1 # 2)) as [Hy|Hy|Hy];
      try lia; try (exfalso; lra); destruct (Z.even (Qfloor y)); lia.
  - destruct (round_half_even_cases x) as [[-> _]|[-> _]];
      destruct (round_half_even_cases y) as [[-> _]|[-> _]]; lia.
Qed.

Lemma round_half_even_opp (x : Q) :
  round_half_even (- x) = (- round_half_even x)%Z.
Proof.
  pose proof (Qfloor_le x) as H1. pose proof (Qlt_floor x) as H2.
  rewrite inject_Z_plus in H2. change (inject_Z 1) with 1 in H2.
  destruct (Qeq_dec x (inject_Z (Qfloor x))) as [E|E].
  - rewrite (round_half_even_comp x _ E), round_half_even_Z.
    rewrite (round_half_even_comp (- x) (inject_Z (- Qfloor x))).
    + apply round_half_even_Z.
    + rewrite inject_Z_opp. now rewrite <- E.
  - assert (Qfloor (- x) = (- Qfloor x - 1)%Z) as Hf.
    { apply Qfloor_unique.
      - unfold Z.sub. rewrite inject_Z_plus, inject_Z_opp.
        change (inject_Z (- (1))) with (- (1)). lra.
      - replace (- Qfloor x - 1 + 1)%Z with (- Qfloor x)%Z by lia.
        rewrite inject_Z_opp.
        assert (inject_Z (Qfloor x) < x) by (apply Qle_lteq in H1 as [?|?]; [assumption|now contradiction E]; symmetry).
        lra. }
    unfold round_half_even. rewrite Hf.
    assert (- x - inject_Z (- Qfloor x - 1) == 1 - (x - inject_Z (Qfloor x))) as Hfrac.
    { unfold Z.sub. rewrite inject_Z_plus, inject_Z_opp.
      change (inject_Z (- (1))) with (- (1)). ring. }
    destruct (Qcompare_spec (x - inject_Z (Qfloor x)) (1 # 2)) as [Hx|Hx|Hx];
      destruct (Qcompare_spec (- x - inject_Z (- Qfloor x - 1)) (1 # 2)) as [Hy|Hy|Hy];
      try (exfalso; rewrite Hfrac in Hy; lra); try lia.
    replace (- Qfloor x - 1)%Z with (- (Qfloor x + 1))%Z by lia.
    rewrite Z.even_opp, Z.even_add. change (Z.even 1) with false.
    destruct (Z.even (Qfloor x)); cbn; lia.
Qed.

Lemma Q_as_fraction (x : Q) :
  x == inject_Z (Qnum x) / inject_Z (Zpos (Qden x)).
Proof.
  destruct x as [n d]. cbn [Qnum Qden].
  rewrite Qmake_Qdiv. reflexivity.
Qed.

Lemma exponent_spec (x : Q) :
  0 < x -> pow2 (exponent x) <= x /\ x < pow2 (exponent x + 1).
Proof.
  intros Hx. unfold exponent.
  set (a := Z.log2 (Qnum x)). set (b := Z.log2 (Zpos (Qden x))).
  assert (0 < Qnum x)%Z as Hn by (destruct x as [n d]; unfold Qlt in Hx; cbn in *; lia).
  destruct (Z.log2_spec (Qnum x) Hn) as [Ha1 Ha2]. fold a in Ha1, Ha2.
  destruct (Z.log2_spec (Zpos (Qden x)) eq_refl) as [Hb1 Hb2].
  fold b in Hb1, Hb2.
  assert (0 <= a)%Z as Ha0 by apply Z.log2_nonneg.
  assert (0 <= b)%Z as Hb0 by apply Z.log2_nonneg.
  rewrite Zle_Qle in Ha1, Hb1. rewrite Zlt_Qlt in Ha2, Hb2.
  rewrite <- pow2_Z in Ha1, Ha2, Hb1, Hb2 by lia.
  replace (Z.succ a) with (a + 1)%Z in Ha2 by lia.
  replace (Z.succ b) with (b + 1)%Z in Hb2 by lia.
  rewrite pow2_add in Ha2, Hb2. change (pow2 1) with 2 in Ha2, Hb2.
  pose proof (pow2_pos a) as Pa. pose proof (pow2_pos b) as Pb.
  pose proof (Q_as_fraction x) as Hfrac.
  set (N := inject_Z (Qnum x)) in *. set (D := inject_Z (Z.pos (Qden x))) in *.
  assert (0 < D) as HD by lra.
  assert (x * D == N) as Hmul by (rewrite Hfrac; field; lra).
  assert (pow2 (a - b) * pow2 b == pow2 a) as Hab
    by (rewrite <- pow2_add; now replace (a - b + b)%Z with a by lia).
  assert (x < pow2 (a - b + 1)) as Hup.
  { rewrite pow2_add. change (pow2 1) with 2.
    set (E := pow2 (a - b)) in *.
    assert (0 < E) by apply pow2_pos. nra. }
  assert (pow2 (a - b - 1) < x) as Hlow.
  { assert (pow2 (a - b - 1) * 2 == pow2 (a - b)) as Hhalf.
    { change 2 with (pow2 1). rewrite <- pow2_add.
      now replace (a - b - 1 + 1)%Z with (a - b)%Z by lia. }
    set (E := pow2 (a - b)) in *. set (F := pow2 (a - b - 1)) in *.
    assert (0 < E) by apply pow2_pos. assert (0 < F) by apply pow2_pos.
    nra. }
  destruct (Qle_bool (pow2 (a - b)) x) eqn:Hle.
  - apply Qle_bool_iff in Hle. split; assumption.
  - assert (x < pow2 (a - b)) as Hlt.
    { apply Qnot_le_lt. intros H. apply Qle_bool_iff in H. congruence. }
    replace (a - b - 1 + 1)%Z with (a - b)%Z by lia. split; [|exact Hlt].
    now apply Qlt_le_weak.
Qed.

Lemma exponent_unique (x : Q) (e : Z) :
  pow2 e <= x -> x < pow2 (e + 1) -> exponent x = e.
Proof.
  intros H1 H2.
  assert (0 < x) as Hx by (pose proof (pow2_pos e); lra).
  destruct (exponent_spec x Hx) as [H3 H4].
  assert (pow2 e < pow2 (exponent x + 1)) as H5 by lra.
  assert (pow2 (exponent x) < pow2 (e + 1)) as H6 by lra.
  apply pow2_lt_inv in H5, H6. lia.
Qed.

Lemma exponent_comp (x y : Q) : 0 < x -> x == y -> exponent x = exponent y.
Proof.
  intros Hx Hxy. symmetry. destruct (exponent_spec x Hx) as [H1 H2].
  apply exponent_unique; rewrite <- Hxy; assumption.
Qed.

Lemma exponent_mono (x y : Q) :
  0 < x -> x <= y -> (exponent x <= exponent y)%Z.
Proof.
  intros Hx Hxy.
  destruct (exponent_spec x Hx) as [H1 _].
  destruct (exponent_spec y) as [_ H2]; [lra|].
  assert (pow2 (exponent x) < pow2 (exponent y + 1)) as H by lra.
  apply pow2_lt_inv in H. lia.
Qed.


Lemma round64_nonzero (x : Q) :
  ~ x == 0 ->
  round64 x
  == inject_Z (round_half_even (x / pow2 (quantum x))) * pow2 (quantum x).
Proof.
  intros Hx. unfold round64.
  destruct (Qeq_bool x 0) eqn:E.
  - apply Qeq_bool_eq in E. contradiction.
  - apply Qred_correct.
Qed.

Lemma round64_zero (x : Q) : x == 0 -> round64 x == 0.
Proof.
  intros Hx. unfold round64.
  now rewrite (proj2 (Qeq_bool_iff x 0) Hx).
Qed.

Lemma Qabs_pos_nonzero (x : Q) : ~ x == 0 -> 0 < Qabs x.
Proof.
  intros Hx. apply Qabs_case; intros H.
  - destruct (proj1 (Qle_lteq 0 x) H) as [Hlt|E]; [exact Hlt|].
    exfalso. apply Hx. now symmetry.
  - destruct (proj1 (Qle_lteq x 0) H) as [Hlt|E]; [lra|contradiction].
Qed.

Lemma quantum_comp (x y : Q) : ~ x == 0 -> x == y -> quantum x = quantum y.
Proof.
  intros Hx Hxy. unfold quantum.
  rewrite (exponent_comp (Qabs x) (Qabs y)); [reflexivity| |now rewrite Hxy].
  now apply Qabs_pos_nonzero.
Qed.

#[export] Instance round64_comp : Proper (Qeq ==> Qeq) round64.
Proof.
  intros x y Hxy. destruct (Qeq_dec x 0) as [Hx|Hx].
  - rewrite (round64_zero x Hx), (round64_zero y); [reflexivity|].
    now rewrite <- Hxy.
  - assert (~ y == 0) as Hy by now rewrite <- Hxy.
    rewrite (round64_nonzero x Hx), (round64_nonzero y Hy).
    rewrite (quantum_comp x y Hx Hxy).
    rewrite (round_half_even_comp (x / pow2 (quantum y)) (y / pow2 (quantum y)));
      [reflexivity|now rewrite Hxy].
Qed.

Lemma round64_exact (m k : Z) :
  (Z.abs m < 2 ^ 53)%Z -> (-1074 <= k)%Z ->
  round64 (inject_Z m * pow2 k) == inject_Z m * pow2 k.
Proof.
  intros Hm Hk. set (x := inject_Z m * pow2 k).
  pose proof (pow2_pos k) as Pk.
  destruct (Z.eq_dec m 0%Z) as [->|Hm0].
  - assert (x == 0) as Hx by (unfold x; change (inject_Z 0) with 0; ring).
    now rewrite (round64_zero x Hx), Hx.
  - assert (~ x == 0) as Hx.
    { unfold x. intros H. apply Qmult_integral in H as [H|H]; [|lra].
      apply Hm0. change 0 with (inject_Z 0) in H.
      now rewrite inject_Z_injective in H. }
    rewrite (round64_nonzero x Hx).
    assert (Qabs x == inject_Z (Z.abs m) * pow2 k) as Habs.
    { unfold x. rewrite Qabs_Qmult, (Qabs_pos (pow2 k)) by lra.
      reflexivity. }
    destruct (exponent_spec (Qabs x) (Qabs_pos_nonzero x Hx)) as [He _].
    assert (quantum x <= k)%Z as Hq.
    { unfold quantum. set (e := exponent (Qabs x)) in *.
      assert (pow2 e < pow2 (53 + k)) as Hlt.
      { rewrite pow2_add, (pow2_Z 53) by lia. rewrite Zlt_Qlt in Hm.
        rewrite Habs in He.
        set (A := inject_Z (Z.abs m)) in *. set (B := inject_Z (2 ^ 53)) in *.
        nra. }
      apply pow2_lt_inv in Hlt. lia. }
    set (q := quantum x) in *.
    assert (x / pow2 q == inject_Z (m * 2 ^ (k - q))) as Hdiv.
    { rewrite inject_Z_mult, <- pow2_Z by lia. rewrite pow2_sub.
      unfold x. pose proof (pow2_pos q). field. lra. }
    rewrite (round_half_even_comp _ _ Hdiv), round_half_even_Z.
    rewrite inject_Z_mult, <- pow2_Z by lia. rewrite pow2_sub.
    unfold x. pose proof (pow2_pos q). field. lra.
Qed.

Lemma round64_Z (z : Z) :
  (Z.abs z < 2 ^ 53)%Z -> round64 (inject_Z z) == inject_Z z.
Proof.
  intros Hz. pose proof (round64_exact z 0 Hz) as H.
  change (pow2 0) with 1 in H. rewrite Qmult_1_r in H. apply H. lia.
Qed.

Lemma round64_dyadic (z p : Z) :
  (Z.abs z < 2 ^ 53)%Z -> (0 <= p <= 1074)%Z ->
  round64 (inject_Z z / inject_Z (2 ^ p)) == inject_Z z / inject_Z (2 ^ p).
Proof.
  intros Hz Hp.
  assert (inject_Z z / inject_Z (2 ^ p) == inject_Z z * pow2 (- p)) as E.
  { rewrite <- pow2_Z by lia. unfold pow2 at 2. rewrite Qpower_opp.
    reflexivity. }
  rewrite E. apply round64_exact; [exact Hz|lia].
Qed.

Lemma quantum_opp (x : Q) : ~ x == 0 -> quantum (- x) = quantum x.
Proof.
  intros Hx. unfold quantum.
  rewrite (exponent_comp (Qabs (- x)) (Qabs x)); [reflexivity| |].
  - apply Qabs_pos_nonzero. intros H. apply Hx. lra.
  - apply Qabs_opp.
Qed.

Lemma round64_opp (x : Q) : round64 (- x) == - round64 x.
Proof.
  destruct (Qeq_dec x 0) as [Hx|Hx].
  - rewrite (round64_zero x Hx), (round64_zero (- x)); lra.
  - assert (~ - x == 0) as Hx' by (intros H; apply Hx; lra).
    rewrite (round64_nonzero x Hx), (round64_nonzero _ Hx'), quantum_opp by exact Hx.
    pose proof (pow2_pos (quantum x)) as P.
    rewrite (round_half_even_comp (- x / pow2 (quantum x))
               (- (x / pow2 (quantum x)))) by (field; lra).
    rewrite round_half_even_opp, inject_Z_opp. ring.
Qed.

Lemma round64_nonneg (x : Q) : 0 <= x -> 0 <= round64 x.
Proof.
  intros H. destruct (Qeq_dec x 0) as [Hx|Hx].
  - rewrite (round64_zero x Hx). apply Qle_refl.
  - rewrite (round64_nonzero x Hx).
    pose proof (pow2_pos (quantum x)) as P.
    assert (0 <= x / pow2 (quantum x)) as Hm.
    { apply Qle_shift_div_l; lra. }
    apply round_half_even_mono in Hm.
    change 0 with (inject_Z 0) in Hm at 1. rewrite round_half_even_Z in Hm.
    rewrite Zle_Qle in Hm. change (inject_Z 0) with 0 in Hm. nra.
Qed.

Lemma round64_upper (x : Q) :
  0 < x -> round64 x <= pow2 (exponent (Qabs x) + 1).
Proof.
  intros Hx. assert (~ x == 0) as Hx0 by lra.
  rewrite (round64_nonzero x Hx0).
  set (e := exponent (Qabs x)). set (q := quantum x).
  pose proof (pow2_pos q) as Pq.
  destruct (exponent_spec (Qabs x) (Qabs_pos_nonzero x Hx0)) as [_ He].
  fold e in He. rewrite Qabs_pos in He by lra.
  assert (x / pow2 q < pow2 (e + 1 - q)) as Hm.
  { rewrite pow2_sub. apply Qlt_shift_div_l; [exact Pq|].
    field_simplify; [|lra]. field_simplify in He. lra. }
  destruct (Z_le_gt_dec 0 (e + 1 - q)) as [Ht|Ht].
  - rewrite (pow2_Z (e + 1 - q)) in Hm by exact Ht. apply Qlt_le_weak in Hm.
    apply round_half_even_mono in Hm. rewrite round_half_even_Z in Hm.
    rewrite Zle_Qle, <- (pow2_Z (e + 1 - q)) in Hm by exact Ht.
    assert (pow2 (e + 1 - q) * pow2 q == pow2 (e + 1)) as E
      by (rewrite <- pow2_add; now replace (e + 1 - q + q)%Z with (e + 1)%Z by lia).
    rewrite <- E. nra.
  - assert (pow2 (e + 1 - q) <= 1 # 2) as Hhalf.
    { change (1 # 2) with (pow2 (-1)). apply pow2_le. lia. }
    assert (x / pow2 q <= 1 # 2) as Hle by lra.
    apply round_half_even_mono in Hle.
    change (round_half_even (1 # 2)) with 0%Z in Hle.
    rewrite Zle_Qle in Hle. change (inject_Z 0) with 0 in Hle.
    pose proof (pow2_pos (e + 1)). nra.
Qed.

Lemma round64_lower (x : Q) :
  0 < x -> (-1074 <= exponent (Qabs x) - 52)%Z ->
  pow2 (exponent (Qabs x)) <= round64 x.
Proof.
  intros Hx Hn. assert (~ x == 0) as Hx0 by lra.
  rewrite (round64_nonzero x Hx0).
  set (e := exponent (Qabs x)) in *.
  assert (quantum x = e - 52)%Z as -> by (unfold quantum; fold e; lia).
  pose proof (pow2_pos (e - 52)) as Pq.
  destruct (exponent_spec (Qabs x) (Qabs_pos_nonzero x Hx0)) as [He _].
  fold e in He. rewrite Qabs_pos in He by lra.
  assert (pow2 (e - 52) * pow2 52 == pow2 e) as E
    by (rewrite <- pow2_add; now replace (e - 52 + 52)%Z with e by lia).
  assert (inject_Z (2 ^ 52) <= x / pow2 (e - 52)) as Hm.
  { rewrite <- (pow2_Z 52) by lia. apply Qle_shift_div_l; [exact Pq|]. lra. }
  apply round_half_even_mono in Hm. rewrite round_half_even_Z in Hm.
  rewrite Zle_Qle, <- (pow2_Z 52) in Hm by lia.
  rewrite <- E. nra.
Qed.

Lemma round64_mono_pos (x y : Q) :
  0 < x -> x <= y -> round64 x <= round64 y.
Proof.
  intros Hx Hxy. assert (0 < y) as Hy by lra.
  assert (~ x == 0) as Hx0 by lra. assert (~ y == 0) as Hy0 by lra.
  assert (exponent (Qabs x) <= exponent (Qabs y))%Z as He.
  { apply exponent_mono; [now apply Qabs_pos_nonzero|].
    rewrite !Qabs_pos by lra. exact Hxy. }
  destruct (Z.eq_dec (quantum x) (quantum y)) as [Hq|Hq].
  - rewrite (round64_nonzero x Hx0), (round64_nonzero y Hy0), Hq.
    pose proof (pow2_pos (quantum y)) as P.
    assert (x / pow2 (quantum y) <= y / pow2 (quantum y)) as Hm.
    { apply Qle_shift_div_l; [exact P|]. field_simplify; lra. }
    apply round_half_even_mono in Hm. rewrite Zle_Qle in Hm. nra.
  - assert (quantum x < quantum y)%Z as Hlt by (unfold quantum in *; lia).
    assert (-1074 <= exponent (Qabs y) - 52)%Z as Hn
      by (unfold quantum in *; lia).
    assert (exponent (Qabs x) + 1 <= exponent (Qabs y))%Z as Hstep
      by (unfold quantum in *; lia).
    eapply Qle_trans; [apply (round64_upper x Hx)|].
    eapply Qle_trans; [apply (pow2_le _ _ Hstep)|].
    now apply round64_lower.
Qed.

(** Rounding to binary64 never reverses an order. *)
Lemma round64_mono (x y : Q) : x <= y -> round64 x <= round64 y.
Proof.
  intros Hxy.
  destruct (Qlt_le_dec 0 x) as [Hx|Hx].
  - now apply round64_mono_pos.
  - destruct (Qlt_le_dec y 0) as [Hy|Hy].
    + assert (round64 (- y) <= round64 (- x)) as H
        by (apply round64_mono_pos; lra).
      rewrite !round64_opp in H. lra.
    + pose proof (round64_nonneg y Hy) as H1.
      assert (0 <= round64 (- x)) as H2 by (apply round64_nonneg; lra).
      rewrite round64_opp in H2. lra.
Qed.

Lemma round64_pow2 (k : Z) : (-1074 <= k)%Z -> round64 (pow2 k) == pow2 k.
Proof.
  intros Hk. pose proof (round64_exact 1 k eq_refl Hk) as H.
  change (inject_Z 1) with 1 in H. now rewrite !Qmult_1_l in H.
Qed.

(** Below [2^1023] in absolute value there is no overflow. *)
Lemma binary64_finite (x : Q) :
  Qabs x <= pow2 1023 -> binary64 (Finite x) = Finite (round64 x).
Proof.
  intros Hx. cbn [binary64].
  assert (Qabs (round64 x) <= pow2 1023) as Hr.
  { apply Qabs_Qle_condition. apply Qabs_Qle_condition in Hx as [H1 H2].
    apply round64_mono in H1, H2.
    rewrite round64_opp in H1. rewrite (round64_pow2 1023) in H1, H2 by lia.
    split; assumption. }
  destruct (Qle_bool (pow2 1024) (Qabs (round64 x))) eqn:E; [|reflexivity].
  apply Qle_bool_iff in E. pose proof (pow2_lt 1023 1024 eq_refl). lra.
Qed.

End Rounding.

Lemma Qabs_inject_sub (x y : Z) :
  Qabs (inject_Z x - inject_Z y) == inject_Z (Z.abs (x - y)).
Proof.
  unfold Qeq, Qabs, inject_Z, Qminus, Qplus, Qopp. cbn [Qnum Qden].
  f_equal. lia.
Qed.

Lemma total_distance_drop (a b : list Z) (k : nat) (x y : Z) :
  a !! k = Some x -> b !! k = Some y ->
  total_distance (drop k a) (drop k b)
  = Z.abs (x - y) + total_distance (drop (S k) a) (drop (S k) b).
Proof.
  intros Ha Hb.
  rewrite (drop_S a x k Ha), (drop_S b y k Hb). reflexivity.
Qed.

Lemma total_distance_nonneg (a b : list Z) : 0 <= total_distance a b.
Proof.
  revert b. induction a as [|x a IH]; intros [|y b]; cbn [total_distance];
    try lia.
  specialize (IH b). lia.
Qed.

Lemma total_distance_counters_le (a b : list byte) :
  total_distance (counters a) (counters b) <= 255 * Z.of_nat (length a).
Proof.
  unfold counters. revert b.
  induction a as [|x a IH]; intros [|y b]; cbn [map total_distance length];
    try lia.
  specialize (IH b).
  pose proof (Z_of_byte_range x). pose proof (Z_of_byte_range y). lia.
Qed.

(** The similarity over a positive number of buckets, as one fraction. *)
Lemma similarity_fraction (d : Z) (p : positive) :
  similarity d (Zpos p) == (16 * Zpos p - d) # (16 * p).
Proof.
  unfold similarity, Qeq, Qminus, Qplus, Qopp, Qdiv, Qmult, Qinv, inject_Z.
  cbn [Qnum Qden]. change (16 * Z.pos p) with (Z.pos (16 * p)).
  cbn [Qnum Qden]. lia.
Qed.

Lemma similarity_le (d1 d2 n : Z) :
  0 < n -> (similarity d1 n <= similarity d2 n)%Q <-> d2 <= d1.
Proof.
  destruct n as [|p|p]; try lia. intros _.
  rewrite !similarity_fraction. unfold Qle. cbn [Qnum Qden]. nia.
Qed.


Section BinarySimilarity.
Local Open Scope Q_scope.

Lemma binary64_similarity_le (d1 d2 n : Z) :
  (0 < n)%Z -> (d2 <= d1)%Z ->
  binary64_similarity d1 n <= binary64_similarity d2 n.
Proof.
  intros Hn Hd. unfold binary64_similarity. apply round64_mono.
  assert (round64 (inject_Z d2 / (16 * inject_Z n))
          <= round64 (inject_Z d1 / (16 * inject_Z n))) as H; [|lra].
  apply round64_mono. rewrite Zlt_Qlt in Hn. rewrite Zle_Qle in Hd.
  change (inject_Z 0) with 0 in Hn.
  apply Qle_shift_div_l; [lra|]. field_simplify; lra.
Qed.

Lemma binary64_similarity_0 (n : Z) : binary64_similarity 0 n == 1.
Proof.
  unfold binary64_similarity.
  assert (inject_Z 0 / (16 * inject_Z n) == 0) as ->
    by (unfold Qdiv; change (inject_Z 0) with 0; ring).
  rewrite (round64_zero 0) by reflexivity.
  assert (1 - 0 == inject_Z 1) as -> by (change (inject_Z 1) with 1; ring).
  now rewrite round64_Z.
Qed.

(** Over a power of two of buckets, as over the 256 of [compareTo], neither
    operation rounds. *)
Lemma binary64_similarity_exact (d n k : Z) :
  n = (2 ^ k)%Z -> (0 <= k <= 1000)%Z ->
  (Z.abs d < 2 ^ 53)%Z -> (Z.abs (16 * n - d) < 2 ^ 53)%Z ->
  binary64_similarity d n == similarity d n.
Proof.
  intros -> Hk Hd Hnd. unfold binary64_similarity, similarity.
  assert (16 * inject_Z (2 ^ k) == inject_Z (2 ^ (k + 4))) as E.
  { rewrite Z.pow_add_r by lia. rewrite inject_Z_mult.
    change (inject_Z (2 ^ 4)) with 16. ring. }
  assert (0 < inject_Z (2 ^ (k + 4))) as Hpos.
  { rewrite <- pow2_Z by lia. apply pow2_pos. }
  rewrite E, (round64_dyadic d (k + 4)) by lia.
  assert (1 - inject_Z d / inject_Z (2 ^ (k + 4))
          == inject_Z (16 * 2 ^ k - d) / inject_Z (2 ^ (k + 4))) as ->.
  { unfold Z.sub. rewrite inject_Z_plus, inject_Z_opp, inject_Z_mult.
    change (inject_Z 16) with 16. rewrite E. field. lra. }
  apply round64_dyadic; [exact Hnd|lia].
Qed.

Lemma binary64_similarity_floor (n : Z) :
  (0 < n)%Z -> binary64_similarity (255 * n) n == - (239 # 16).
Proof.
  intros Hn. unfold binary64_similarity.
  rewrite Zlt_Qlt in Hn. change (inject_Z 0) with 0 in Hn.
  assert (inject_Z (255 * n) / (16 * inject_Z n)
          == inject_Z 255 / inject_Z (2 ^ 4)) as ->.
  { rewrite inject_Z_mult. change (inject_Z (2 ^ 4)) with 16.
    change (inject_Z 255) with 255. field. lra. }
  rewrite (round64_dyadic 255 4) by (cbn; lia).
  assert (1 - inject_Z 255 / inject_Z (2 ^ 4)
          == inject_Z (-239) / inject_Z (2 ^ 4)) as ->
    by reflexivity.
  rewrite (round64_dyadic (-239) 4) by (cbn; lia). reflexivity.
Qed.

(** Over [2^50] counters a distance of 1 is lost in the rounding of the
    difference. *)
Example binary64_similarity_absorbed : binary64_similarity 1 (2 ^ 50) == 1.
Proof. vm_compute. reflexivity. Qed.

(** With at most [2^32] counters, a byte that differs pulls the score
    below 1. *)
Lemma binary64_similarity_lt_1 (d n : Z) :
  (0 < n <= 2 ^ 32)%Z -> (0 < d)%Z -> binary64_similarity d n < 1.
Proof.
  intros [Hn Hmax] Hd. unfold binary64_similarity.
  assert (inject_Z 1 / inject_Z (2 ^ 36) <= inject_Z d / (16 * inject_Z n))
    as Hx.
  { assert (1 <= d)%Z as Hd1 by lia.
    rewrite Zlt_Qlt in Hn. rewrite Zle_Qle in Hmax, Hd1.
    change (inject_Z 0) with 0 in Hn. change (inject_Z 1) with 1 in *.
    change (inject_Z (2 ^ 36)) with (16 * inject_Z (2 ^ 32)).
    set (N := inject_Z n) in *. set (D := inject_Z d) in *.
    set (M := inject_Z (2 ^ 32)) in *.
    assert (0 < M) by reflexivity.
    apply Qle_shift_div_l; [lra|].
    assert (1 / (16 * M) * (16 * N) == N / M) as -> by (field; lra).
    assert (N / M <= 1) by (apply Qle_shift_div_r; lra). lra. }
  apply round64_mono in Hx. rewrite (round64_dyadic 1 36) in Hx by (cbn; lia).
  assert (1 - round64 (inject_Z d / (16 * inject_Z n))
          <= inject_Z (2 ^ 36 - 1) / inject_Z (2 ^ 36)) as Hy.
  { assert (inject_Z (2 ^ 36 - 1) / inject_Z (2 ^ 36)
            == 1 - inject_Z 1 / inject_Z (2 ^ 36)) as -> by reflexivity.
    lra. }
  apply round64_mono in Hy.
  rewrite (round64_dyadic (2 ^ 36 - 1) 36) in Hy by (cbn; lia).
  eapply Qle_lt_trans; [exact Hy|]. reflexivity.
Qed.

(** With at most [2^32] counters, the score is negative exactly when the
    distance is above [16 * n]. *)
Lemma binary64_similarity_negative (d n : Z) :
  (0 < n <= 2 ^ 32)%Z -> binary64_similarity d n < 0 <-> (16 * n < d)%Z.
Proof.
  intros [Hn Hmax]. unfold binary64_similarity. split.
  - intros Hneg. apply Z.lt_nge. intros Hle.
    assert (inject_Z d / (16 * inject_Z n) <= inject_Z 1) as Hx.
    { rewrite Zlt_Qlt in Hn. rewrite Zle_Qle in Hle.
      rewrite inject_Z_mult in Hle.
      change (inject_Z 0) with 0 in Hn. change (inject_Z 1) with 1.
      change (inject_Z 16) with 16 in Hle.
      apply Qle_shift_div_r; lra. }
    apply round64_mono in Hx. rewrite round64_Z in Hx by (cbn; lia).
    change (inject_Z 1) with 1 in Hx.
    assert (0 <= 1 - round64 (inject_Z d / (16 * inject_Z n))) as Hy by lra.
    apply round64_nonneg in Hy. lra.
  - intros Hlt.
    assert (inject_Z (2 ^ 36 + 1) / inject_Z (2 ^ 36)
            <= inject_Z d / (16 * inject_Z n)) as Hx.
    { assert (16 * n + 1 <= d)%Z as Hd1 by lia.
      rewrite Zlt_Qlt in Hn. rewrite Zle_Qle in Hmax, Hd1.
      rewrite inject_Z_plus, inject_Z_mult in Hd1.
      change (inject_Z 0) with 0 in Hn. change (inject_Z 1) with 1 in *.
      change (inject_Z 16) with 16 in Hd1.
      assert (inject_Z (2 ^ 36 + 1) / inject_Z (2 ^ 36)
              == 1 + 1 / (16 * inject_Z (2 ^ 32))) as -> by reflexivity.
      set (N := inject_Z n) in *. set (D := inject_Z d) in *.
      set (M := inject_Z (2 ^ 32)) in *.
      assert (0 < M) by reflexivity.
      apply Qle_shift_div_l; [lra|].
      assert ((1 + 1 / (16 * M)) * (16 * N) == 16 * N + N / M) as ->
        by (field; lra).
      assert (N / M <= 1) by (apply Qle_shift_div_r; lra). lra. }
    apply round64_mono in Hx.
    rewrite (round64_dyadic (2 ^ 36 + 1) 36) in Hx by (cbn; lia).
    assert (1 - round64 (inject_Z d / (16 * inject_Z n))
            <= inject_Z (-1) / inject_Z (2 ^ 36)) as Hy.
    { assert (inject_Z (-1) / inject_Z (2 ^ 36)
              == 1 - inject_Z (2 ^ 36 + 1) / inject_Z (2 ^ 36)) as ->
        by reflexivity.
      lra. }
    apply round64_mono in Hy.
    rewrite (round64_dyadic (-1) 36) in Hy by (cbn; lia).
    eapply Qle_lt_trans; [exact Hy|]. reflexivity.
Qed.

(** The two operations of the last line of [compareTo] do not overflow. *)
Lemma binary64_similarity_number (d n : Z) (x : Q) :
  (0 < n)%Z -> (0 <= d <= 255 * n)%Z -> x == inject_Z d / (16 * inject_Z n) ->
  exists q,
    binary64 (num_sub (Finite 1) (binary64 (Finite x))) = Finite q
    /\ q == binary64_similarity d n.
Proof.
  intros Hn [Hd0 Hd] Hx.
  assert (0 <= x <= 16) as [Hx0 Hx16].
  { rewrite Hx. rewrite Zlt_Qlt in Hn. rewrite Zle_Qle in Hd0, Hd.
    rewrite inject_Z_mult in Hd. change (inject_Z 0) with 0 in *.
    change (inject_Z 255) with 255 in Hd.
    split.
    - apply Qle_shift_div_l; lra.
    - apply Qle_shift_div_r; lra. }
  assert (16 <= pow2 1023) as Hbig
    by (change 16 with (pow2 4); apply pow2_le; lia).
  rewrite (binary64_finite x)
    by (rewrite Qabs_pos by exact Hx0; lra).
  cbn [num_sub].
  assert (0 <= round64 x <= 16) as [Hr0 Hr16].
  { split; [now apply round64_nonneg|].
    apply round64_mono in Hx16.
    change (round64 16) with (round64 (inject_Z 16)) in Hx16.
    now rewrite round64_Z in Hx16 by (cbn; lia). }
  rewrite binary64_finite.
  - eexists. split; [reflexivity|].
    unfold binary64_similarity. now rewrite Hx.
  - apply Qabs_Qle_condition. split; lra.
Qed.

End BinarySimilarity.

(** The loop of [compareTo] adds up the absolute differences of the bytes. *)
Lemma distance_loop_hex (a b : list byte) :
  length a = length b ->
  forall (m k fuel : nat) (q : Q),
    (k + m = length a)%nat -> (m <= fuel)%nat ->
    exists q',
      distance_loop fuel (2 * k)
        (Buffer_toString_hex a) (Buffer_toString_hex b) (Finite q) = Finite q'
      /\ q' == q + inject_Z (total_distance (drop k (counters a))
                                           (drop k (counters b))).
Proof.
  intros Hlen m. induction m as [|m IH]; intros k fuel q Hk Hfuel.
  - exists q. split.
    + destruct fuel as [|fuel]; [reflexivity|].
      cbn [distance_loop]. rewrite length_Buffer_toString_hex.
      destruct (Nat.ltb_spec (2 * k) (2 * length a)); [lia|reflexivity].
    + rewrite !drop_ge by (unfold counters; rewrite length_fmap; lia).
      cbn. ring.
  - destruct fuel as [|fuel]; [lia|].
    cbn [distance_loop]. rewrite length_Buffer_toString_hex.
    destruct (Nat.ltb_spec (2 * k) (2 * length a)) as [_|]; [|lia].
    destruct (lookup_lt_is_Some_2 (counters a) k) as [x Hx];
      [unfold counters; rewrite length_fmap; lia|].
    destruct (lookup_lt_is_Some_2 (counters b) k) as [y Hy];
      [unfold counters; rewrite length_fmap; lia|].
    rewrite (count_at_hex_counters a k x Hx), (count_at_hex_counters b k y Hy).
    cbn [num_of_Z num_sub Math_abs num_add].
    replace (2 * k + 2)%nat with (2 * S k)%nat by lia.
    destruct (IH (S k) fuel (q + Qabs (inject_Z x - inject_Z y))%Q)
      as (q' & Hloop & Hq'); [lia|lia|].
    exists q'. split; [exact Hloop|].
    rewrite Hq', (total_distance_drop _ _ k x y Hx Hy), Qabs_inject_sub.
    rewrite inject_Z_plus. ring.
Qed.

Lemma Qzerob_sixteen_half (n : Z) :
  Qzerob (16 * (inject_Z n / 2)) = (n =? 0).
Proof.
  unfold Qzerob, inject_Z, Qdiv, Qmult, Qinv. cbn [Qnum Qden].
  destruct (Z.eqb_spec n 0) as [->|Hn]; [reflexivity|].
  apply Z.eqb_neq. lia.
Qed.

(** [compareTo] on two decompressed buffers of equal length: NaN for empty
    buffers, otherwise the similarity of the specification evaluated in
    binary64. *)
Lemma compare_hex_buffers (a b : list byte) :
  length a = length b ->
  exists s,
    compare_hex (Buffer_toString_hex a) (Buffer_toString_hex b) = Return s
    /\ (length a = 0%nat -> s = NaN)
    /\ (length a <> 0%nat ->
        exists q, s = Finite q
          /\ q == binary64_similarity
                    (total_distance (counters a) (counters b))
                    (Z.of_nat (length a))).
Proof.
  intros Hlen. unfold compare_hex.
  rewrite !length_Buffer_toString_hex, Hlen, Nat.eqb_refl. cbn [negb].
  destruct (distance_loop_hex a b Hlen (length a) 0 (2 * length b) 0)
    as (q' & Hloop & Hq'); [lia|lia|].
  change (2 * 0)%nat with 0%nat in Hloop. rewrite Hloop.
  rewrite !drop_0 in Hq'.
  cbn [num_of_Z num_div]. change (Qzerob 2) with false.
  cbn [num_mul num_div]. rewrite Qzerob_sixteen_half.
  destruct (Z.eqb_spec (Z.of_nat (2 * length b)) 0) as [Hz|Hz].
  - assert (length a = 0%nat) as Ha by lia.
    destruct a; [|discriminate]. destruct b; [|discriminate].
    cbn in Hloop. injection Hloop as <-.
    eexists. split; [reflexivity|]. split; [reflexivity|]. intros; lia.
  - destruct (binary64_similarity_number
                (total_distance (counters a) (counters b))
                (Z.of_nat (length a))
                (q' / (16 * (inject_Z (Z.of_nat (2 * length b)) / 2))))
      as (q & Hq & Hsim).
    + lia.
    + split; [apply total_distance_nonneg|apply total_distance_counters_le].
    + rewrite Hq'.
      replace (Z.of_nat (2 * length b)) with (2 * Z.of_nat (length a)) by lia.
      rewrite inject_Z_mult.
      assert (~ inject_Z (Z.of_nat (length a)) == 0) as Hnz.
      { unfold Qeq, inject_Z. cbn. lia. }
      change (inject_Z 2) with 2%Q.
      set (d := inject_Z (total_distance (counters a) (counters b))) in *.
      set (n := inject_Z (Z.of_nat (length a))) in *.
      clearbody d n. field. exact Hnz.
    + rewrite Hq. eexists. split; [reflexivity|]. split; [intros; lia|].
      intros _. exists q. split; [reflexivity|].
      rewrite Hsim, Hlen. reflexivity.
Qed.

Lemma compare_hex_mismatch (a b : list byte) :
  length a <> length b ->
  compare_hex (Buffer_toString_hex a) (Buffer_toString_hex b)
  = Throw (Error "Hashes must be of equal length").
Proof.
  intros Hlen. unfold compare_hex. rewrite !length_Buffer_toString_hex.
  destruct (Nat.eqb_spec (2 * length a) (2 * length b)); [lia|reflexivity].
Qed.

(** * The histogram and its encoding *)

Section PipelineFacts.
Context `{Node}.

Lemma hex_of_counter (c : Z) :
  0 <= c < 256 ->
  padStart2 (toString16 c)
  = String (hexdigit (c / 16)) (String (hexdigit (c mod 16)) "").
Proof.
  intros Hc.
  apply (forallb_below
           (fun c => String.eqb (padStart2 (toString16 c))
                       (String (hexdigit (c / 16))
                          (String (hexdigit (c mod 16)) ""))) 256) in Hc;
    [|vm_compute; reflexivity].
  now apply String.eqb_eq in Hc.
Qed.

Lemma hexString_bytes (buckets : list Z) :
  Forall (fun c => 0 <= c < 256) buckets ->
  hexString buckets = Buffer_toString_hex (map byte_of_Z buckets).
Proof.
  unfold hexString. induction 1 as [|c l Hc _ IH]; [reflexivity|].
  cbn [map join fold_right Buffer_toString_hex].
  rewrite hex_of_counter, Z_of_byte_of_Z by assumption.
  fold (join (map (fun count => padStart2 (toString16 count)) l)).
  rewrite IH. reflexivity.
Qed.

Lemma decompressHash_encode (buckets : list Z) :
  decompressHash (encode buckets)
  = Return (Buffer_toString_hex (Buffer_from_hex (hexString buckets))).
Proof.
  unfold decompressHash, encode.
  rewrite fromBase64_toBase64, gunzip_gzip. reflexivity.
Qed.

Lemma encode_nonempty (buckets : list Z) : encode buckets <> "".
Proof.
  unfold encode. intros Hempty.
  apply (gzip_nonempty (Buffer_from_hex (hexString buckets))).
  rewrite <- (fromBase64_toBase64 (gzipSync _)), Hempty.
  apply fromBase64_empty.
Qed.

Lemma Forall_repeat {A} (P : A -> Prop) (x : A) (n : nat) :
  P x -> Forall P (repeat x n).
Proof. intros Hx. induction n; cbn [repeat]; constructor; assumption. Qed.

Lemma decode_encode (buckets : list Z) :
  Forall (fun c => 0 <= c < 256) buckets ->
  decode (encode buckets) = Return (map num_of_Z buckets).
Proof.
  intros Hrange. unfold decode.
  rewrite decompressHash_encode, hexString_bytes by assumption.
  rewrite Buffer_from_hex_toString, counts_of_hex_toString.
  unfold counters. rewrite map_map. do 2 f_equal.
  induction Hrange as [|c l Hc _ IH]; [reflexivity|].
  cbn [map]. rewrite Z_of_byte_of_Z, IH by assumption. reflexivity.
Qed.

(** ** [cook] and the cache *)

Lemma cook_cached (this : loc) (numBuckets : number) (st : store)
  (r : Recipe) (h : string) :
  st !! this = Some r -> cached_hash r = Some h ->
  cook this numBuckets st = (Return h, st).
Proof.
  intros Hr Hc. unfold cook, bind, deref. rewrite Hr, Hc. reflexivity.
Qed.

Lemma cook_compute (this : loc) (numBuckets : number) (st : store)
  (r : Recipe) (h : string) :
  st !! this = Some r -> cached_hash r = None ->
  compute_hash r numBuckets = Return h ->
  cook this numBuckets st
  = (Return h, alter (fun r => set_hash r (Some h)) this st).
Proof.
  intros Hr Hc Hh. unfold cook, bind, deref, lift, assign_hash, ret.
  rewrite Hr, Hc, Hh. reflexivity.
Qed.

Lemma cook_throw (this : loc) (numBuckets : number) (st : store)
  (r : Recipe) (e : exn) :
  st !! this = Some r -> cached_hash r = None ->
  compute_hash r numBuckets = Throw e ->
  cook this numBuckets st = (Throw e, st).
Proof.
  intros Hr Hc Hh. unfold cook, bind, deref, lift.
  rewrite Hr, Hc, Hh. reflexivity.
Qed.

Lemma cook_dangling (this : loc) (numBuckets : number) (st : store) :
  st !! this = None ->
  cook this numBuckets st = (Throw (TypeError "not a Recipe"), st).
Proof.
  intros Hr. unfold cook, bind, deref. rewrite Hr. reflexivity.
Qed.

Lemma compute_hash_nonempty (r : Recipe) (numBuckets : number) (h : string) :
  compute_hash r numBuckets = Return h -> h <> "".
Proof.
  unfold compute_hash. destruct (array_length numBuckets); [|discriminate].
  intros [= <-]. apply encode_nonempty.
Qed.

Lemma compute_hash_default (r : Recipe) :
  compute_hash r default_numBuckets
  = Return (encode (histogram r 256 (repeat 0 256%nat))).
Proof. reflexivity. Qed.

Lemma cached_hash_set (r : Recipe) (h : string) :
  h <> "" -> cached_hash (set_hash r (Some h)) = Some h.
Proof.
  intros Hh. unfold cached_hash. cbn [hash set_hash].
  destruct (String.eqb_spec h ""); [contradiction|reflexivity].
Qed.

Lemma cached_hash_nonempty (r : Recipe) (h : string) :
  cached_hash r = Some h -> h <> "".
Proof.
  unfold cached_hash. destruct (hash r) as [h'|]; [|discriminate].
  destruct (String.eqb_spec h' ""); [discriminate|]. now intros [= <-].
Qed.

(** After a call of [cook] that returns, the instance holds the returned
    string as its cached hash. *)
Lemma cook_returns (this : loc) (numBuckets : number) (st st' : store)
  (h : string) :
  cook this numBuckets st = (Return h, st') ->
  exists r', st' !! this = Some r' /\ cached_hash r' = Some h.
Proof.
  intros Hcook.
  destruct (st !! this) as [r|] eqn:Hr;
    [|rewrite (cook_dangling _ _ _ Hr) in Hcook; discriminate].
  destruct (cached_hash r) as [h0|] eqn:Hc.
  - rewrite (cook_cached _ _ _ _ _ Hr Hc) in Hcook.
    injection Hcook as <- <-. eauto.
  - destruct (compute_hash r numBuckets) as [h1|e] eqn:Hh.
    + rewrite (cook_compute _ _ _ _ _ Hr Hc Hh) in Hcook.
      injection Hcook as <- <-.
      exists (set_hash r (Some h1)). split.
      * rewrite lookup_alter_eq, Hr. reflexivity.
      * apply cached_hash_set. eapply compute_hash_nonempty; eauto.
    + rewrite (cook_throw _ _ _ _ _ Hr Hc Hh) in Hcook. discriminate.
Qed.

(** [cook()] returns on every instance of the store. *)
Lemma cook_default_returns (this : loc) (st : store) (r : Recipe) :
  st !! this = Some r ->
  exists h st', cook this default_numBuckets st = (Return h, st').
Proof.
  intros Hr. destruct (cached_hash r) as [h0|] eqn:Hc.
  - rewrite (cook_cached _ _ _ _ _ Hr Hc). eauto.
  - rewrite (cook_compute _ _ _ _ _ Hr Hc (compute_hash_default r)). eauto.
Qed.

(** ** Tokens and buckets *)

Lemma parseInt16_digest_prefix (digest : list byte) :
  (4 <= length digest)%nat ->
  parseInt16 (substr (Buffer_toString_hex digest) 0 8)
  = Some (digest_prefix digest).
Proof.
  destruct digest as [|b0 [|b1 [|b2 [|b3 rest]]]]; cbn [length]; try lia.
  intros _. unfold digest_prefix.
  cbn [Buffer_toString_hex substr substring parseInt16 parse_hex_prefix
       firstn fold_left].
  destruct (byte_digits _ (Z_of_byte_range b0)) as (? & ? & ?).
  destruct (byte_digits _ (Z_of_byte_range b1)) as (? & ? & ?).
  destruct (byte_digits _ (Z_of_byte_range b2)) as (? & ? & ?).
  destruct (byte_digits _ (Z_of_byte_range b3)) as (? & ? & ?).
  rewrite !hexval_hexdigit by assumption.
  replace (substring 0 0 (Buffer_toString_hex rest)) with ""
    by (destruct (Buffer_toString_hex rest); reflexivity).
  cbn [parse_hex_prefix from_option]. unfold id.
  change (take 0 rest) with (@nil ascii). cbn [fold_left].
  f_equal. lia.
Qed.

Lemma digest_prefix_nonneg (digest : list byte) : 0 <= digest_prefix digest.
Proof.
  unfold digest_prefix.
  assert (forall l acc, 0 <= acc ->
            0 <= fold_left (fun acc b => 256 * acc + Z_of_byte b) l acc) as Hfold.
  { induction l as [|b l IH]; intros acc Hacc; [exact Hacc|].
    cbn [fold_left]. apply IH. pose proof (Z_of_byte_range b). lia. }
  apply Hfold. lia.
Qed.

Lemma hashAttribute_increment (v : value) (buckets : list Z) (n : Z) :
  _hashAttribute v buckets n = increment buckets (value_index v n).
Proof. destruct v; reflexivity. Qed.

Lemma bucketIndex_md5 (s : string) (n : Z) :
  0 < n ->
  bucketIndex (md5_hex s) n
  = Some (digest_prefix (md5 (Buffer_from_utf8 s)) mod n).
Proof.
  intros Hn. unfold bucketIndex, md5_hex.
  rewrite parseInt16_digest_prefix by (rewrite md5_length; lia).
  destruct (Z.eqb_spec n 0); [lia|].
  rewrite Z.rem_mod_nonneg by (auto using digest_prefix_nonneg with lia).
  reflexivity.
Qed.

(** For a positive bucket count the bucket of a token is the first four
    bytes of its digest modulo the count, and lies inside the array. *)
Lemma value_index_token (v : value) (n : Z) :
  0 < n -> v <> VUndefined -> v <> VNull ->
  value_index v n = Some (token_bucket v n) /\ 0 <= token_bucket v n < n.
Proof.
  intros Hn Hu Hnull. split.
  - destruct v; try contradiction; cbn [value_index];
      apply bucketIndex_md5; assumption.
  - unfold token_bucket. apply Z.mod_pos_bound. assumption.
Qed.

Lemma bucketIndex_zero (hash : string) : bucketIndex hash 0 = None.
Proof. unfold bucketIndex. destruct (parseInt16 _); reflexivity. Qed.

Lemma increment_commute (buckets : list Z) (i j : option Z) :
  increment (increment buckets i) j = increment (increment buckets j) i.
Proof.
  destruct i as [i|], j as [j|]; cbn [increment]; try reflexivity.
  apply list_eq. intros k.
  destruct (decide (Z.to_nat i = k)) as [<-|Hik];
    destruct (decide (Z.to_nat j = Z.to_nat i)) as [Hji|Hji].
  - rewrite Hji. reflexivity.
  - rewrite list_lookup_alter_ne by assumption.
    rewrite !list_lookup_alter_eq.
    rewrite list_lookup_alter_ne by assumption. reflexivity.
  - rewrite Hji. reflexivity.
  - destruct (decide (Z.to_nat j = k)) as [<-|Hjk].
    + rewrite list_lookup_alter_eq.
      rewrite !list_lookup_alter_ne by congruence.
      rewrite list_lookup_alter_eq. reflexivity.
    + rewrite !list_lookup_alter_ne by assumption. reflexivity.
Qed.

Lemma length_increment (buckets : list Z) (i : option Z) :
  length (increment buckets i) = length buckets.
Proof. destruct i; [apply length_alter|reflexivity]. Qed.

Lemma length_hash_values (n : Z) (vs : list value) (buckets : list Z) :
  length (hash_values n vs buckets) = length buckets.
Proof.
  revert buckets. induction vs as [|v vs IH]; intros b; [reflexivity|].
  unfold hash_values in *. cbn [fold_left].
  rewrite IH, hashAttribute_increment. apply length_increment.
Qed.

Lemma hash_values_app (n : Z) (l1 l2 : list value) (buckets : list Z) :
  hash_values n (l1 ++ l2) buckets
  = hash_values n l2 (hash_values n l1 buckets).
Proof. apply fold_left_app. Qed.

Lemma hash_values_push (n : Z) (v : value) (l : list value)
  (buckets : list Z) :
  hash_values n l (_hashAttribute v buckets n)
  = _hashAttribute v (hash_values n l buckets) n.
Proof.
  revert buckets. induction l as [|w l IH]; intros b; [reflexivity|].
  unfold hash_values in *. cbn [fold_left].
  rewrite <- IH. f_equal.
  rewrite !hashAttribute_increment. apply increment_commute.
Qed.

(** One more token anywhere in the sequence is one more increment of its
    bucket. *)
Lemma hash_values_insert (n : Z) (v : value) (l1 l2 : list value)
  (buckets : list Z) :
  hash_values n (l1 ++ v :: l2) buckets
  = _hashAttribute v (hash_values n (l1 ++ l2) buckets) n.
Proof.
  rewrite !hash_values_app.
  change (hash_values n (v :: l2) ?b)
    with (hash_values n l2 (_hashAttribute v b n)).
  apply hash_values_push.
Qed.

Lemma fold_left_flat_map {A B C} (f : A -> B -> A) (g : C -> list B)
  (l : list C) (a : A) :
  fold_left f (flat_map g l) a
  = fold_left (fun a x => fold_left f (g x) a) l a.
Proof.
  revert a. induction l as [|x l IH]; intros a; [reflexivity|].
  cbn [flat_map fold_left]. rewrite fold_left_app. apply IH.
Qed.

Lemma fold_left_of_map {A B C} (f : A -> B -> A) (g : C -> B)
  (l : list C) (a : A) :
  fold_left f (map g l) a = fold_left (fun a x => f a (g x)) l a.
Proof.
  revert a. induction l as [|x l IH]; intros a; [reflexivity|].
  cbn [map fold_left]. apply IH.
Qed.

Lemma fold_left_ext_in {A B} (f g : A -> B -> A) (l : list B) (a : A) :
  Forall (fun x => forall a, f a x = g a x) l ->
  fold_left f l a = fold_left g l a.
Proof.
  intros Hall. revert a.
  induction Hall as [|x l Hx _ IH]; intros a; [reflexivity|].
  cbn [fold_left]. rewrite Hx. apply IH.
Qed.

Lemma hashAction_tokens (n : Z) (buckets : list Z) (a : Action) :
  hashAction n buckets a = hash_values n (action_tokens a) buckets.
Proof.
  unfold hashAction, action_tokens, action_head, action_tail, hash_values.
  destruct (ingredient a), (container a), (temperature a) as [[t|s]|],
    (duration a); cbn [truthy_temperature app fold_left temperature_value];
    try reflexivity;
    destruct (String.eqb s ""); reflexivity.
Qed.

Lemma hashCue_tokens (n : Z) (buckets : list Z) (c : Cue) :
  hashCue n buckets c = hash_values n (cue_tokens c) buckets.
Proof. reflexivity. Qed.

Lemma hashCheck_tokens (n : Z) (buckets : list Z) (c : SensoryCheck) :
  hashCheck n buckets c = hash_values n (check_tokens c) buckets.
Proof. reflexivity. Qed.

(** [_hashStep] hashes the tokens of the step in the order of
    [step_tokens]. *)
Lemma hashStep_tokens (s : RecipeStep) :
  forall (buckets : list Z) (n : Z),
    _hashStep s buckets n = hash_values n (step_tokens s) buckets.
Proof.
  induction s as [acts ths cs adjs scs IH] using RecipeStep_threads_ind.
  intros b n.
  cbn [_hashStep step_tokens actions cues sensoryChecks threads].
  rewrite !hash_values_app. unfold hash_values at 1 2 3 4.
  rewrite !fold_left_flat_map.
  rewrite (fold_left_ext_in (hashAction n) _ acts)
    by (apply Forall_forall; intros; apply hashAction_tokens).
  set (b1 := fold_left _ acts b).
  set (b2 := fold_left (hashCue n) cs b1).
  change (fold_left (fun (a : list Z) (x : Cue) => _) cs b1) with b2.
  set (b3 := fold_left (hashCheck n) scs b2).
  change (fold_left (fun (a : list Z) (x : SensoryCheck) => _) scs b2) with b3.
  apply fold_left_ext_in.
  eapply Forall_impl; [exact IH|]. intros thread Hth a. apply Hth.
Qed.

Lemma hashIngredient_token (n : Z) (buckets : list Z) (e : Entity) :
  hashIngredient n buckets e = _hashAttribute (VString (name e)) buckets n.
Proof. reflexivity. Qed.

(** The histogram of a recipe is the hash of its tokens in order. *)
Lemma histogram_tokens (r : Recipe) (n : Z) (buckets : list Z) :
  histogram r n buckets = hash_values n (recipe_tokens r) buckets.
Proof.
  unfold histogram, recipe_tokens. rewrite hash_values_app.
  unfold hash_values at 1 2. rewrite fold_left_flat_map.
  rewrite fold_left_of_map.
  apply fold_left_ext_in, Forall_forall. intros s _ a.
  apply hashStep_tokens.
Qed.

Lemma length_histogram (r : Recipe) (n : Z) (buckets : list Z) :
  length (histogram r n buckets) = length buckets.
Proof. rewrite histogram_tokens. apply length_hash_values. Qed.


(** ** [compareTo], step by step *)

Lemma decompressHash_Some (hash : string) (buf : list byte) :
  gunzipSync (fromBase64 hash) = Some buf ->
  decompressHash hash = Return (Buffer_toString_hex buf).
Proof. intros Hbuf. unfold decompressHash. now rewrite Hbuf. Qed.

Lemma decompressHash_None (hash : string) :
  gunzipSync (fromBase64 hash) = None ->
  decompressHash hash
  = Throw (Error "Invalid hash format: unable to decompress").
Proof. intros Hbuf. unfold decompressHash. now rewrite Hbuf. Qed.

Lemma decompressHash_cases (hash : string) :
  (exists buf, gunzipSync (fromBase64 hash) = Some buf
               /\ decompressHash hash = Return (Buffer_toString_hex buf))
  \/ decompressHash hash
     = Throw (Error "Invalid hash format: unable to decompress").
Proof.
  destruct (gunzipSync (fromBase64 hash)) as [buf|] eqn:Hbuf.
  - left. exists buf. split; [reflexivity|]. now apply decompressHash_Some.
  - right. now apply decompressHash_None.
Qed.

(** [compareTo] once both hash strings are at hand. *)
Lemma compareTo_hashes (this : loc) (other : operand) (st st1 st2 : store)
  (h1 h2 : string) :
  cook this default_numBuckets st = (Return h1, st1) ->
  operand_hash other st1 = (Return h2, st2) ->
  compareTo this other st
  = match decompressHash h1 with
    | Return thisHash =>
        match decompressHash h2 with
        | Return otherHash => (compare_hex thisHash otherHash, st2)
        | Throw e => (Throw e, st2)
        end
    | Throw e => (Throw e, st1)
    end.
Proof.
  intros Hthis Hother. unfold compareTo, bind at 1. rewrite Hthis.
  unfold bind at 1, lift at 1.
  destruct (decompressHash h1) as [thisHash|e]; [|reflexivity].
  unfold bind at 1.
  destruct other as [o|s]; cbn [operand_hash] in Hother.
  - unfold bind at 1. rewrite Hother. unfold lift.
    destruct (decompressHash h2); reflexivity.
  - injection Hother as <- <-. unfold lift.
    destruct (decompressHash s); reflexivity.
Qed.

End PipelineFacts.

(** * The reference implementation satisfies the runtime interface *)

Module ReferenceFacts.
Import Reference.

(** The test suite of RFC 1321, the check value of CRC-32, and examples of
    RFC 4648. *)
Example md5_test_suite :
  map (fun s => Buffer_toString_hex (md5 (Buffer_from_utf8 s)))
    [""; "a"; "abc"; "message digest"; "latte"]
  = [ "d41d8cd98f00b204e9800998ecf8427e";
      "0cc175b9c0f1b6a831c399e269772661";
      "900150983cd24fb0d6963f7d28e17f72";
      "f96b697d7cb7938d525a2f31aaf161d0";
      "c18c81318d17d0a77f6264877360cfa6" ].
Proof. vm_compute. reflexivity. Qed.

Example crc32_check : crc32 (Buffer_from_utf8 "123456789") = 0xcbf43926.
Proof. vm_compute. reflexivity. Qed.

Example base64_examples :
  map (fun s => toBase64 (Buffer_from_utf8 s)) ["Man"; "Ma"; "M"]
  = ["TWFu"; "TWE="; "TQ=="]
  /\ map fromBase64 ["TWFu"; "TWE="; "TQ=="; "T W!F.u"]
     = map Buffer_from_utf8 ["Man"; "Ma"; "M"; "Man"].
Proof. vm_compute. split; reflexivity. Qed.

Example gzip_examples :
  gunzipSync (gzipSync (Buffer_from_utf8 "latte")) = Some (Buffer_from_utf8 "latte")
  /\ gunzipSync (fromBase64 "not-base64!!") = None.
Proof. vm_compute. split; reflexivity. Qed.

Lemma md5_length (m : list byte) : length (md5 m) = 16%nat.
Proof.
  unfold md5.
  destruct (fold_left md5_block _ md5_init) as [[[a b] c] d].
  rewrite !length_app. reflexivity.
Qed.

Lemma list_ind3 {A} (P : list A -> Prop) :
  P [] -> (forall x, P [x]) -> (forall x y, P [x; y]) ->
  (forall x y z l, P l -> P (x :: y :: z :: l)) ->
  forall l, P l.
Proof.
  intros H0 H1 H2 H3.
  fix IH 1. intros [|x [|y [|z l]]].
  - exact H0.
  - apply H1.
  - apply H2.
  - apply H3, IH.
Qed.

Lemma sextets_b64char (v : Z) (rest : string) :
  0 <= v < 64 -> sextets (String (b64char v) rest) = v :: sextets rest.
Proof.
  intros Hv. cbn [sextets].
  apply (forallb_below
           (fun v => negb (Ascii.eqb (b64char v) "=")
                     && match unbase64 (b64char v) with
                        | Some v' => v' =? v
                        | None => false
                        end) 64) in Hv; [|vm_compute; reflexivity].
  apply andb_prop in Hv as [Hpad Hval].
  destruct (Ascii.eqb (b64char v) "="); [discriminate|].
  destruct (unbase64 (b64char v)) as [v'|]; [|discriminate].
  apply Z.eqb_eq in Hval. now subst.
Qed.

Lemma sextets_padding (rest : string) : sextets (String "=" rest) = [].
Proof. reflexivity. Qed.

Lemma fromBase64_toBase64 (buf : list byte) : fromBase64 (toBase64 buf) = buf.
Proof.
  unfold fromBase64. induction buf as [|x|x y|x y z l IH] using list_ind3.
  - reflexivity.
  - pose proof (Z_of_byte_range x) as Hx.
    cbn [toBase64]. rewrite !sextets_b64char by (Z.div_mod_to_equations; lia).
    rewrite sextets_padding. cbn [bytes_of_sextets].
    replace (_ + _) with (Z_of_byte x) by (Z.div_mod_to_equations; lia).
    now rewrite byte_of_Z_of_byte.
  - pose proof (Z_of_byte_range x) as Hx. pose proof (Z_of_byte_range y) as Hy.
    cbn [toBase64]. rewrite !sextets_b64char by (Z.div_mod_to_equations; lia).
    rewrite sextets_padding. cbn [bytes_of_sextets].
    replace (Z_of_byte x `div` 4 * 4 + _) with (Z_of_byte x)
      by (Z.div_mod_to_equations; lia).
    replace (_ `mod` 16 * 16 + _) with (Z_of_byte y)
      by (Z.div_mod_to_equations; lia).
    now rewrite !byte_of_Z_of_byte.
  - pose proof (Z_of_byte_range x) as Hx. pose proof (Z_of_byte_range y) as Hy.
    pose proof (Z_of_byte_range z) as Hz.
    cbn [toBase64]. rewrite !sextets_b64char by (Z.div_mod_to_equations; lia).
    cbn [bytes_of_sextets]. rewrite IH.
    replace (Z_of_byte x `div` 4 * 4 + _) with (Z_of_byte x)
      by (Z.div_mod_to_equations; lia).
    replace (_ `mod` 16 * 16 + _) with (Z_of_byte y)
      by (Z.div_mod_to_equations; lia).
    replace (_ `mod` 4 * 64 + _) with (Z_of_byte z)
      by (Z.div_mod_to_equations; lia).
    now rewrite !byte_of_Z_of_byte.
Qed.

Lemma bytes_eqb_refl (a : list byte) : bytes_eqb a a = true.
Proof. apply String.eqb_refl. Qed.

Lemma inflate_stored_blocks (data tail : list byte) (fuel : nat) :
  (length data < fuel)%nat ->
  inflate_stored fuel (stored_blocks data ++ tail) = Some (data, tail).
Proof.
  revert fuel. induction data as [|x data IH]; intros fuel Hfuel.
  - destruct fuel as [|fuel]; [cbn in Hfuel; lia|]. reflexivity.
  - destruct fuel as [|fuel]; [cbn in Hfuel; lia|].
    cbn [stored_blocks].
    change (bytes_of [0; 1; 0; 254; 255] ++ x :: stored_blocks data)
      with (byte_of_Z 0 :: byte_of_Z 1 :: byte_of_Z 0 :: byte_of_Z 254
              :: byte_of_Z 255 :: x :: stored_blocks data).
    cbn [app inflate_stored].
    change (Z_of_byte (byte_of_Z 0)) with 0.
    change (Z_of_byte (byte_of_Z 1)) with 1.
    change (Z_of_byte (byte_of_Z 254)) with 254.
    change (Z_of_byte (byte_of_Z 255)) with 255.
    change (Z.to_nat (1 + 256 * 0)) with 1%nat.
    cbn [Z.div Z.modulo Z.eqb Z.add negb andb Z.odd length Nat.ltb Nat.leb
         firstn skipn].
    change ((0 `div` 2) `mod` 4 =? 0) with true. cbn [negb].
    rewrite IH by (cbn [length] in Hfuel; lia). reflexivity.
Qed.

Lemma length_stored_blocks (data : list byte) :
  length (stored_blocks data) = (6 * length data + 5)%nat.
Proof.
  induction data as [|x data IH]; [reflexivity|].
  cbn [stored_blocks]. rewrite length_app. cbn [length bytes_of map].
  rewrite IH. lia.
Qed.

Lemma gunzip_gzip (data : list byte) : gunzipSync (gzipSync data) = Some data.
Proof.
  unfold gunzipSync, gzipSync.
  change (firstn 4 (gzip_header ++ stored_blocks data ++ gzip_trailer data))
    with (bytes_of [31; 139; 8; 0]).
  rewrite bytes_eqb_refl.
  change (skipn 10 (gzip_header ++ stored_blocks data ++ gzip_trailer data))
    with (stored_blocks data ++ gzip_trailer data).
  rewrite inflate_stored_blocks.
  - rewrite bytes_eqb_refl. reflexivity.
  - rewrite !length_app, length_stored_blocks. lia.
Qed.

Lemma gzip_nonempty (data : list byte) : gzipSync data <> [].
Proof. unfold gzipSync, gzip_header. discriminate. Qed.

(** The runtime used to run the code on concrete recipes. *)
#[export] Instance node : Node :=
  Build_Node Reference.toLowerCase Reference.md5 Reference.gzipSync
    Reference.gunzipSync Reference.toBase64 Reference.fromBase64
    md5_length gunzip_gzip gzip_nonempty fromBase64_toBase64 eq_refl.

End ReferenceFacts.

(** * The claims of the specification *)

(** ** C1: the similarity formula *)

(** C1.  For every pair of operands whose decoded histograms [a] and [b] have
    equal length N, [compareTo] returns [1 - D / (16 * N)] as JavaScript
    computes it, where D is the sum over all buckets of the absolute
    differences of the counters: the quotient [D / (16 * N)] rounded to the
    nearest double, then its difference from 1 rounded to the nearest double
    ([binary64_similarity]); this is NaN when N is 0.  When N is a power of
    two, as the 256 of the hashes [compareTo] computes itself, neither
    operation rounds and the result is [1 - D / (16 * N)] exactly.  The
    divisor constant is 16, and the result is not clamped: up to [2^32]
    counters it is negative exactly when D is above [16 * N], and there are a
    recipe and a hash string for which it is. *)
Theorem compareTo_similarity `{Node} :
  (forall (this : loc) (other : operand) (st st1 st2 : store)
          (h1 h2 : string) (a b : list byte),
      cook this default_numBuckets st = (Return h1, st1) ->
      operand_hash other st1 = (Return h2, st2) ->
      gunzipSync (fromBase64 h1) = Some a ->
      gunzipSync (fromBase64 h2) = Some b ->
      length a = length b ->
      let D := total_distance (counters a) (counters b) in
      let N := Z.of_nat (length a) in
      exists s,
        compareTo this other st = (Return s, st2)
        /\ (length a = 0%nat -> s = NaN)
        /\ (length a <> 0%nat ->
            exists q, s = Finite q
              /\ q == round64 (1 - round64 (inject_Z D / (16 * inject_Z N)))
              /\ (forall k, 0 <= k <= 32 -> N = 2 ^ k ->
                    q == 1 - inject_Z D / (16 * inject_Z N))
              /\ (N <= 2 ^ 32 -> (q < 0)%Q <-> 16 * N < D)))
  /\ (exists (this : loc) (other : operand) (st st' : store) (q : Q)
             (a b : list Z),
        cook this default_numBuckets st = (Return (encode a), st')
        /\ other = OtherHash (encode b)
        /\ decode (encode a) = Return (map num_of_Z a)
        /\ decode (encode b) = Return (map num_of_Z b)
        /\ length a = length b
        /\ 16 * Z.of_nat (length a) < total_distance a b
        /\ compareTo this other st = (Return (Finite q), st')
        /\ (q < 0)%Q).
Proof.
  split.
  - intros this other st st1 st2 h1 h2 a b Hthis Hother Ha Hb Hlen D N.
    rewrite (compareTo_hashes _ _ _ _ _ _ _ Hthis Hother).
    rewrite (decompressHash_Some _ _ Ha), (decompressHash_Some _ _ Hb).
    destruct (compare_hex_buffers a b Hlen) as (s & Hs & Hnan & Hfin).
    exists s. rewrite Hs. split; [reflexivity|]. split; [exact Hnan|].
    intros Hne. destruct (Hfin Hne) as (q & -> & Hq). fold D N in Hq.
    exists q. split; [reflexivity|]. split; [exact Hq|].
    assert (0 < N) as HN by (unfold N; lia).
    pose proof (total_distance_nonneg (counters a) (counters b)) as HD0.
    pose proof (total_distance_counters_le a b) as HD. fold D N in HD0, HD.
    split.
    + intros k Hk HNk. rewrite Hq.
      assert (2 ^ k <= 2 ^ 32) by (apply Z.pow_le_mono_r; lia).
      apply (binary64_similarity_exact D N k HNk); lia.
    + intros Hmax. rewrite Hq. apply binary64_similarity_negative. lia.
  - set (r := Recipe_new "" [] [] []).
    set (a := repeat 0 256%nat). set (b := repeat 17 256%nat).
    assert (Forall (fun c => 0 <= c < 256) a) as Hra
      by (apply Forall_repeat; lia).
    assert (Forall (fun c => 0 <= c < 256) b) as Hrb
      by (apply Forall_repeat; lia).
    assert (cook 0%nat default_numBuckets {[0%nat := r]}
            = (Return (encode a),
               alter (fun r => set_hash r (Some (encode a))) 0%nat
                 {[0%nat := r]})) as Hcook.
    { apply (cook_compute _ _ _ r); [apply lookup_singleton_eq|reflexivity|].
      reflexivity. }
    pose proof (compareTo_hashes 0%nat (OtherHash (encode b)) _ _ _ _ _
                  Hcook eq_refl) as Hcmp.
    rewrite !decompressHash_encode, !hexString_bytes in Hcmp by assumption.
    rewrite !Buffer_from_hex_toString in Hcmp.
    destruct (compare_hex_buffers (map byte_of_Z a) (map byte_of_Z b) eq_refl)
      as (s & Hs & _ & Hfin).
    destruct Hfin as (q & -> & Hq); [discriminate|].
    rewrite Hs in Hcmp.
    exists 0%nat, (OtherHash (encode b)), {[0%nat := r]}.
    eexists. exists q, a, b.
    split; [exact Hcook|]. split; [reflexivity|].
    split; [now apply decode_encode|]. split; [now apply decode_encode|].
    split; [reflexivity|]. split; [vm_compute; reflexivity|].
    split; [exact Hcmp|].
    rewrite Hq. vm_compute. reflexivity.
Qed.

(** The two recipes of [examples/] differ by the three tokens of the cookie
    step: their similarity is [1 - 3 / (16 * 256)].  A recipe without tokens
    hashed into 3 buckets, against the counters 1, 0, 0: the quotient 1/48
    and the difference are rounded, and the result is the double
    0.9791666666666666, which is not 47/48. *)
Lemma compareTo_similarity_witness :
  (exists s q st',
      compareTo (H := ReferenceFacts.node) 0%nat (OtherRecipe 1%nat)
        Examples.kitchen = (Return s, st')
      /\ s = Finite q /\ q == 4093 # 4096)
  /\ (exists s q st',
        compareTo (H := ReferenceFacts.node) 0%nat
          (OtherHash (encode (H := ReferenceFacts.node) [1; 0; 0]))
          (snd (cook (H := ReferenceFacts.node) 0%nat (Finite 3)
                  Examples.pantry))
        = (Return s, st')
        /\ s = Finite q
        /\ q == 8819549270267221 # 9007199254740992
        /\ ~ q == 47 # 48).
Proof.
  split.
  - edestruct (proj1 (compareTo_similarity (H := ReferenceFacts.node))
                 0%nat (OtherRecipe 1%nat) Examples.kitchen)
      as (s & Hs & _ & Hfin).
    + vm_compute. reflexivity.
    + vm_compute. reflexivity.
    + vm_compute. reflexivity.
    + vm_compute. reflexivity.
    + reflexivity.
    + destruct Hfin as (q & Hq & _ & Hexact & _); [discriminate|].
      exists s, q. eexists. split; [exact Hs|]. split; [exact Hq|].
      rewrite (Hexact 8); [vm_compute; reflexivity|lia|reflexivity].
  - edestruct (proj1 (compareTo_similarity (H := ReferenceFacts.node))
                 0%nat
                 (OtherHash (encode (H := ReferenceFacts.node) [1; 0; 0]))
                 (snd (cook (H := ReferenceFacts.node) 0%nat (Finite 3)
                         Examples.pantry)))
      as (s & Hs & _ & Hfin).
    + vm_compute. reflexivity.
    + vm_compute. reflexivity.
    + vm_compute. reflexivity.
    + vm_compute. reflexivity.
    + reflexivity.
    + destruct Hfin as (q & Hq & Hround & _); [discriminate|].
      exists s, q. eexists. split; [exact Hs|]. split; [exact Hq|].
      split; rewrite Hround; vm_compute; [reflexivity|discriminate].
Defined.

(** ** C2 and C10: determinism and the cache *)

Section Cache.
Context `{Node}.

Lemma mutate_hash (m : mutation) (r : Recipe) : hash (mutate m r) = hash r.
Proof. destruct m; reflexivity. Qed.

Lemma mutate_cached_hash (m : mutation) (r : Recipe) :
  cached_hash (mutate m r) = cached_hash r.
Proof. unfold cached_hash. now rewrite mutate_hash. Qed.

Lemma call_mutations_cached (ms : list (loc * mutation)) (this : loc)
  (st : store) (r : Recipe) (h : string) :
  st !! this = Some r -> cached_hash r = Some h ->
  exists r', call_mutations ms st !! this = Some r' /\ cached_hash r' = Some h.
Proof.
  revert st r. induction ms as [|[l m] ms IH]; intros st r Hr Hc.
  - exists r. auto.
  - cbn [call_mutations fold_left fst snd].
    destruct (decide (l = this)) as [->|Hne].
    + apply (IH _ (mutate m r)).
      * unfold call_mutation. rewrite lookup_alter_eq, Hr. reflexivity.
      * now rewrite mutate_cached_hash.
    + apply (IH _ r); [|assumption].
      unfold call_mutation. now rewrite lookup_alter_ne.
Qed.

Lemma cook_result_compute (l1 l2 : loc) (r1 r2 : Recipe) (st1 st2 : store)
  (numBuckets : number) :
  st1 !! l1 = Some r1 -> st2 !! l2 = Some r2 ->
  compute_hash r1 numBuckets = compute_hash r2 numBuckets ->
  hash r1 = hash r2 ->
  fst (cook l1 numBuckets st1) = fst (cook l2 numBuckets st2).
Proof.
  intros H1 H2 Hcomp Hh.
  assert (cached_hash r1 = cached_hash r2) as Hc
    by (unfold cached_hash; now rewrite Hh).
  destruct (cached_hash r2) as [h|] eqn:Hc2.
  - rewrite (cook_cached _ _ _ _ _ H1 Hc), (cook_cached _ _ _ _ _ H2 Hc2).
    reflexivity.
  - destruct (compute_hash r2 numBuckets) as [h|e] eqn:Hh2.
    + rewrite (cook_compute _ _ _ _ _ H1 Hc Hcomp).
      rewrite (cook_compute _ _ _ _ _ H2 Hc2 Hh2). reflexivity.
    + rewrite (cook_throw _ _ _ _ _ H1 Hc Hcomp).
      rewrite (cook_throw _ _ _ _ _ H2 Hc2 Hh2). reflexivity.
Qed.

Lemma cook_result_depends (l1 l2 : loc) (r1 r2 : Recipe) (st1 st2 : store)
  (numBuckets : number) :
  st1 !! l1 = Some r1 -> st2 !! l2 = Some r2 ->
  ingredients r1 = ingredients r2 -> steps r1 = steps r2 ->
  hash r1 = hash r2 ->
  fst (cook l1 numBuckets st1) = fst (cook l2 numBuckets st2).
Proof.
  intros H1 H2 Hi Hs Hh.
  apply (cook_result_compute l1 l2 r1 r2); try assumption.
  unfold compute_hash, histogram. now rewrite Hi, Hs.
Qed.

Lemma cook_again (this : loc) (numBuckets numBuckets' : number)
  (st st1 : store) (h : string) :
  cook this numBuckets st = (Return h, st1) ->
  cook this numBuckets' st1 = (Return h, st1).
Proof.
  intros Hcook. destruct (cook_returns _ _ _ _ _ Hcook) as (r' & Hr' & Hc').
  now apply (cook_cached _ _ _ r').
Qed.

Lemma cook_throw_keeps_store (this : loc) (numBuckets : number)
  (st st1 : store) (e : exn) :
  cook this numBuckets st = (Throw e, st1) -> st1 = st.
Proof.
  intros Hcook.
  destruct (st !! this) as [r|] eqn:Hr;
    [|rewrite (cook_dangling _ _ _ Hr) in Hcook; congruence].
  destruct (cached_hash r) as [h0|] eqn:Hc;
    [rewrite (cook_cached _ _ _ _ _ Hr Hc) in Hcook; discriminate|].
  destruct (compute_hash r numBuckets) as [h1|e1] eqn:Hh.
  - rewrite (cook_compute _ _ _ _ _ Hr Hc Hh) in Hcook. discriminate.
  - rewrite (cook_throw _ _ _ _ _ Hr Hc Hh) in Hcook. congruence.
Qed.

End Cache.

(** C2.  [cook] is deterministic: a second call of [cook(N)] on the same
    instance gives the result of the first, whatever the first was, and two
    instances with the same ingredients, steps and hash field (in
    particular two instances constructed alike) give the same result: the
    encoded hash is a function of the recipe content and N. *)
Theorem cook_deterministic `{Node} :
  (forall (this : loc) (numBuckets : number) (st : store),
      fst (cook this numBuckets (snd (cook this numBuckets st)))
      = fst (cook this numBuckets st))
  /\ (forall (l1 l2 : loc) (r1 r2 : Recipe) (st1 st2 : store)
             (numBuckets : number),
        st1 !! l1 = Some r1 -> st2 !! l2 = Some r2 ->
        ingredients r1 = ingredients r2 -> steps r1 = steps r2 ->
        hash r1 = hash r2 ->
        fst (cook l1 numBuckets st1) = fst (cook l2 numBuckets st2)).
Proof.
  split.
  - intros this numBuckets st.
    destruct (cook this numBuckets st) as [[h|e] st1] eqn:Hcook; cbn [fst snd].
    + now rewrite (cook_again _ _ numBuckets _ _ _ Hcook).
    + rewrite (cook_throw_keeps_store _ _ _ _ _ Hcook), Hcook. reflexivity.
  - intros. now apply (cook_result_depends l1 l2 r1 r2).
Qed.

(** The recipe of [examples/latte_caffe.js], held by two instances with
    different names and tags in two stores, gives one hash. *)
Lemma cook_deterministic_witness :
  fst (cook (H := ReferenceFacts.node) 0%nat (Finite 256) Examples.kitchen)
  = fst (cook (H := ReferenceFacts.node) 4%nat (Finite 256)
           {[4%nat := Recipe_new "Caffellatte" (ingredients Examples.latteCaffe)
                        (steps Examples.latteCaffe) []]}).
Proof.
  eapply (proj2 (cook_deterministic (H := ReferenceFacts.node))).
  - vm_compute. reflexivity.
  - vm_compute. reflexivity.
  - reflexivity.
  - reflexivity.
  - reflexivity.
Defined.

(** C10.  Once [cook] has returned on an instance, every later call on that
    instance returns the same string and leaves the store as it is,
    whatever bucket count is passed and whatever mutating methods were
    called in between; an instance constructed anew from the content the
    instance has by then computes its hash from that content. *)
Theorem cook_cache_absolute `{Node} (this : loc)
  (numBuckets numBuckets' : number) (st st1 : store) (h : string)
  (ms : list (loc * mutation)) :
  cook this numBuckets st = (Return h, st1) ->
  cook this numBuckets' (call_mutations ms st1)
  = (Return h, call_mutations ms st1)
  /\ exists r2,
       call_mutations ms st1 !! this = Some r2
       /\ forall (l : loc),
            fst (cook l numBuckets'
                   (<[l := Recipe_new (recipe_name r2) (ingredients r2)
                             (steps r2) (tags r2)]> (call_mutations ms st1)))
            = compute_hash r2 numBuckets'.
Proof.
  intros Hcook.
  destruct (cook_returns _ _ _ _ _ Hcook) as (r1 & Hr1 & Hc1).
  destruct (call_mutations_cached ms this st1 r1 h Hr1 Hc1) as (r2 & Hr2 & Hc2).
  split; [now apply (cook_cached _ _ _ r2)|].
  exists r2. split; [exact Hr2|]. intros l.
  set (fresh := Recipe_new _ _ _ _).
  assert (compute_hash fresh numBuckets' = compute_hash r2 numBuckets') as Heq
    by reflexivity.
  rewrite <- Heq.
  destruct (compute_hash fresh numBuckets') as [h'|e] eqn:Hh.
  - erewrite cook_compute; [reflexivity|apply lookup_insert_eq|reflexivity|].
    exact Hh.
  - erewrite cook_throw; [reflexivity|apply lookup_insert_eq|reflexivity|].
    exact Hh.
Qed.

(** The recipe of [examples/latte_caffe.js] is cooked, then scaled, tagged
    and given the cookie as its only ingredient: [cook(16)] still returns the
    first hash, which a new instance with the content of the mutated one
    does not get. *)
Lemma cook_cache_absolute_witness :
  let ms := [(0%nat, scale (Finite 2)); (0%nat, addTags ["sweet"]);
             (0%nat, assign_ingredients [Examples.cookie])] in
  let first :=
    cook (H := ReferenceFacts.node) 0%nat (Finite 256) Examples.kitchen in
  let st2 := call_mutations ms (snd first) in
  fst (cook (H := ReferenceFacts.node) 0%nat (Finite 16) st2) = fst first
  /\ exists r2,
       st2 !! 0%nat = Some r2
       /\ ingredients r2 = [Examples.cookie]
       /\ fst (cook (H := ReferenceFacts.node) 7%nat (Finite 16)
                 (<[7%nat := Recipe_new (recipe_name r2) (ingredients r2)
                               (steps r2) (tags r2)]> st2))
          <> fst first.
Proof.
  intros ms first st2.
  destruct (cook_cache_absolute (H := ReferenceFacts.node) 0%nat (Finite 256)
              (Finite 16) Examples.kitchen (snd first)
              (match fst first with Return h => h | Throw _ => "" end) ms)
    as (Hagain & r2 & Hr2 & Hfresh).
  - vm_compute. reflexivity.
  - fold st2 in Hagain, Hr2, Hfresh. split.
    + rewrite Hagain. vm_compute. reflexivity.
    + exists r2. split; [exact Hr2|].
      rewrite (Hfresh 7%nat).
      vm_compute in Hr2. injection Hr2 as <-.
      split; [reflexivity|]. vm_compute. discriminate.
Defined.

(** ** C5: the bucket count *)

Section BucketCount.
Context `{Node}.

Lemma Qred_inject_Z (k : Z) : Qred (inject_Z k) = inject_Z k.
Proof. apply Qred_identity. cbn. apply Z.gcd_1_r. Qed.

(** [new Array(n)] accepts exactly the integers from 0 to [2^32 - 1]. *)
Lemma array_length_spec (n : number) (k : Z) :
  array_length n = Some k <-> 0 <= k < 2 ^ 32 /\ num_eq n (num_of_Z k).
Proof.
  destruct n as [| s | q]; cbn [array_length num_eq num_of_Z];
    try (split; [discriminate|tauto]).
  split.
  - destruct (Qred q) as [a d] eqn:Hred. cbn [Qnum Qden].
    destruct (Pos.eqb_spec d 1) as [->|]; [|discriminate].
    destruct (Z.leb_spec 0 a); [|discriminate].
    destruct (Z.ltb_spec a (2 ^ 32)); [|discriminate].
    cbn [andb]. intros [= <-]. split; [lia|].
    rewrite <- (Qred_correct q), Hred. reflexivity.
  - intros [Hk Hq]. apply Qred_complete in Hq.
    rewrite Hq, Qred_inject_Z. cbn [inject_Z Qnum Qden].
    destruct (Z.leb_spec 0 k); [|lia].
    destruct (Z.ltb_spec k (2 ^ 32)); [|lia]. reflexivity.
Qed.

Lemma array_length_None (n : number) :
  array_length n = None
  <-> ~ exists k, 0 <= k < 2 ^ 32 /\ num_eq n (num_of_Z k).
Proof.
  split.
  - intros Hnone (k & Hk). apply array_length_spec in Hk. congruence.
  - intros Hno. destruct (array_length n) as [k|] eqn:Hlen; [|reflexivity].
    exfalso. apply Hno. exists k. now apply array_length_spec.
Qed.

(** With no bucket no token is counted. *)
Lemma histogram_zero_buckets (r : Recipe) (buckets : list Z) :
  histogram r 0 buckets = buckets.
Proof.
  rewrite histogram_tokens. revert buckets.
  induction (recipe_tokens r) as [|v vs IH]; intros b; [reflexivity|].
  unfold hash_values in *. cbn [fold_left]. rewrite IH.
  rewrite hashAttribute_increment.
  destruct v; cbn [value_index]; try reflexivity;
    now rewrite bucketIndex_zero.
Qed.

Lemma compute_hash_zero (r : Recipe) (numBuckets : number) :
  num_eq numBuckets (Finite 0) ->
  compute_hash r numBuckets = Return (encode []).
Proof.
  intros Hz. unfold compute_hash.
  assert (array_length numBuckets = Some 0) as ->
    by (apply array_length_spec; split; [lia|exact Hz]).
  cbn [Z.to_nat repeat]. now rewrite histogram_zero_buckets.
Qed.

End BucketCount.

(** C5, as stated, fails: a bucket count of 0 is not a positive integer, and
    [cook(0)] returns an encoded hash. *)
Lemma cook_zero_buckets_returns :
  ~ positive_integer (Finite 0)
  /\ exists h st',
       cook (H := ReferenceFacts.node) 0%nat (Finite 0) Examples.pantry
       = (Return h, st').
Proof.
  split.
  - intros (k & Hk & Heq). cbn in Heq. unfold Qeq in Heq. cbn in Heq. lia.
  - do 2 eexists. vm_compute. reflexivity.
Qed.

(** C5, amended.  On an instance with no cached hash, [cook] throws the
    [RangeError] of the array construction when the bucket count is not an
    integer from 0 to [2^32 - 1] (so for every negative, fractional or
    non-finite count), and for the count 0 it returns the encoding of the
    empty histogram; on an instance with a cached hash it returns that hash
    for every count. *)
Theorem cook_bucket_count `{Node} (this : loc) (r : Recipe) (st : store)
  (numBuckets : number) :
  st !! this = Some r ->
  (cached_hash r = None ->
     ((~ exists k, 0 <= k < 2 ^ 32 /\ num_eq numBuckets (num_of_Z k)) ->
      cook this numBuckets st
      = (Throw (RangeError "Invalid array length"), st))
     /\ (num_eq numBuckets (Finite 0) ->
         cook this numBuckets st
         = (Return (encode []),
            alter (fun r => set_hash r (Some (encode []))) this st)))
  /\ (forall h, cached_hash r = Some h ->
        cook this numBuckets st = (Return h, st)).
Proof.
  intros Hr. split.
  - intros Hc. split.
    + intros Hbad. apply array_length_None in Hbad.
      apply (cook_throw _ _ _ r); [assumption|assumption|].
      unfold compute_hash. now rewrite Hbad.
    + intros Hz. apply (cook_compute _ _ _ r); [assumption|assumption|].
      now apply compute_hash_zero.
  - intros h Hc. now apply (cook_cached _ _ _ r).
Qed.

(** [cook(2.5)] and [cook(-1)] on a new instance throw; [cook(-1)] on an
    instance that has been cooked returns the cached hash. *)
Lemma cook_bucket_count_witness :
  cook (H := ReferenceFacts.node) 0%nat (Finite (5 # 2)) Examples.pantry
  = (Throw (RangeError "Invalid array length"), Examples.pantry)
  /\ cook (H := ReferenceFacts.node) 0%nat (Finite (-1)) Examples.pantry
     = (Throw (RangeError "Invalid array length"), Examples.pantry)
  /\ fst (cook (H := ReferenceFacts.node) 0%nat (Finite (-1))
            (snd (cook (H := ReferenceFacts.node) 0%nat (Finite 256)
                    Examples.pantry)))
     = fst (cook (H := ReferenceFacts.node) 0%nat (Finite 256) Examples.pantry).
Proof.
  split; [|split].
  - apply (cook_bucket_count (H := ReferenceFacts.node) 0%nat
             Examples.empty_recipe Examples.pantry (Finite (5 # 2)) eq_refl);
      [reflexivity|].
    apply array_length_None. reflexivity.
  - apply (cook_bucket_count (H := ReferenceFacts.node) 0%nat
             Examples.empty_recipe Examples.pantry (Finite (-1)) eq_refl);
      [reflexivity|].
    apply array_length_None. reflexivity.
  - set (first := cook 0%nat (Finite 256) Examples.pantry).
    destruct (cook_bucket_count (H := ReferenceFacts.node) 0%nat
                (set_hash Examples.empty_recipe
                   (Some (match fst first with Return h => h | Throw _ => "" end)))
                (snd first) (Finite (-1))) as [_ Hcached].
    + vm_compute. reflexivity.
    + rewrite (Hcached _ eq_refl). vm_compute. reflexivity.
Defined.

(** ** C6 and C7: the two errors of [compareTo] *)

(** "not valid base64", by RFC 4648, section 4: groups of four characters of
    the alphabet [A-Z], [a-z], [0-9], [+], [/], the last group ending in at
    most two [=]. *)
Definition base64_alphabet (c : ascii) : bool :=
  let n := Z_of_byte c in
  ((65 <=? n) && (n <=? 90)) || ((97 <=? n) && (n <=? 122))
  || ((48 <=? n) && (n <=? 57)) || (n =? 43) || (n =? 47).

Fixpoint valid_base64 (s : string) : bool :=
  match s with
  | "" => true
  | String a (String b (String c (String d rest))) =>
      base64_alphabet a && base64_alphabet b
      && match rest with
         | "" =>
             (base64_alphabet c && (base64_alphabet d || Ascii.eqb d "="))
             || (Ascii.eqb c "=" && Ascii.eqb d "=")
         | _ => base64_alphabet c && base64_alphabet d && valid_base64 rest
         end
  | _ => false
  end.

(** The hash of the counters 1 and 2 with a line feed, a blank and an
    exclamation mark put in, [/] written [_], and the padding left out. *)
Definition malformed_hash : string :=
  "H4sI" ++ String "010" " AAAAAAAAAwABAP7_AQAB!AP7_AgEAAP__kkLMtgIAAAA".

(** C6.  [compareTo] never rejects an operand for not being base64:
    [Buffer.from(s, 'base64')] decodes every string.  It throws the error
    "Invalid hash format: unable to decompress", and returns no score, for
    every operand string whose decoded bytes are no gzip stream, as
    "not-base64!!"; an operand whose decoded bytes are a gzip stream is
    compared like any hash, with a score or the error of unequal lengths as
    the result. *)
Theorem compareTo_garbage `{Node} (this : loc) (r : Recipe) (st : store)
  (s : string) :
  st !! this = Some r ->
  (gunzipSync (fromBase64 s) = None ->
   exists st',
     compareTo this (OtherHash s) st
     = (Throw (Error "Invalid hash format: unable to decompress"), st'))
  /\ (forall (h : string) (st1 : store) (a b : list byte),
        cook this default_numBuckets st = (Return h, st1) ->
        gunzipSync (fromBase64 h) = Some a ->
        gunzipSync (fromBase64 s) = Some b ->
        (length a = length b ->
         exists x, compareTo this (OtherHash s) st = (Return x, st1))
        /\ (length a <> length b ->
            compareTo this (OtherHash s) st
            = (Throw (Error "Hashes must be of equal length"), st1))).
Proof.
  intros Hr. split.
  - intros Hgarbage.
    destruct (cook_default_returns this st r Hr) as (h & st1 & Hcook).
    exists st1.
    rewrite (compareTo_hashes this (OtherHash s) st st1 st1 h s Hcook eq_refl).
    rewrite (decompressHash_None s Hgarbage).
    destruct (decompressHash_cases h) as [(buf & _ & ->)| ->]; reflexivity.
  - intros h st1 a b Hcook Ha Hb.
    rewrite (compareTo_hashes this (OtherHash s) st st1 st1 h s Hcook eq_refl).
    rewrite (decompressHash_Some _ _ Ha), (decompressHash_Some _ _ Hb).
    split.
    + intros Hlen.
      destruct (compare_hex_buffers a b Hlen) as (x & -> & _).
      now exists x.
    + intros Hlen. now rewrite (compare_hex_mismatch a b Hlen).
Qed.

(** The garbage string of the specification. *)
Lemma compareTo_garbage_witness :
  exists st',
    compareTo (H := ReferenceFacts.node) 0%nat (OtherHash "not-base64!!")
      Examples.kitchen
    = (Throw (Error "Invalid hash format: unable to decompress"), st').
Proof.
  apply (compareTo_garbage (H := ReferenceFacts.node) 0%nat
           Examples.latteCaffe).
  - vm_compute. reflexivity.
  - vm_compute. reflexivity.
Defined.

(** A string that is not valid base64 and gets a score: against a recipe
    without tokens hashed into two buckets, [malformed_hash] decodes to the
    counters 1 and 2 and the result is [1 - 3 / 32]. *)
Theorem compareTo_malformed_base64 :
  let st := snd (cook (H := ReferenceFacts.node) 0%nat (Finite 2)
                   Examples.pantry) in
  valid_base64 malformed_hash = false
  /\ forallb (fun c => negb (base64_alphabet c))
       [" "; "!"; "_"; "010"]%char = true
  /\ decode (H := ReferenceFacts.node) malformed_hash
     = Return [Finite 1; Finite 2]
  /\ exists q st',
       compareTo (H := ReferenceFacts.node) 0%nat (OtherHash malformed_hash)
         st = (Return (Finite q), st')
       /\ q == 29 # 32.
Proof.
  split; [vm_compute; reflexivity|]. split; [vm_compute; reflexivity|].
  split; [vm_compute; reflexivity|].
  do 2 eexists. split; vm_compute; reflexivity.
Qed.



(** ** C3: the similarity of a recipe with itself *)

Section SelfSimilarity.
Context `{Node}.

Lemma total_distance_self (a : list Z) : total_distance a a = 0.
Proof.
  induction a as [|x a IH]; [reflexivity|].
  cbn [total_distance]. rewrite IH. lia.
Qed.

Lemma similarity_zero_distance (n : Z) : similarity 0 n == 1.
Proof. unfold similarity, Qdiv. change (inject_Z 0) with 0%Q. ring. Qed.

(** [compareTo] of an instance with itself: NaN when its hash decompresses
    to the empty histogram, 1 otherwise. *)
Lemma compareTo_self (this : loc) (st st1 : store) (h : string)
  (a : list byte) :
  cook this default_numBuckets st = (Return h, st1) ->
  gunzipSync (fromBase64 h) = Some a ->
  exists s,
    compareTo this (OtherRecipe this) st = (Return s, st1)
    /\ (a = [] -> s = NaN)
    /\ (a <> [] -> exists q, s = Finite q /\ q == 1).
Proof.
  intros Hcook Ha.
  pose proof (cook_again this default_numBuckets default_numBuckets st st1 h
                Hcook) as Hagain.
  rewrite (compareTo_hashes this (OtherRecipe this) st st1 st1 h h Hcook Hagain).
  rewrite (decompressHash_Some _ _ Ha).
  destruct (compare_hex_buffers a a eq_refl) as (s & Hs & Hnan & Hfin).
  exists s. rewrite Hs. split; [reflexivity|]. split.
  - intros ->. now apply Hnan.
  - intros Hne. destruct Hfin as (q & Hq & Hsim).
    + destruct a; [contradiction|discriminate].
    + exists q. split; [exact Hq|].
      rewrite Hsim, total_distance_self. apply binary64_similarity_0.
Qed.

Lemma hexdigit_hex (n : Z) :
  match hexval (hexdigit (n mod 16)) with Some _ => true | None => false end
  = true.
Proof.
  rewrite hexval_hexdigit; [reflexivity|].
  apply Z.mod_pos_bound. lia.
Qed.

Lemma hex_digits_hex (fuel : nat) (n : Z) (acc : string) :
  hex_string acc = true -> hex_string (hex_digits fuel n acc) = true.
Proof.
  revert n acc. induction fuel as [|fuel IH]; intros n acc Hacc; [exact Hacc|].
  cbn [hex_digits].
  assert (hex_string (String (hexdigit (n mod 16)) acc) = true) as Hacc'.
  { unfold hex_string in *. cbn [list_ascii_of_string forallb].
    now rewrite hexdigit_hex, Hacc. }
  destruct (n <? 16); [exact Hacc'|]. now apply IH.
Qed.

Lemma hex_digits_nonempty (fuel : nat) (n : Z) (acc : string) :
  hex_digits (S fuel) n acc <> "".
Proof.
  revert n acc. induction fuel as [|fuel IH]; intros n acc.
  - cbn [hex_digits]. destruct (n <? 16); discriminate.
  - change (hex_digits (S (S fuel)) n acc)
      with (let acc' := String (hexdigit (n mod 16)) acc in
            if n <? 16 then acc' else hex_digits (S fuel) (n / 16) acc').
    cbn zeta. destruct (n <? 16); [discriminate|apply IH].
Qed.

Lemma padStart2_hex (c : Z) :
  exists x y rest,
    padStart2 (toString16 c) = String x (String y rest)
    /\ hexval x <> None /\ hexval y <> None.
Proof.
  unfold toString16.
  pose proof (hex_digits_hex (S (Z.to_nat (Z.log2 c))) c "" eq_refl) as Hhex.
  pose proof (hex_digits_nonempty (Z.to_nat (Z.log2 c)) c "") as Hne.
  destruct (hex_digits _ c "") as [|x [|y rest]]; [contradiction| |].
  - exists "0"%char, x, "". split; [reflexivity|]. split; [discriminate|].
    unfold hex_string in Hhex. cbn [list_ascii_of_string forallb] in Hhex.
    destruct (hexval x); [discriminate|discriminate Hhex].
  - exists x, y, rest. split; [reflexivity|].
    unfold hex_string in Hhex. cbn [list_ascii_of_string forallb] in Hhex.
    destruct (hexval x); [|discriminate Hhex].
    destruct (hexval y); [|discriminate Hhex]. split; discriminate.
Qed.

Lemma Buffer_from_hexString_nonempty (buckets : list Z) :
  buckets <> [] -> Buffer_from_hex (hexString buckets) <> [].
Proof.
  destruct buckets as [|c l]; [contradiction|]. intros _.
  unfold hexString. cbn [map join fold_right].
  destruct (padStart2_hex c) as (x & y & rest & -> & Hx & Hy).
  set (tail := fold_right _ _ _).
  change (Buffer_from_hex (String x (String y (String.append rest tail))) <> []).
  cbn [Buffer_from_hex].
  destruct (hexval x); [|contradiction].
  destruct (hexval y); [|contradiction]. discriminate.
Qed.

(** The property holds for every instance that has not been cooked. *)
Lemma compareTo_self_fresh (this : loc) (st : store) (r : Recipe) :
  st !! this = Some r -> cached_hash r = None ->
  exists q st',
    compareTo this (OtherRecipe this) st = (Return (Finite q), st')
    /\ q == 1.
Proof.
  intros Hr Hc.
  pose proof (cook_compute this default_numBuckets st r _ Hr Hc
                (compute_hash_default r)) as Hcook.
  destruct (compareTo_self this st _ _
              (Buffer_from_hex (hexString (histogram r 256 (repeat 0 256%nat))))
              Hcook) as (s & Hs & _ & Hfin).
  - unfold encode. now rewrite fromBase64_toBase64, gunzip_gzip.
  - destruct Hfin as (q & -> & Hq).
    + apply Buffer_from_hexString_nonempty. intros Hnil.
      apply (f_equal (@length Z)) in Hnil.
      rewrite length_histogram in Hnil. discriminate.
    + eauto.
Qed.

End SelfSimilarity.

(** C3, at the input on which the code fails: an instance cooked with 0
    buckets compared with itself gives NaN, where the claim says 1. *)
Lemma compareTo_self_zero_buckets :
  let st := snd (cook (H := ReferenceFacts.node) 0%nat (Finite 0)
                   Examples.pantry) in
  fst (compareTo (H := ReferenceFacts.node) 0%nat (OtherRecipe 0%nat) st)
  = Return NaN.
Proof. vm_compute. reflexivity. Qed.

(** ** C4: the round trip of the codec *)

(** C4, as stated, fails: the histogram with the single counter 256 is
    rendered as the three digits "100", read back as the single byte 0x10. *)
Lemma decode_encode_overflow :
  Forall (fun c => 0 <= c) [256]
  /\ decode (H := ReferenceFacts.node) (encode (H := ReferenceFacts.node) [256])
     = Return [num_of_Z 16]
  /\ decode (H := ReferenceFacts.node) (encode (H := ReferenceFacts.node) [256])
     <> Return (map num_of_Z [256]).
Proof.
  split; [repeat constructor; lia|].
  split; [vm_compute; reflexivity|]. vm_compute. discriminate.
Qed.

(** C4, amended.  For every histogram whose counters are from 0 to 255, the
    hexadecimal rendering has two digits per counter, and decoding the
    encoding (base64 of the gzip stream of the bytes; base64-decoding,
    decompressing, one [parseInt] per two characters) gives back the
    counters in order. *)
Theorem codec_roundtrip `{Node} (buckets : list Z) :
  Forall (fun c => 0 <= c < 256) buckets ->
  String.length (hexString buckets) = (2 * length buckets)%nat
  /\ decode (encode buckets) = Return (map num_of_Z buckets).
Proof.
  intros Hrange. split; [|now apply decode_encode].
  rewrite hexString_bytes by assumption.
  rewrite length_Buffer_toString_hex, length_map. reflexivity.
Qed.

Lemma codec_roundtrip_witness :
  decode (H := ReferenceFacts.node)
    (encode (H := ReferenceFacts.node) [0; 1; 16; 255])
  = Return (map num_of_Z [0; 1; 16; 255]).
Proof.
  apply (codec_roundtrip (H := ReferenceFacts.node)).
  repeat constructor; lia.
Defined.

(** ** C8 and C9: which fields are hashed *)

Section Tokens.
Context `{Node}.

Lemma action_tokens_no_temperature (a : Action) :
  temperature a = None -> action_tokens a = action_head a ++ action_tail a.
Proof.
  intros Ha. unfold action_tokens. now rewrite Ha.
Qed.

Lemma action_tokens_with_temperature (a : Action) (t : Measurement) :
  action_tokens (with_temperature a t)
  = action_head a ++ VNumber (value_of t) :: action_tail a.
Proof. reflexivity. Qed.

Lemma step_gains_tokens (t : Measurement) (s s' : RecipeStep) :
  step_gains_temperature t s s' ->
  exists l1 l2,
    step_tokens s = l1 ++ l2
    /\ step_tokens s' = l1 ++ VNumber (value_of t) :: l2.
Proof.
  induction 1 as [pre a post ths cs adjs scs Ha
                 |acts pre s s' post cs adjs scs _ (l1 & l2 & Hs & Hs')].
  - exists (flat_map action_tokens pre ++ action_head a),
      (action_tail a ++ flat_map action_tokens post
       ++ flat_map cue_tokens cs ++ flat_map check_tokens scs
       ++ flat_map step_tokens ths).
    cbn [step_tokens actions cues sensoryChecks threads].
    rewrite !flat_map_app. cbn [flat_map].
    rewrite (action_tokens_no_temperature a Ha).
    rewrite action_tokens_with_temperature.
    split; rewrite <- ?app_assoc; reflexivity.
  - exists (flat_map action_tokens acts ++ flat_map cue_tokens cs
            ++ flat_map check_tokens scs ++ flat_map step_tokens pre ++ l1),
      (l2 ++ flat_map step_tokens post).
    cbn [step_tokens actions cues sensoryChecks threads].
    rewrite !flat_map_app. cbn [flat_map]. rewrite Hs, Hs'.
    split; rewrite <- ?app_assoc; reflexivity.
Qed.

Lemma recipe_gains_tokens (t : Measurement) (r r' : Recipe) :
  recipe_gains_temperature t r r' ->
  exists l1 l2,
    recipe_tokens r = l1 ++ l2
    /\ recipe_tokens r' = l1 ++ VNumber (value_of t) :: l2.
Proof.
  intros (Hing & pre & s & s' & post & Hsteps & Hsteps' & Hgain).
  destruct (step_gains_tokens t s s' Hgain) as (l1 & l2 & Hs & Hs').
  exists (map (fun e => VString (name e)) (ingredients r)
          ++ flat_map step_tokens pre ++ l1),
    (l2 ++ flat_map step_tokens post).
  unfold recipe_tokens. rewrite Hing, Hsteps, Hsteps'.
  rewrite !flat_map_app. cbn [flat_map]. rewrite Hs, Hs'.
  split; rewrite <- ?app_assoc; reflexivity.
Qed.

Lemma step_tokens_strip (s : RecipeStep) :
  step_tokens (strip_adjustments s) = step_tokens s.
Proof.
  induction s as [acts ths cs adjs scs IH] using RecipeStep_threads_ind.
  cbn [strip_adjustments step_tokens actions cues sensoryChecks threads].
  do 3 f_equal.
  induction IH as [|th ths Hth _ IHths]; [reflexivity|].
  cbn [map flat_map]. now rewrite Hth, IHths.
Qed.

Lemma flat_map_step_tokens_strip (l : list RecipeStep) :
  flat_map step_tokens (map strip_adjustments l) = flat_map step_tokens l.
Proof.
  induction l as [|s l IH]; [reflexivity|].
  cbn [map flat_map]. now rewrite step_tokens_strip, IH.
Qed.

Lemma recipe_tokens_strip (r1 r2 : Recipe) :
  ingredients r1 = ingredients r2 ->
  map strip_adjustments (steps r1) = map strip_adjustments (steps r2) ->
  recipe_tokens r1 = recipe_tokens r2.
Proof.
  intros Hing Hsteps. unfold recipe_tokens. rewrite Hing.
  rewrite <- (flat_map_step_tokens_strip (steps r1)), Hsteps.
  now rewrite flat_map_step_tokens_strip.
Qed.

End Tokens.

(** C8.  [undefined] and [null] are never hashed: [_hashAttribute] leaves
    the buckets as they are for them, and an action contributes its type and
    one token for each of ingredient, container, temperature and duration
    that is present, its type alone when all four are absent.  So two recipes
    that are identical except that one action has a temperature in the second
    and none in the first have histograms that differ by exactly the
    increment [_hashAttribute] makes for the temperature value: for a
    positive bucket count, one more in the bucket of that value (the first
    four bytes of its digest modulo the count) and the same elsewhere. *)
Theorem null_fields_skipped `{Node} (t : Measurement) (r r' : Recipe) :
  recipe_gains_temperature t r r' ->
  (forall buckets n,
      _hashAttribute VUndefined buckets n = buckets
      /\ _hashAttribute VNull buckets n = buckets)
  /\ (forall a buckets n,
        hashAction n buckets a = hash_values n (action_tokens a) buckets)
  /\ (forall a buckets n,
        ingredient a = None -> container a = None ->
        temperature a = None -> duration a = None ->
        hashAction n buckets a
        = _hashAttribute (VString (action_type a)) buckets n)
  /\ (forall n,
        let zeros := repeat 0 (Z.to_nat n) in
        histogram r' n zeros
        = _hashAttribute (VNumber (value_of t)) (histogram r n zeros) n)
  /\ (forall n,
        0 < n ->
        let i := token_bucket (VNumber (value_of t)) n in
        let zeros := repeat 0 (Z.to_nat n) in
        0 <= i < n
        /\ length (histogram r n zeros) = Z.to_nat n
        /\ histogram r' n zeros
           = alter Z.succ (Z.to_nat i) (histogram r n zeros)).
Proof.
  intros Hgain.
  destruct (recipe_gains_tokens t r r' Hgain) as (l1 & l2 & Hr & Hr').
  assert (forall n buckets,
             histogram r' n buckets
             = _hashAttribute (VNumber (value_of t)) (histogram r n buckets) n)
    as Hdiff.
  { intros n b. now rewrite !histogram_tokens, Hr, Hr', hash_values_insert. }
  split; [intros; split; reflexivity|].
  split; [intros; apply hashAction_tokens|].
  split.
  { intros a b n Hi Hc Ht Hd. unfold hashAction.
    now rewrite Hi, Hc, Ht, Hd. }
  split; [intros n zeros; apply Hdiff|].
  intros n Hn i zeros.
  destruct (value_index_token (VNumber (value_of t)) n Hn)
    as [Hidx Hrange]; [discriminate|discriminate|].
  split; [exact Hrange|].
  split; [unfold zeros; now rewrite length_histogram, repeat_length|].
  now rewrite Hdiff, hashAttribute_increment, Hidx.
Qed.

(** The recipe of [examples/latte_caffe.js], whose heat action has no
    temperature, and the same recipe heated at [Temperature(3, 'level')]:
    the second histogram has one more in bucket 126, the first four bytes of
    the MD5 digest of "3" being [ec cb c8 7e]. *)
Lemma null_fields_skipped_witness :
  token_bucket (H := ReferenceFacts.node) (VNumber (Finite 3)) 256 = 126
  /\ histogram (H := ReferenceFacts.node) Examples.latteCaffe_medium 256
       (repeat 0 256%nat)
     = alter Z.succ 126%nat
         (histogram (H := ReferenceFacts.node) Examples.latteCaffe 256
            (repeat 0 256%nat)).
Proof.
  split; [vm_compute; reflexivity|].
  refine (proj2 (proj2
            (proj2 (proj2 (proj2 (proj2
               (null_fields_skipped (H := ReferenceFacts.node) Examples.medium
                  Examples.latteCaffe Examples.latteCaffe_medium _))))
               256 _))).
  - split; [reflexivity|].
    exists [Examples.step1], Examples.step2, Examples.step2_medium, [].
    split; [reflexivity|]. split; [reflexivity|].
    exact (gains_in_action Examples.medium [] Examples.heat_one_minute []
             [] [] [] [] eq_refl).
  - lia.
Defined.

(** * Further properties of the hash and of the comparison *)

(** The fields of an instance other than its cached hash. *)
Definition content (r : Recipe) : Recipe := set_hash r None.

(** Two results of [compareTo] that are the same outcome: the same
    exception, or scores that are equal as numbers. *)
Definition same_outcome (c1 c2 : completion number) : Prop :=
  match c1, c2 with
  | Return s1, Return s2 => num_eq s1 s2
  | Throw e1, Throw e2 => e1 = e2
  | _, _ => False
  end.

(** The sum of the counters of a histogram. *)
Definition total (buckets : list Z) : Z := fold_right Z.add 0 buckets.

(** The methods of [Recipe] among the mutations, as opposed to assignments
    to its fields. *)
Definition is_method (m : mutation) : bool :=
  match m with
  | assign_ingredients _ | assign_steps _ => false
  | _ => true
  end.

Section Comparison.
Context `{Node}.

(** ** What [cook] and [compareTo] do to the store *)

Lemma cook_content (this : loc) (numBuckets : number) (st st' : store)
  (c : completion string) :
  cook this numBuckets st = (c, st') ->
  forall l, content <$> (st' !! l) = content <$> (st !! l).
Proof.
  intros Hcook l.
  destruct (st !! this) as [r|] eqn:Hr;
    [|rewrite (cook_dangling _ _ _ Hr) in Hcook; now injection Hcook as <- <-].
  destruct (cached_hash r) as [h0|] eqn:Hc;
    [rewrite (cook_cached _ _ _ _ _ Hr Hc) in Hcook;
     now injection Hcook as <- <-|].
  destruct (compute_hash r numBuckets) as [h1|e1] eqn:Hh.
  - rewrite (cook_compute _ _ _ _ _ Hr Hc Hh) in Hcook.
    injection Hcook as <- <-.
    destruct (decide (this = l)) as [<-|Hne].
    + rewrite lookup_alter_eq, Hr. reflexivity.
    + now rewrite lookup_alter_ne.
  - rewrite (cook_throw _ _ _ _ _ Hr Hc Hh) in Hcook.
    now injection Hcook as <- <-.
Qed.

Lemma cook_other (this : loc) (numBuckets : number) (st st' : store)
  (c : completion string) (l : loc) :
  cook this numBuckets st = (c, st') -> l <> this -> st' !! l = st !! l.
Proof.
  intros Hcook Hne.
  destruct (st !! this) as [r|] eqn:Hr;
    [|rewrite (cook_dangling _ _ _ Hr) in Hcook; now injection Hcook as <- <-].
  destruct (cached_hash r) as [h0|] eqn:Hc;
    [rewrite (cook_cached _ _ _ _ _ Hr Hc) in Hcook;
     now injection Hcook as <- <-|].
  destruct (compute_hash r numBuckets) as [h1|e1] eqn:Hh.
  - rewrite (cook_compute _ _ _ _ _ Hr Hc Hh) in Hcook.
    injection Hcook as <- <-. now rewrite lookup_alter_ne.
  - rewrite (cook_throw _ _ _ _ _ Hr Hc Hh) in Hcook.
    now injection Hcook as <- <-.
Qed.

(** The result of [cook] depends on the store through the instance only. *)
Lemma cook_local (this : loc) (numBuckets : number) (st1 st2 : store) :
  st1 !! this = st2 !! this ->
  fst (cook this numBuckets st1) = fst (cook this numBuckets st2).
Proof.
  intros Heq. unfold cook, bind, deref. rewrite Heq.
  destruct (st2 !! this) as [r|]; [|reflexivity].
  destruct (cached_hash r); [reflexivity|].
  unfold lift. destruct (compute_hash r numBuckets); reflexivity.
Qed.

(** [compareTo], call by call. *)
Lemma compareTo_steps (this : loc) (other : operand) (st : store) :
  compareTo this other st
  = match cook this default_numBuckets st with
    | (Throw e, st1) => (Throw e, st1)
    | (Return h1, st1) =>
        match decompressHash h1 with
        | Throw e => (Throw e, st1)
        | Return thisHash =>
            match operand_hash other st1 with
            | (Throw e, st2) => (Throw e, st2)
            | (Return h2, st2) =>
                match decompressHash h2 with
                | Throw e => (Throw e, st2)
                | Return otherHash => (compare_hex thisHash otherHash, st2)
                end
            end
        end
    end.
Proof.
  destruct (cook this default_numBuckets st) as [[h1|e] st1] eqn:Hthis.
  - destruct (operand_hash other st1) as [[h2|e] st2] eqn:Hother.
    + now rewrite (compareTo_hashes _ _ _ _ _ _ _ Hthis Hother).
    + unfold compareTo, bind at 1. rewrite Hthis.
      unfold bind at 1, lift at 1.
      destruct (decompressHash h1) as [thisHash|e']; [|reflexivity].
      unfold bind at 1. destruct other as [o|s]; cbn [operand_hash] in Hother.
      * unfold bind at 1. now rewrite Hother.
      * discriminate.
  - unfold compareTo, bind at 1. now rewrite Hthis.
Qed.

Lemma operand_hash_content (other : operand) (st st' : store)
  (c : completion string) :
  operand_hash other st = (c, st') ->
  forall l, content <$> (st' !! l) = content <$> (st !! l).
Proof.
  destruct other as [o|s]; cbn [operand_hash].
  - apply cook_content.
  - intros [= <- <-]. reflexivity.
Qed.

(** The stores that [compareTo] goes through. *)
Lemma compareTo_stores (this : loc) (other : operand) (st st' : store)
  (c : completion number) :
  compareTo this other st = (c, st') ->
  exists c1 st1,
    cook this default_numBuckets st = (c1, st1)
    /\ (st' = st1 \/ exists c2, operand_hash other st1 = (c2, st')).
Proof.
  rewrite compareTo_steps.
  destruct (cook this default_numBuckets st) as [[h1|e] st1] eqn:Hthis.
  - destruct (decompressHash h1).
    + destruct (operand_hash other st1) as [[h2|e] st2] eqn:Hother.
      * destruct (decompressHash h2); intros [= <- <-]; eauto 6.
      * intros [= <- <-]. eauto 6.
    + intros [= <- <-]. eauto.
  - intros [= <- <-]. eauto.
Qed.

End Comparison.

(** X1.  [cook] and [compareTo] change nothing but cached hashes: after
    either, every reference of the store holds an instance with the fields
    it had, up to [hash], and no instance is added or removed; [cook]
    leaves every other instance exactly as it was, and [compareTo] against a
    string leaves every instance but [this] exactly as it was. *)
Theorem cook_compareTo_frame `{Node} (this : loc) (st : store) :
  (forall numBuckets c st',
      cook this numBuckets st = (c, st') ->
      (forall l, content <$> (st' !! l) = content <$> (st !! l))
      /\ (forall l, l <> this -> st' !! l = st !! l))
  /\ (forall other c st',
        compareTo this other st = (c, st') ->
        (forall l, content <$> (st' !! l) = content <$> (st !! l))
        /\ (forall l s, other = OtherHash s -> l <> this ->
              st' !! l = st !! l)).
Proof.
  split.
  - intros nb c st' Hcook. split.
    + now apply (cook_content this nb st st' c).
    + intros l Hne. now apply (cook_other this nb st st' c).
  - intros other c st' Hcmp.
    destruct (compareTo_stores this other st st' c Hcmp)
      as (c1 & st1 & Hthis & Hst').
    split.
    + intros l. destruct Hst' as [->|(c2 & Hother)].
      * now apply (cook_content _ _ _ _ _ Hthis).
      * rewrite (operand_hash_content _ _ _ _ Hother l).
        now apply (cook_content _ _ _ _ _ Hthis).
    + intros l s -> Hne. destruct Hst' as [->|(c2 & Hother)].
      * now apply (cook_other _ _ _ _ _ l Hthis).
      * cbn [operand_hash] in Hother. injection Hother as _ <-.
        now apply (cook_other _ _ _ _ _ l Hthis).
Qed.

Lemma cook_compareTo_frame_witness :
  snd (compareTo (H := ReferenceFacts.node) 0%nat (OtherHash "x")
         Examples.kitchen) !! 1%nat
  = Examples.kitchen !! 1%nat.
Proof.
  destruct (cook_compareTo_frame (H := ReferenceFacts.node) 0%nat
              Examples.kitchen) as [_ Hcmp].
  destruct (compareTo 0%nat (OtherHash "x") Examples.kitchen)
    as [c st'] eqn:E.
  destruct (Hcmp _ _ _ E) as [_ Hrest].
  apply (Hrest 1%nat "x"); [reflexivity|discriminate].
Defined.

Section Scores.
Context `{Node}.

Lemma cook_keeps_cached (l this : loc) (numBuckets : number) (st st' : store)
  (c : completion string) (r : Recipe) (h : string) :
  st !! l = Some r -> cached_hash r = Some h ->
  cook this numBuckets st = (c, st') ->
  exists r', st' !! l = Some r' /\ cached_hash r' = Some h.
Proof.
  intros Hr Hc Hcook. destruct (decide (l = this)) as [->|Hne].
  - rewrite (cook_cached _ _ _ _ _ Hr Hc) in Hcook.
    injection Hcook as _ <-. eauto.
  - rewrite (cook_other _ _ _ _ _ l Hcook Hne). eauto.
Qed.

Lemma cook_in_store (l this : loc) (numBuckets : number) (st st' : store)
  (c : completion string) (r : Recipe) :
  st !! l = Some r -> cook this numBuckets st = (c, st') ->
  exists r', st' !! l = Some r'.
Proof.
  intros Hr Hcook. pose proof (cook_content _ _ _ _ _ Hcook l) as Hl.
  rewrite Hr in Hl. destruct (st' !! l) as [r'|]; [eauto|discriminate].
Qed.

(** [cook()] on two instances, in either order, returns the same two
    strings. *)
Lemma cook_both_orders (a b : loc) (st : store) (ra rb : Recipe) :
  st !! a = Some ra -> st !! b = Some rb ->
  exists ha hb sta stab stb stba,
    cook a default_numBuckets st = (Return ha, sta)
    /\ cook b default_numBuckets sta = (Return hb, stab)
    /\ cook b default_numBuckets st = (Return hb, stb)
    /\ cook a default_numBuckets stb = (Return ha, stba).
Proof.
  intros Ha Hb.
  destruct (cook_default_returns a st ra Ha) as (ha & sta & Hca).
  destruct (cook_default_returns b st rb Hb) as (hb & stb & Hcb).
  destruct (cook_in_store b a _ _ _ _ rb Hb Hca) as (rb' & Hb').
  destruct (cook_in_store a b _ _ _ _ ra Ha Hcb) as (ra' & Ha').
  destruct (cook_default_returns b sta rb' Hb') as (hb2 & stab & Hcab).
  destruct (cook_default_returns a stb ra' Ha') as (ha2 & stba & Hcba).
  assert (hb2 = hb /\ ha2 = ha) as [-> ->].
  { destruct (decide (a = b)) as [->|Hne].
    - rewrite Hca in Hcb. injection Hcb as -> ->.
      rewrite (cook_again _ _ default_numBuckets _ _ _ Hca) in Hcab, Hcba.
      injection Hcab as <- _. injection Hcba as <- _. auto.
    - split.
      + pose proof (cook_local b default_numBuckets sta st
                      (cook_other _ _ _ _ _ b Hca (not_eq_sym Hne))) as Hl.
        rewrite Hcab, Hcb in Hl. now injection Hl.
      + pose proof (cook_local a default_numBuckets stb st
                      (cook_other _ _ _ _ _ a Hcb Hne)) as Hl.
        rewrite Hcba, Hca in Hl. now injection Hl. }
  exists ha, hb, sta, stab, stb, stba. auto.
Qed.

Lemma total_distance_sym (a b : list Z) :
  total_distance a b = total_distance b a.
Proof.
  revert b. induction a as [|x a IH]; intros [|y b]; cbn [total_distance];
    try reflexivity.
  rewrite (IH b). lia.
Qed.

Lemma total_distance_zero (a b : list Z) :
  length a = length b -> (total_distance a b = 0 <-> a = b).
Proof.
  revert b. induction a as [|x a IH]; intros [|y b] Hlen; try discriminate.
  - split; reflexivity.
  - cbn [total_distance]. injection Hlen as Hlen.
    pose proof (total_distance_nonneg a b). specialize (IH b Hlen). split.
    + intros Hz. assert (x = y) as -> by lia.
      f_equal. apply IH. lia.
    + intros [= -> ->]. rewrite (proj2 IH eq_refl). lia.
Qed.

Lemma counters_inj (a b : list byte) : counters a = counters b -> a = b.
Proof.
  unfold counters. revert b.
  induction a as [|x a IH]; intros [|y b]; cbn [map]; try discriminate.
  - reflexivity.
  - intros [= Hxy Hab]. f_equal; [|now apply IH].
    now rewrite <- (byte_of_Z_of_byte x), Hxy, byte_of_Z_of_byte.
Qed.

Lemma similarity_eq (d1 d2 n : Z) :
  0 < n -> similarity d1 n == similarity d2 n <-> d1 = d2.
Proof.
  destruct n as [|p|p]; try lia. intros _.
  rewrite !similarity_fraction. unfold Qeq. cbn [Qnum Qden]. nia.
Qed.

End Scores.

(** X2.  [compareTo] caches: whatever its outcome, [this] holds a hash
    afterwards, which every later [cook], with any bucket count, returns;
    when [compareTo] returned a score or failed on the lengths, the same
    holds for the recipe it was compared with. *)
Theorem compareTo_caches `{Node} (this : loc) (other : operand)
  (st st' : store) (c : completion number) (r : Recipe) :
  st !! this = Some r ->
  compareTo this other st = (c, st') ->
  (exists h, forall numBuckets, cook this numBuckets st' = (Return h, st'))
  /\ (forall o,
        other = OtherRecipe o ->
        (exists s, c = Return s)
        \/ c = Throw (Error "Hashes must be of equal length") ->
        exists h, forall numBuckets, cook o numBuckets st' = (Return h, st')).
Proof.
  intros Hr Hcmp.
  destruct (cook_default_returns this st r Hr) as (h1 & st1 & Hthis).
  destruct (cook_returns _ _ _ _ _ Hthis) as (r1 & Hr1 & Hc1).
  rewrite compareTo_steps, Hthis in Hcmp.
  destruct (decompressHash_cases h1) as [(a & _ & Ha)|Ha]; rewrite Ha in Hcmp.
  - destruct (operand_hash other st1) as [[h2|e] st2] eqn:Hother.
    + assert (st' = st2) as ->
        by (destruct (decompressHash h2); now injection Hcmp).
      assert (exists r2, st2 !! this = Some r2 /\ cached_hash r2 = Some h1)
        as (r2 & Hr2 & Hc2).
      { destruct other as [o|s]; cbn [operand_hash] in Hother.
        - now apply (cook_keeps_cached this o _ _ _ _ r1 h1 Hr1 Hc1 Hother).
        - injection Hother as _ <-. eauto. }
      split.
      * exists h1. intros nb. now apply (cook_cached _ _ _ r2).
      * intros o -> _. cbn [operand_hash] in Hother.
        exists h2. intros nb. now apply (cook_again _ _ _ _ _ _ Hother).
    + injection Hcmp as <- <-. split.
      * destruct other as [o|s]; cbn [operand_hash] in Hother; [|discriminate].
        destruct (cook_keeps_cached this o _ _ _ _ r1 h1 Hr1 Hc1 Hother)
          as (r2 & Hr2 & Hc2).
        exists h1. intros nb. now apply (cook_cached _ _ _ r2).
      * intros o -> [(s & Hs)|Hs]; [discriminate|].
        injection Hs as ->. cbn [operand_hash] in Hother.
        destruct (st1 !! o) as [ro|] eqn:Hro.
        -- destruct (cook_default_returns o st1 ro Hro) as (? & ? & Hco).
           rewrite Hco in Hother. discriminate.
        -- rewrite (cook_dangling _ _ _ Hro) in Hother. discriminate.
  - injection Hcmp as <- <-. split.
    + exists h1. intros nb. now apply (cook_cached _ _ _ r1).
    + intros o _ [(s & Hs)|Hs]; discriminate.
Qed.

(** A comparison fixes the bucket count of both recipes of [examples/] at
    256: [cook(16)] afterwards returns the hash of 256 buckets. *)
Lemma compareTo_caches_witness :
  let after :=
    snd (compareTo (H := ReferenceFacts.node) 0%nat (OtherRecipe 1%nat)
           Examples.kitchen) in
  fst (cook (H := ReferenceFacts.node) 1%nat (Finite 16) after)
  = fst (cook (H := ReferenceFacts.node) 1%nat (Finite 256) Examples.kitchen).
Proof.
  intros after.
  destruct (compareTo_caches (H := ReferenceFacts.node) 0%nat
              (OtherRecipe 1%nat) Examples.kitchen after
              (fst (compareTo (H := ReferenceFacts.node) 0%nat
                      (OtherRecipe 1%nat) Examples.kitchen))
              Examples.latteCaffe) as [_ Hother].
  - vm_compute. reflexivity.
  - unfold after. now destruct (compareTo _ _ _).
  - destruct (Hother 1%nat eq_refl) as (h & Hh).
    + left. eexists. vm_compute. reflexivity.
    + rewrite (Hh (Finite 16)). cbn [fst].
      specialize (Hh (Finite 256)). vm_compute in Hh.
      injection Hh as <-. vm_compute. reflexivity.
Defined.

(** X3.  [compareTo] is symmetric: [a.compareTo(b)] and [b.compareTo(a)]
    have the same outcome, the same exception or equal scores. *)
Theorem compareTo_symmetric `{Node} (a b : loc) (st : store)
  (ra rb : Recipe) :
  st !! a = Some ra -> st !! b = Some rb ->
  same_outcome (fst (compareTo a (OtherRecipe b) st))
               (fst (compareTo b (OtherRecipe a) st)).
Proof.
  intros Ha Hb.
  destruct (cook_both_orders a b st ra rb Ha Hb)
    as (ha & hb & sta & stab & stb & stba & Hca & Hcab & Hcb & Hcba).
  rewrite (compareTo_hashes a (OtherRecipe b) st sta stab ha hb Hca Hcab).
  rewrite (compareTo_hashes b (OtherRecipe a) st stb stba hb ha Hcb Hcba).
  destruct (decompressHash_cases ha) as [(x & _ & ->)| ->];
    destruct (decompressHash_cases hb) as [(y & _ & ->)| ->];
    cbn [fst same_outcome]; try reflexivity.
  destruct (decide (length x = length y)) as [Hlen|Hlen].
  - destruct (compare_hex_buffers x y Hlen) as (s1 & -> & Hnan1 & Hfin1).
    destruct (compare_hex_buffers y x (eq_sym Hlen))
      as (s2 & -> & Hnan2 & Hfin2).
    destruct (decide (length x = 0%nat)) as [Hz|Hnz].
    + rewrite (Hnan1 Hz), (Hnan2 (eq_trans (eq_sym Hlen) Hz)). exact I.
    + destruct (Hfin1 Hnz) as (q1 & -> & Hq1).
      destruct Hfin2 as (q2 & -> & Hq2); [congruence|].
      assert (q1 == q2) as Hgoal
        by (rewrite Hq1, Hq2, Hlen, total_distance_sym; reflexivity).
      exact Hgoal.
  - rewrite (compare_hex_mismatch x y Hlen).
    rewrite (compare_hex_mismatch y x (not_eq_sym Hlen)). reflexivity.
Qed.

Lemma compareTo_symmetric_witness :
  same_outcome
    (fst (compareTo (H := ReferenceFacts.node) 0%nat (OtherRecipe 1%nat)
            Examples.kitchen))
    (fst (compareTo (H := ReferenceFacts.node) 1%nat (OtherRecipe 0%nat)
            Examples.kitchen)).
Proof.
  apply (compareTo_symmetric (H := ReferenceFacts.node) 0%nat 1%nat
           Examples.kitchen Examples.latteCaffe Examples.latteBiscotti).
  - vm_compute. reflexivity.
  - vm_compute. reflexivity.
Defined.

(** X4.  Comparing with a recipe and comparing with the hash string that
    [cook()] returns for that recipe have the same result. *)
Theorem compareTo_recipe_or_hash `{Node} (a b : loc) (st stb : store)
  (ra : Recipe) (hb : string) :
  st !! a = Some ra ->
  cook b default_numBuckets st = (Return hb, stb) ->
  fst (compareTo a (OtherRecipe b) st) = fst (compareTo a (OtherHash hb) st).
Proof.
  intros Ha Hcb.
  destruct (st !! b) as [rb|] eqn:Hb;
    [|rewrite (cook_dangling _ _ _ Hb) in Hcb; discriminate].
  destruct (cook_both_orders a b st ra rb Ha Hb)
    as (ha & hb' & sta & stab & stb' & stba & Hca & Hcab & Hcb' & _).
  rewrite Hcb in Hcb'. injection Hcb' as <- _.
  rewrite (compareTo_hashes a (OtherRecipe b) st sta stab ha hb Hca Hcab).
  rewrite (compareTo_hashes a (OtherHash hb) st sta sta ha hb Hca eq_refl).
  destruct (decompressHash ha); [|reflexivity].
  destruct (decompressHash hb); reflexivity.
Qed.

Lemma compareTo_recipe_or_hash_witness :
  fst (compareTo (H := ReferenceFacts.node) 0%nat (OtherRecipe 1%nat)
         Examples.kitchen)
  = fst (compareTo (H := ReferenceFacts.node) 0%nat
           (OtherHash
              (match fst (cook (H := ReferenceFacts.node) 1%nat (Finite 256)
                            Examples.kitchen) with
               | Return h => h
               | Throw _ => ""
               end))
           Examples.kitchen).
Proof.
  eapply (compareTo_recipe_or_hash (H := ReferenceFacts.node) 0%nat 1%nat
            Examples.kitchen).
  - vm_compute. reflexivity.
  - vm_compute. reflexivity.
Defined.

(** X5.  A score is at most 1, and it is 1 exactly when the two decoded
    histograms are the same: for operands whose histograms [a] and [b] have
    equal, non-zero length, [compareTo] returns a [q] with [q <= 1], which is
    1 when [a = b]; and, up to [2^32] counters, only when [a = b].  (The
    hex strings that [compareTo] walks are strings of V8, which are shorter
    than [2^30] characters; without a bound the quotient of a small distance
    is lost when the difference from 1 is rounded, see
    [binary64_similarity_absorbed].) *)
Theorem compareTo_score_one `{Node} (this : loc) (other : operand)
  (st st1 st2 : store) (h1 h2 : string) (a b : list byte) :
  cook this default_numBuckets st = (Return h1, st1) ->
  operand_hash other st1 = (Return h2, st2) ->
  gunzipSync (fromBase64 h1) = Some a ->
  gunzipSync (fromBase64 h2) = Some b ->
  length a = length b -> a <> [] ->
  exists q,
    compareTo this other st = (Return (Finite q), st2)
    /\ (q <= 1)%Q
    /\ (a = b -> q == 1)
    /\ (Z.of_nat (length a) <= 2 ^ 32 -> q == 1 -> a = b).
Proof.
  intros Hthis Hother Ha Hb Hlen Hne.
  rewrite (compareTo_hashes _ _ _ _ _ _ _ Hthis Hother).
  rewrite (decompressHash_Some _ _ Ha), (decompressHash_Some _ _ Hb).
  destruct (compare_hex_buffers a b Hlen) as (s & -> & _ & Hfin).
  destruct Hfin as (q & -> & Hq); [now destruct a|].
  exists q. split; [reflexivity|].
  assert (0 < Z.of_nat (length a)) as Hn by (destruct a; [contradiction|cbn; lia]).
  pose proof (total_distance_nonneg (counters a) (counters b)) as Hd.
  split; [|split].
  - rewrite Hq, <- (binary64_similarity_0 (Z.of_nat (length a))).
    now apply binary64_similarity_le.
  - intros <-. rewrite Hq, total_distance_self. apply binary64_similarity_0.
  - intros Hmax Hone. apply counters_inj.
    apply total_distance_zero; [unfold counters; now rewrite !length_map|].
    destruct (Z.eq_dec (total_distance (counters a) (counters b)) 0)
      as [Hz|Hz]; [exact Hz|].
    exfalso. rewrite Hq in Hone.
    pose proof (binary64_similarity_lt_1
                  (total_distance (counters a) (counters b))
                  (Z.of_nat (length a))) as Hlt.
    rewrite Hone in Hlt. apply (Qlt_irrefl 1). apply Hlt; lia.
Qed.

Lemma compareTo_score_one_witness :
  exists q st',
    compareTo (H := ReferenceFacts.node) 0%nat (OtherRecipe 1%nat)
      Examples.kitchen = (Return (Finite q), st')
    /\ (q <= 1)%Q /\ ~ q == 1.
Proof.
  edestruct (compareTo_score_one (H := ReferenceFacts.node) 0%nat
               (OtherRecipe 1%nat) Examples.kitchen)
    as (q & Hq & Hle & _ & Hone).
  - vm_compute. reflexivity.
  - vm_compute. reflexivity.
  - vm_compute. reflexivity.
  - vm_compute. reflexivity.
  - reflexivity.
  - discriminate.
  - exists q. eexists. split; [exact Hq|]. split; [exact Hle|].
    intros H1. apply Hone in H1; [|vm_compute; discriminate].
    vm_compute in H1. discriminate.
Defined.

(** X6.  A score is at least [1 - 255/16]: a counter read back from a hash
    is one byte, so the distance of two histograms of N counters is at most
    [255 * N]. *)
Theorem compareTo_score_floor `{Node} (this : loc) (other : operand)
  (st st1 st2 : store) (h1 h2 : string) (a b : list byte) :
  cook this default_numBuckets st = (Return h1, st1) ->
  operand_hash other st1 = (Return h2, st2) ->
  gunzipSync (fromBase64 h1) = Some a ->
  gunzipSync (fromBase64 h2) = Some b ->
  length a = length b -> a <> [] ->
  exists q,
    compareTo this other st = (Return (Finite q), st2)
    /\ (- (239 # 16) <= q)%Q.
Proof.
  intros Hthis Hother Ha Hb Hlen Hne.
  rewrite (compareTo_hashes _ _ _ _ _ _ _ Hthis Hother).
  rewrite (decompressHash_Some _ _ Ha), (decompressHash_Some _ _ Hb).
  destruct (compare_hex_buffers a b Hlen) as (s & -> & _ & Hfin).
  destruct Hfin as (q & -> & Hq); [now destruct a|].
  exists q. split; [reflexivity|].
  assert (0 < Z.of_nat (length a)) as Hn by (destruct a; [contradiction|cbn; lia]).
  rewrite Hq, <- (binary64_similarity_floor (Z.of_nat (length a)) Hn).
  apply binary64_similarity_le; [exact Hn|].
  apply total_distance_counters_le.
Qed.

(** The floor is reached: a recipe without tokens against the hash of 256
    counters of 255. *)
Lemma compareTo_score_floor_witness :
  exists q st',
    compareTo (H := ReferenceFacts.node) 0%nat
      (OtherHash (encode (H := ReferenceFacts.node) (repeat 255 256%nat)))
      Examples.pantry = (Return (Finite q), st')
    /\ (- (239 # 16) <= q)%Q /\ q == - (239 # 16).
Proof.
  edestruct (compareTo_score_floor (H := ReferenceFacts.node) 0%nat
               (OtherHash (encode (H := ReferenceFacts.node)
                             (repeat 255 256%nat)))
               Examples.pantry)
    as (q & Hq & Hle).
  - vm_compute. reflexivity.
  - vm_compute. reflexivity.
  - vm_compute. reflexivity.
  - vm_compute. reflexivity.
  - reflexivity.
  - discriminate.
  - exists q. eexists. split; [exact Hq|]. split; [exact Hle|].
    vm_compute in Hq. injection Hq as <-. vm_compute. reflexivity.
Defined.

Section Counting.
Context `{Node}.

(** A value that [_hashAttribute] hashes. *)
Definition hashable (v : value) : Prop := v <> VUndefined /\ v <> VNull.

Lemma action_tokens_hashable (a : Action) : Forall hashable (action_tokens a).
Proof.
  unfold action_tokens, action_head, action_tail.
  destruct (ingredient a), (container a), (temperature a) as [[t|s]|],
    (duration a); cbn [app]; repeat constructor; discriminate.
Qed.

Lemma Forall_flat_map {A B} (P : B -> Prop) (f : A -> list B) (l : list A) :
  Forall (fun x => Forall P (f x)) l -> Forall P (flat_map f l).
Proof.
  induction 1 as [|x l Hx _ IH]; cbn [flat_map]; [constructor|].
  apply Forall_app. split; assumption.
Qed.

Lemma step_tokens_hashable (s : RecipeStep) : Forall hashable (step_tokens s).
Proof.
  induction s as [acts ths cs adjs scs IH] using RecipeStep_threads_ind.
  cbn [step_tokens actions cues sensoryChecks threads].
  repeat (apply Forall_app; split).
  - apply Forall_flat_map, Forall_forall. intros a _.
    apply action_tokens_hashable.
  - apply Forall_flat_map, Forall_forall. intros c _.
    repeat constructor; discriminate.
  - apply Forall_flat_map, Forall_forall. intros c _.
    repeat constructor; discriminate.
  - apply Forall_flat_map. exact IH.
Qed.

Lemma recipe_tokens_hashable (r : Recipe) : Forall hashable (recipe_tokens r).
Proof.
  unfold recipe_tokens. apply Forall_app. split.
  - apply Forall_forall. intros v Hv. apply list_elem_of_In in Hv.
    apply in_map_iff in Hv as (e & <- & _). split; discriminate.
  - apply Forall_flat_map, Forall_forall. intros s _.
    apply step_tokens_hashable.
Qed.

Lemma total_cons (x : Z) (l : list Z) : total (x :: l) = x + total l.
Proof. reflexivity. Qed.

Lemma total_alter_succ (l : list Z) (i : nat) :
  (i < length l)%nat -> total (alter Z.succ i l) = total l + 1.
Proof.
  revert i. induction l as [|x l IH]; intros [|i] Hi; cbn [length] in Hi;
    try lia.
  - change (total (Z.succ x :: l) = total (x :: l) + 1).
    rewrite !total_cons. lia.
  - change (total (x :: alter Z.succ i l) = total (x :: l) + 1).
    rewrite !total_cons, IH by lia. lia.
Qed.

Lemma Forall2_le_alter_succ (l l' : list Z) (i : nat) :
  Forall2 Z.le l l' -> Forall2 Z.le l (alter Z.succ i l').
Proof.
  intros Hle. revert i.
  induction Hle as [|x y l l' Hxy Hle IH]; intros [|i]; cbn;
    constructor; try assumption; try lia.
  apply IH.
Qed.

Lemma Forall2_le_refl (l : list Z) : Forall2 Z.le l l.
Proof. induction l; constructor; [lia|assumption]. Qed.

(** Hashing values raises counters only, by one for each hashable value. *)
Lemma hash_values_total (n : Z) (vs : list value) (buckets : list Z) :
  0 < n -> length buckets = Z.to_nat n -> Forall hashable vs ->
  total (hash_values n vs buckets) = total buckets + Z.of_nat (length vs)
  /\ Forall2 Z.le buckets (hash_values n vs buckets).
Proof.
  intros Hn Hlen Hvs. revert buckets Hlen.
  induction Hvs as [|v vs [Hu Hnull] _ IH]; intros b Hlen.
  - split; [unfold total, hash_values; cbn; lia|apply Forall2_le_refl].
  - change (hash_values n (v :: vs) b)
      with (hash_values n vs (_hashAttribute v b n)).
    rewrite hash_values_push, hashAttribute_increment.
    destruct (value_index_token v n Hn Hu Hnull) as [-> Hrange].
    cbn [increment]. destruct (IH b Hlen) as [Htot Hle]. split.
    + rewrite total_alter_succ
        by (rewrite length_hash_values, Hlen; lia).
      rewrite Htot. cbn [length]. lia.
    + now apply Forall2_le_alter_succ.
Qed.

Lemma total_repeat_zero (k : nat) : total (repeat 0 k) = 0.
Proof.
  induction k as [|k IH]; [reflexivity|].
  cbn [repeat]. rewrite total_cons, IH. reflexivity.
Qed.

Lemma Forall2_le_repeat_zero (k : nat) (l : list Z) :
  Forall2 Z.le (repeat 0 k) l -> Forall (fun c => 0 <= c) l.
Proof.
  revert l. induction k as [|k IH]; intros l Hle; inversion Hle; subst;
    constructor; auto.
Qed.

Lemma total_nonneg (l : list Z) :
  Forall (fun c => 0 <= c) l -> 0 <= total l.
Proof.
  induction 1 as [|x l Hx _ IH]; [unfold total; cbn; lia|].
  rewrite total_cons. lia.
Qed.

Lemma total_bounds (l : list Z) :
  Forall (fun c => 0 <= c) l -> Forall (fun c => 0 <= c <= total l) l.
Proof.
  induction 1 as [|x l Hx Hl IH]; constructor.
  - rewrite total_cons. pose proof (total_nonneg l Hl). lia.
  - eapply Forall_impl; [exact IH|]. intros c Hc. cbn beta in *. rewrite total_cons. lia.
Qed.

Lemma total_distance_le_totals (a b : list Z) :
  Forall2 Z.le a b -> total_distance a b = total b - total a.
Proof.
  induction 1 as [|x y a b Hxy _ IH]; [reflexivity|].
  cbn [total_distance]. rewrite !total_cons. lia.
Qed.

Lemma total_distance_sum_bound (a b : list Z) :
  Forall (fun c => 0 <= c) a -> Forall (fun c => 0 <= c) b ->
  total_distance a b <= total a + total b.
Proof.
  intros Ha. revert b. induction Ha as [|x a Hx Ha IH]; intros b Hb.
  - pose proof (total_nonneg _ Hb) as Hnn.
    change (total_distance [] b) with 0. change (total []) with 0. lia.
  - destruct Hb as [|y b Hy Hb].
    + pose proof (total_nonneg _ Ha) as Hnn.
      change (total_distance (x :: a) []) with 0.
      rewrite total_cons. change (total []) with 0. lia.
    + cbn [total_distance]. specialize (IH b Hb).
      rewrite !total_cons. lia.
Qed.

(** The histogram that [cook] builds over [n > 0] buckets. *)
Lemma histogram_facts (r : Recipe) (n : Z) :
  0 < n ->
  let h := histogram r n (repeat 0 (Z.to_nat n)) in
  total h = Z.of_nat (length (recipe_tokens r))
  /\ Forall (fun c => 0 <= c <= Z.of_nat (length (recipe_tokens r))) h
  /\ length h = Z.to_nat n.
Proof.
  intros Hn h. subst h. rewrite histogram_tokens.
  destruct (hash_values_total n (recipe_tokens r) (repeat 0 (Z.to_nat n)) Hn
              (repeat_length _ _) (recipe_tokens_hashable r)) as [Htot Hle].
  rewrite total_repeat_zero, Z.add_0_l in Htot.
  split; [exact Htot|]. split.
  - rewrite <- Htot. apply total_bounds.
    now apply (Forall2_le_repeat_zero (Z.to_nat n)).
  - now rewrite length_hash_values, repeat_length.
Qed.

Lemma histogram_byte_range (r : Recipe) (n : Z) :
  (length (recipe_tokens r) <= 255)%nat ->
  Forall (fun c => 0 <= c < 256) (histogram r n (repeat 0 (Z.to_nat n))).
Proof.
  intros Hk. destruct (Z.ltb_spec 0 n) as [Hn|Hn].
  - destruct (histogram_facts r n Hn) as (_ & Hrange & _).
    eapply Forall_impl; [exact Hrange|]. intros c Hc. cbn in Hc. lia.
  - assert (Z.to_nat n = 0%nat) as -> by lia.
    cbn [repeat].
    assert (length (histogram r n []) = 0%nat) as Hlen
      by now rewrite length_histogram.
    destruct (histogram r n []); [constructor|discriminate].
Qed.

Lemma hash_values_perm (n : Z) (l1 l2 : list value) (buckets : list Z) :
  Permutation l1 l2 -> hash_values n l1 buckets = hash_values n l2 buckets.
Proof.
  intros Hperm. revert buckets.
  induction Hperm as [|v l1 l2 _ IH|v w l|l1 l2 l3 _ IH1 _ IH2]; intros b.
  - reflexivity.
  - change (hash_values n l1 (_hashAttribute v b n)
            = hash_values n l2 (_hashAttribute v b n)). apply IH.
  - change (hash_values n l (_hashAttribute v (_hashAttribute w b n) n)
            = hash_values n l (_hashAttribute w (_hashAttribute v b n) n)).
    f_equal. rewrite !hashAttribute_increment. apply increment_commute.
  - now rewrite IH1.
Qed.

Lemma histogram_perm (r1 r2 : Recipe) (n : Z) (buckets : list Z) :
  Permutation (recipe_tokens r1) (recipe_tokens r2) ->
  histogram r1 n buckets = histogram r2 n buckets.
Proof. intros Hp. rewrite !histogram_tokens. now apply hash_values_perm. Qed.

Lemma compute_hash_histogram (r1 r2 : Recipe) (numBuckets : number) :
  (forall n, histogram r1 n (repeat 0 (Z.to_nat n))
             = histogram r2 n (repeat 0 (Z.to_nat n))) ->
  compute_hash r1 numBuckets = compute_hash r2 numBuckets.
Proof.
  intros Hh. unfold compute_hash.
  destruct (array_length numBuckets); [|reflexivity]. now rewrite Hh.
Qed.

Lemma mutate_method_tokens (m : mutation) (r : Recipe) :
  is_method m = true -> recipe_tokens (mutate m r) = recipe_tokens r.
Proof.
  destruct m; try discriminate; intros _; try reflexivity.
  unfold recipe_tokens. cbn [mutate ingredients steps].
  rewrite map_map. reflexivity.
Qed.

Lemma compute_hash_tokens (r1 r2 : Recipe) (numBuckets : number) :
  recipe_tokens r1 = recipe_tokens r2 ->
  compute_hash r1 numBuckets = compute_hash r2 numBuckets.
Proof.
  intros Ht. apply compute_hash_histogram. intros n.
  now rewrite !histogram_tokens, Ht.
Qed.

Lemma call_methods_hash (ms : list (loc * mutation)) (this : loc)
  (st : store) (r : Recipe) (h : string) (numBuckets : number) :
  Forall (fun c => is_method (snd c) = true) ms ->
  st !! this = Some r -> cached_hash r = Some h ->
  compute_hash r numBuckets = Return h ->
  exists r',
    call_mutations ms st !! this = Some r' /\ cached_hash r' = Some h
    /\ compute_hash r' numBuckets = Return h.
Proof.
  intros Hms. revert st r.
  induction Hms as [|[l m] ms Hm _ IH]; intros st r Hr Hc Hh.
  - exists r. auto.
  - cbn [call_mutations fold_left fst snd] in *.
    destruct (decide (l = this)) as [->|Hne].
    + apply (IH _ (mutate m r)).
      * unfold call_mutation. rewrite lookup_alter_eq, Hr. reflexivity.
      * now rewrite mutate_cached_hash.
      * rewrite <- Hh. apply compute_hash_tokens.
        now apply mutate_method_tokens.
    + apply (IH _ r); try assumption.
      unfold call_mutation. now rewrite lookup_alter_ne.
Qed.

End Counting.

(** ** C9: adjustments, cues, sensory checks and parallel steps *)

Section Contributions.
Context `{Node}.

Lemma step_tokens_push_cue (c : Cue) (s : RecipeStep) :
  Permutation (step_tokens (push_cue c s)) (step_tokens s ++ cue_tokens c).
Proof.
  destruct s as [acts ths cs adjs scs].
  cbn [step_tokens push_cue actions cues sensoryChecks threads].
  rewrite flat_map_app. cbn [flat_map]. rewrite app_nil_r.
  fold (cue_tokens c). solve_Permutation.
Qed.

Lemma step_tokens_push_check (c : SensoryCheck) (s : RecipeStep) :
  Permutation (step_tokens (push_check c s)) (step_tokens s ++ check_tokens c).
Proof.
  destruct s as [acts ths cs adjs scs].
  cbn [step_tokens push_check actions cues sensoryChecks threads].
  rewrite flat_map_app. cbn [flat_map]. rewrite app_nil_r.
  fold (check_tokens c). solve_Permutation.
Qed.

Lemma step_tokens_push_thread (t s : RecipeStep) :
  step_tokens (push_thread t s) = step_tokens s ++ step_tokens t.
Proof.
  destruct s as [acts ths cs adjs scs].
  cbn [step_tokens push_thread actions cues sensoryChecks threads].
  rewrite flat_map_app. cbn [flat_map]. rewrite app_nil_r.
  now rewrite <- !app_assoc.
Qed.

Lemma step_tokens_push_adjustment (a : Adjustment) (s : RecipeStep) :
  step_tokens (push_adjustment a s) = step_tokens s.
Proof. destruct s; reflexivity. Qed.

Lemma recipe_tokens_replace (r : Recipe) (pre post : list RecipeStep)
  (s s' : RecipeStep) (extra : list value) :
  steps r = pre ++ s :: post ->
  Permutation (step_tokens s') (step_tokens s ++ extra) ->
  Permutation (recipe_tokens (replace_step r pre s'))
    (recipe_tokens r ++ extra).
Proof.
  intros Hsteps Hperm. unfold recipe_tokens, replace_step.
  cbn [mutate ingredients steps]. rewrite Hsteps.
  replace (drop (S (length pre)) (pre ++ s :: post)) with post
    by (rewrite (cons_middle s pre post), app_assoc;
        rewrite drop_app_length'; [reflexivity|];
        rewrite length_app; cbn [length]; lia).
  rewrite !flat_map_app. cbn [flat_map]. rewrite Hperm.
  solve_Permutation.
Qed.

Lemma histogram_extra (r r' : Recipe) (extra : list value) (n : Z)
  (buckets : list Z) :
  Permutation (recipe_tokens r') (recipe_tokens r ++ extra) ->
  histogram r' n buckets = hash_values n extra (histogram r n buckets).
Proof.
  intros Hperm. rewrite !histogram_tokens.
  rewrite (hash_values_perm n _ _ buckets Hperm). apply hash_values_app.
Qed.

(** Two string tokens hashed over [n > 0] buckets: one more in the bucket of
    each. *)
Lemma hash_two_strings (n : Z) (x y : string) (buckets : list Z) :
  0 < n ->
  let i := token_bucket (VString x) n in
  let j := token_bucket (VString y) n in
  0 <= i < n /\ 0 <= j < n
  /\ hash_values n [VString x; VString y] buckets
     = alter Z.succ (Z.to_nat j) (alter Z.succ (Z.to_nat i) buckets).
Proof.
  intros Hn i j.
  destruct (value_index_token (VString x) n Hn) as [Hi Hri]; try discriminate.
  destruct (value_index_token (VString y) n Hn) as [Hj Hrj]; try discriminate.
  split; [exact Hri|]. split; [exact Hrj|].
  unfold hash_values. cbn [fold_left].
  now rewrite !hashAttribute_increment, Hi, Hj.
Qed.

End Contributions.

(** C9.  Adjustments give no token: two recipes with the same ingredients
    whose steps differ only in adjustments lists, at any depth, have the same
    histogram for every bucket count, the same encoded hash, and the same
    result of [cook] on instances with the same hash field.  Cues, sensory
    checks and parallel steps do: [cook] on an instance without a cached
    hash returns the encoding of the histogram over zeroed buckets, whose
    counters add up to the number of tokens, which for a step is the tokens
    of its actions, two for each cue, two for each sensory check, and the
    tokens of each of its parallel steps, counted in the same way.  Pushing
    a cue
    on a step of a recipe adds one to the bucket of its type and one to the
    bucket of its description in that histogram, pushing a sensory check
    likewise, pushing a parallel step adds what [_hashStep] adds for it, all
    its tokens, and pushing an adjustment adds nothing. *)
Theorem adjustments_not_hashed `{Node} (r1 r2 : Recipe) :
  ingredients r1 = ingredients r2 ->
  map strip_adjustments (steps r1) = map strip_adjustments (steps r2) ->
  (forall n buckets, histogram r1 n buckets = histogram r2 n buckets)
  /\ (forall numBuckets,
        compute_hash r1 numBuckets = compute_hash r2 numBuckets)
  /\ (forall (l1 l2 : loc) (st1 st2 : store) numBuckets,
        st1 !! l1 = Some r1 -> st2 !! l2 = Some r2 -> hash r1 = hash r2 ->
        fst (cook l1 numBuckets st1) = fst (cook l2 numBuckets st2))
  /\ (forall s buckets n,
        _hashStep s buckets n
        = fold_left (fun b thread => _hashStep thread b n) (threads s)
            (hash_values n
               (flat_map action_tokens (actions s)
                ++ flat_map (fun c => [VString (cue_type c);
                                       VString (cue_description c)]) (cues s)
                ++ flat_map (fun c => [VString (check_type c);
                                       VString (check_description c)])
                     (sensoryChecks s))
               buckets))
  /\ (forall (r : Recipe) (l : loc) (st : store) n,
        st !! l = Some r -> cached_hash r = None -> 0 < n < 2 ^ 32 ->
        fst (cook l (num_of_Z n) st)
        = Return (encode (histogram r n (repeat 0 (Z.to_nat n)))))
  /\ (forall n,
        0 < n ->
        total (histogram r1 n (repeat 0 (Z.to_nat n)))
        = Z.of_nat (length (ingredients r1)
                    + length (flat_map step_tokens (steps r1))))
  /\ (forall s,
        length (step_tokens s)
        = (length (flat_map action_tokens (actions s))
           + 2 * length (cues s) + 2 * length (sensoryChecks s)
           + length (flat_map step_tokens (threads s)))%nat)
  /\ (forall pre s post n,
        steps r1 = pre ++ s :: post -> 0 < n ->
        let zeros := repeat 0 (Z.to_nat n) in
        let before := histogram r1 n zeros in
        (forall c : Cue,
            let i := token_bucket (VString (cue_type c)) n in
            let j := token_bucket (VString (cue_description c)) n in
            0 <= i < n /\ 0 <= j < n
            /\ histogram (replace_step r1 pre (push_cue c s)) n zeros
               = alter Z.succ (Z.to_nat j) (alter Z.succ (Z.to_nat i) before))
        /\ (forall c : SensoryCheck,
              let i := token_bucket (VString (check_type c)) n in
              let j := token_bucket (VString (check_description c)) n in
              0 <= i < n /\ 0 <= j < n
              /\ histogram (replace_step r1 pre (push_check c s)) n zeros
                 = alter Z.succ (Z.to_nat j)
                     (alter Z.succ (Z.to_nat i) before))
        /\ (forall t : RecipeStep,
              histogram (replace_step r1 pre (push_thread t s)) n zeros
              = _hashStep t before n
              /\ total (_hashStep t before n)
                 = total before + Z.of_nat (length (step_tokens t)))
        /\ (forall a : Adjustment,
              histogram (replace_step r1 pre (push_adjustment a s)) n zeros
              = before)).
Proof.
  intros Hing Hsteps.
  assert (forall n buckets, histogram r1 n buckets = histogram r2 n buckets)
    as Hhist.
  { intros n b. rewrite !histogram_tokens.
    now rewrite (recipe_tokens_strip r1 r2 Hing Hsteps). }
  assert (forall numBuckets,
             compute_hash r1 numBuckets = compute_hash r2 numBuckets) as Hcomp.
  { intros nb. unfold compute_hash.
    destruct (array_length nb); [|reflexivity]. now rewrite Hhist. }
  split; [exact Hhist|]. split; [exact Hcomp|]. split.
  { intros l1 l2 st1 st2 nb H1 H2 Hh.
    now apply (cook_result_compute l1 l2 r1 r2). }
  split.
  { intros s b n.
    rewrite hashStep_tokens.
    destruct s as [acts ths cs adjs scs].
    cbn [step_tokens actions cues sensoryChecks threads].
    rewrite !app_assoc, hash_values_app, <- !app_assoc.
    fold cue_tokens check_tokens.
    unfold hash_values at 1. rewrite fold_left_flat_map.
    apply fold_left_ext_in, Forall_forall. intros th _ a.
    symmetry. apply hashStep_tokens. }
  split.
  { intros r l st n Hr Hc Hn.
    assert (compute_hash r (num_of_Z n)
            = Return (encode (histogram r n (repeat 0 (Z.to_nat n))))) as Hh.
    { unfold compute_hash.
      assert (array_length (num_of_Z n) = Some n) as ->; [|reflexivity].
      apply array_length_spec. split; [lia|]. cbn. reflexivity. }
    now rewrite (cook_compute _ _ _ _ _ Hr Hc Hh). }
  split.
  { intros n Hn. destruct (histogram_facts r1 n Hn) as (Htotal & _).
    cbv zeta in Htotal. rewrite Htotal. unfold recipe_tokens.
    now rewrite length_app, length_map. }
  split.
  { intros [acts ths cs adjs scs].
    cbn [step_tokens actions cues sensoryChecks threads].
    rewrite !length_app.
    assert (length (flat_map cue_tokens cs) = (2 * length cs)%nat) as ->.
    { clear. induction cs as [|c cs IH]; [reflexivity|].
      cbn [flat_map length app cue_tokens]. rewrite IH. lia. }
    assert (length (flat_map check_tokens scs) = (2 * length scs)%nat) as ->.
    { clear. induction scs as [|c scs IH]; [reflexivity|].
      cbn [flat_map length app check_tokens]. rewrite IH. lia. }
    lia. }
  intros pre s post n Hsteps1 Hn zeros before.
  split; [|split; [|split]].
  - intros c i j.
    rewrite (histogram_extra r1 _ (cue_tokens c))
      by (apply (recipe_tokens_replace r1 pre post s); [exact Hsteps1|];
          apply step_tokens_push_cue).
    apply hash_two_strings. exact Hn.
  - intros c i j.
    rewrite (histogram_extra r1 _ (check_tokens c))
      by (apply (recipe_tokens_replace r1 pre post s); [exact Hsteps1|];
          apply step_tokens_push_check).
    apply hash_two_strings. exact Hn.
  - intros t.
    rewrite (histogram_extra r1 _ (step_tokens t))
      by (apply (recipe_tokens_replace r1 pre post s); [exact Hsteps1|];
          now rewrite step_tokens_push_thread).
    rewrite hashStep_tokens. split; [reflexivity|].
    apply hash_values_total; [exact Hn| |apply step_tokens_hashable].
    unfold before, zeros. rewrite length_histogram. apply repeat_length.
  - intros a.
    rewrite (histogram_extra r1 _ [])
      by (apply (recipe_tokens_replace r1 pre post s); [exact Hsteps1|];
          now rewrite step_tokens_push_adjustment, app_nil_r).
    reflexivity.
Qed.

(** The recipe of [examples/latte_caffe.js] with an adjustment added to each
    of its two steps has the hash of the recipe itself; with the cue
    [untilCue('visual', 'foam')] added to its first step, the histogram over
    256 buckets has one more in the buckets of the two strings. *)
Lemma adjustments_not_hashed_witness :
  let step1 :=
    {| actions := actions Examples.step1; threads := []; cues := [];
       adjustments := [ {| adj_condition := "too bitter";
                           adj_action := "add sugar" |} ];
       sensoryChecks := [] |} in
  let step2 :=
    {| actions := actions Examples.step2; threads := []; cues := [];
       adjustments := [ {| adj_condition := "too hot";
                           adj_action := "wait" |} ];
       sensoryChecks := [] |} in
  let adjusted :=
    Recipe_new "Latte Caffe" [Examples.latte; Examples.espresso; Examples.sugar]
      [step1; step2] [] in
  let foam := {| cue_type := "visual"; cue_description := "foam" |} in
  let zeros := repeat 0 (Z.to_nat 256) in
  compute_hash (H := ReferenceFacts.node) adjusted (Finite 256)
  = compute_hash (H := ReferenceFacts.node) Examples.latteCaffe (Finite 256)
  /\ histogram (H := ReferenceFacts.node)
       (replace_step adjusted [] (push_cue foam step1)) 256 zeros
     = alter Z.succ 252%nat
         (alter Z.succ 152%nat
            (histogram (H := ReferenceFacts.node) adjusted 256 zeros)).
Proof.
  intros step1 step2 adjusted foam zeros.
  destruct (adjustments_not_hashed (H := ReferenceFacts.node) adjusted
              Examples.latteCaffe eq_refl eq_refl)
    as (_ & Hhash & _ & _ & _ & _ & _ & Hpush).
  split; [apply Hhash|].
  destruct (Hpush [] step1 [step2] 256 eq_refl ltac:(lia)) as (Hcue & _).
  exact (proj2 (proj2 (Hcue foam))).
Defined.

(** X7.  Every token is counted once: over a positive number [n] of
    buckets, the histogram that [cook] builds has [n] counters, none
    negative, and they add up to the number of tokens of the recipe (one per
    ingredient; per action its type and each of ingredient, container,
    temperature value and duration that is present; two per cue and per
    sensory check; at every depth of parallel steps). *)
Theorem histogram_counts_tokens `{Node} (r : Recipe) (n : Z) :
  0 < n ->
  let h := histogram r n (repeat 0 (Z.to_nat n)) in
  total h = Z.of_nat (length (recipe_tokens r))
  /\ Forall (fun c => 0 <= c) h
  /\ length h = Z.to_nat n.
Proof.
  intros Hn h. destruct (histogram_facts r n Hn) as (Htot & Hrange & Hlen).
  split; [exact Htot|]. split; [|exact Hlen].
  eapply Forall_impl; [exact Hrange|]. intros c Hc. cbn in Hc. lia.
Qed.

(** The recipe of [examples/latte_caffe.js] has 10 tokens. *)
Lemma histogram_counts_tokens_witness :
  total (histogram (H := ReferenceFacts.node) Examples.latteCaffe 256
           (repeat 0 256%nat)) = 10.
Proof.
  apply (histogram_counts_tokens (H := ReferenceFacts.node)
           Examples.latteCaffe 256). lia.
Defined.

(** X8.  The hash does not depend on the order of the ingredients nor on the
    order of the steps: two recipes whose ingredients and whose steps are
    the same up to order have the same encoded hash for every bucket
    count. *)
Theorem hash_order_independent `{Node} (r1 r2 : Recipe)
  (numBuckets : number) :
  Permutation (ingredients r1) (ingredients r2) ->
  Permutation (steps r1) (steps r2) ->
  compute_hash r1 numBuckets = compute_hash r2 numBuckets.
Proof.
  intros Hi Hs. apply compute_hash_histogram. intros n.
  apply histogram_perm. unfold recipe_tokens.
  apply Permutation_app.
  - now apply Permutation_map.
  - now apply Permutation_flat_map.
Qed.

Lemma hash_order_independent_witness :
  compute_hash (H := ReferenceFacts.node)
    (Recipe_new "Latte Caffe"
       [Examples.sugar; Examples.latte; Examples.espresso]
       [Examples.step2; Examples.step1] [])
    (Finite 256)
  = compute_hash (H := ReferenceFacts.node) Examples.latteCaffe (Finite 256).
Proof.
  apply (hash_order_independent (H := ReferenceFacts.node)).
  - cbn [ingredients Recipe_new Examples.latteCaffe Examples.example_recipe].
    eapply perm_trans; [apply perm_swap|]. apply perm_skip, perm_swap.
  - apply perm_swap.
Defined.

(** X9.  The methods of [Recipe] that change an instance do not make a
    cached hash stale: when [cook] has computed the hash of an instance, then
    after any calls of [scale], [addTags], [setDifficulty],
    [setEstimatedTime], [addMiseEnPlace], [addServingSuggestion] and
    [suggestSubstitution], on any instances, the cached hash is still the
    hash that [cook], with the same bucket count, computes for the content
    the instance has then.  ([createStep] changes no instance: it throws
    before it pushes.) *)
Theorem methods_keep_hash `{Node} (this : loc) (numBuckets : number)
  (st st1 : store) (r : Recipe) (h : string) (ms : list (loc * mutation)) :
  st !! this = Some r -> cached_hash r = None ->
  cook this numBuckets st = (Return h, st1) ->
  Forall (fun c => is_method (snd c) = true) ms ->
  exists r2,
    call_mutations ms st1 !! this = Some r2
    /\ cached_hash r2 = Some h
    /\ compute_hash r2 numBuckets = Return h.
Proof.
  intros Hr Hc Hcook Hms.
  destruct (compute_hash r numBuckets) as [h1|e] eqn:Hh;
    [|rewrite (cook_throw _ _ _ _ _ Hr Hc Hh) in Hcook; discriminate].
  rewrite (cook_compute _ _ _ _ _ Hr Hc Hh) in Hcook.
  injection Hcook as <- <-.
  apply (call_methods_hash ms this _ (set_hash r (Some h1))).
  - exact Hms.
  - rewrite lookup_alter_eq, Hr. reflexivity.
  - apply cached_hash_set. eapply compute_hash_nonempty; eauto.
  - exact Hh.
Qed.

Lemma methods_keep_hash_witness :
  let ms := [(0%nat, scale (Finite 2)); (1%nat, addTags ["sweet"]);
             (0%nat, setDifficulty "easy")] in
  let first :=
    cook (H := ReferenceFacts.node) 0%nat (Finite 256) Examples.kitchen in
  exists h r2,
    fst first = Return h
    /\ call_mutations ms (snd first) !! 0%nat = Some r2
    /\ cached_hash r2 = Some h
    /\ compute_hash (H := ReferenceFacts.node) r2 (Finite 256) = Return h.
Proof.
  intros ms first.
  destruct first as [[h|e] st1] eqn:Hfirst; [|vm_compute in Hfirst; discriminate].
  destruct (methods_keep_hash (H := ReferenceFacts.node) 0%nat (Finite 256)
              Examples.kitchen st1 Examples.latteCaffe h ms)
    as (r2 & H1 & H2 & H3).
  - reflexivity.
  - reflexivity.
  - exact Hfirst.
  - repeat constructor.
  - exists h, r2. auto.
Defined.

Section Lossless.
Context `{Node}.

Lemma counters_bytes (buckets : list Z) :
  Forall (fun c => 0 <= c < 256) buckets ->
  counters (map byte_of_Z buckets) = buckets.
Proof.
  induction 1 as [|c l Hc _ IH]; [reflexivity|].
  unfold counters in *. cbn [map]. now rewrite Z_of_byte_of_Z, IH.
Qed.

Lemma decompressHash_histogram (buckets : list Z) :
  Forall (fun c => 0 <= c < 256) buckets ->
  decompressHash (encode buckets)
  = Return (Buffer_toString_hex (map byte_of_Z buckets)).
Proof.
  intros Hrange.
  now rewrite decompressHash_encode, hexString_bytes,
    Buffer_from_hex_toString.
Qed.

(** Two instances without a cached hash, of at most 255 tokens each:
    [compareTo] computes the score from their two histograms. *)
Lemma compareTo_fresh (a b : loc) (st : store) (ra rb : Recipe) :
  st !! a = Some ra -> st !! b = Some rb -> a <> b ->
  cached_hash ra = None -> cached_hash rb = None ->
  (length (recipe_tokens ra) <= 255)%nat ->
  (length (recipe_tokens rb) <= 255)%nat ->
  exists q st',
    compareTo a (OtherRecipe b) st = (Return (Finite q), st')
    /\ q == similarity
              (total_distance (histogram ra 256 (repeat 0 256%nat))
                 (histogram rb 256 (repeat 0 256%nat))) 256.
Proof.
  intros Ha Hb Hne Hca Hcb Hka Hkb.
  pose proof (histogram_byte_range ra 256 Hka) as Hra.
  pose proof (histogram_byte_range rb 256 Hkb) as Hrb.
  change (Z.to_nat 256) with 256%nat in Hra, Hrb.
  set (ha := histogram ra 256 (repeat 0 256%nat)) in *.
  set (hb := histogram rb 256 (repeat 0 256%nat)) in *.
  pose proof (cook_compute a default_numBuckets st ra _ Ha Hca
                (compute_hash_default ra)) as Hcooka.
  fold ha in Hcooka.
  set (st1 := alter (fun r => set_hash r (Some (encode ha))) a st) in *.
  assert (st1 !! b = Some rb) as Hb1
    by (unfold st1; rewrite lookup_alter_ne by congruence; exact Hb).
  pose proof (cook_compute b default_numBuckets st1 rb _ Hb1 Hcb
                (compute_hash_default rb)) as Hcookb.
  fold hb in Hcookb.
  rewrite (compareTo_hashes a (OtherRecipe b) st st1 _ _ _ Hcooka Hcookb).
  rewrite !decompressHash_histogram by assumption.
  assert (length (map byte_of_Z ha) = 256%nat) as Hla
    by (unfold ha; now rewrite length_map, length_histogram, repeat_length).
  assert (length (map byte_of_Z hb) = 256%nat) as Hlb
    by (unfold hb; now rewrite length_map, length_histogram, repeat_length).
  destruct (compare_hex_buffers (map byte_of_Z ha) (map byte_of_Z hb))
    as (s & Hs & _ & Hq); [congruence|].
  destruct Hq as (q & -> & Hq); [rewrite Hla; discriminate|].
  rewrite Hs. eexists q, _. split; [reflexivity|].
  pose proof (total_distance_nonneg (counters (map byte_of_Z ha))
                (counters (map byte_of_Z hb))) as Hd0.
  pose proof (total_distance_counters_le (map byte_of_Z ha)
                (map byte_of_Z hb)) as Hd.
  rewrite Hla in Hq, Hd.
  rewrite Hq, (binary64_similarity_exact _ _ 8) by (reflexivity || lia).
  rewrite !counters_bytes by assumption. reflexivity.
Qed.

End Lossless.

(** X10.  Up to 255 tokens nothing is lost: for a recipe with at most 255
    tokens and no cached hash, [cook] returns, for every valid bucket count
    [n], a string that [decode] turns back into the histogram itself, [n]
    counters. *)
Theorem cook_decode_histogram `{Node} (this : loc) (numBuckets : number)
  (st : store) (r : Recipe) (n : Z) :
  st !! this = Some r -> cached_hash r = None ->
  array_length numBuckets = Some n ->
  (length (recipe_tokens r) <= 255)%nat ->
  exists h st',
    cook this numBuckets st = (Return h, st')
    /\ decode h
       = Return (map num_of_Z (histogram r n (repeat 0 (Z.to_nat n))))
    /\ length (histogram r n (repeat 0 (Z.to_nat n))) = Z.to_nat n.
Proof.
  intros Hr Hc Hn Hk.
  assert (compute_hash r numBuckets
          = Return (encode (histogram r n (repeat 0 (Z.to_nat n))))) as Hh
    by (unfold compute_hash; now rewrite Hn).
  rewrite (cook_compute _ _ _ _ _ Hr Hc Hh).
  eexists _, _. split; [reflexivity|]. split.
  - apply decode_encode. now apply histogram_byte_range.
  - now rewrite length_histogram, repeat_length.
Qed.

Lemma cook_decode_histogram_witness :
  exists h st',
    cook (H := ReferenceFacts.node) 0%nat (Finite 8) Examples.kitchen
    = (Return h, st')
    /\ decode (H := ReferenceFacts.node) h
       = Return (map num_of_Z
                   (histogram (H := ReferenceFacts.node) Examples.latteCaffe 8
                      (repeat 0 8%nat)))
    /\ length (histogram (H := ReferenceFacts.node) Examples.latteCaffe 8
                 (repeat 0 8%nat)) = 8%nat.
Proof.
  apply (cook_decode_histogram (H := ReferenceFacts.node) 0%nat (Finite 8)
           Examples.kitchen Examples.latteCaffe 8).
  - reflexivity.
  - reflexivity.
  - vm_compute. reflexivity.
  - vm_compute. lia.
Defined.

(** X11.  Each added token costs 1/4096: when the tokens of one recipe are
    those of another and [k] more, in any order, at most 255 in all, and
    neither instance has a cached hash, [compareTo] returns
    (4096 - k) / 4096. *)
Theorem compareTo_extra_tokens `{Node} (a b : loc) (st : store)
  (ra rb : Recipe) (extra : list value) :
  st !! a = Some ra -> st !! b = Some rb -> a <> b ->
  cached_hash ra = None -> cached_hash rb = None ->
  Permutation (recipe_tokens rb) (recipe_tokens ra ++ extra) ->
  (length (recipe_tokens rb) <= 255)%nat ->
  exists q st',
    compareTo a (OtherRecipe b) st = (Return (Finite q), st')
    /\ q == (4096 - Z.of_nat (length extra)) # 4096.
Proof.
  intros Ha Hb Hne Hca Hcb Hperm Hkb.
  pose proof (Permutation_length Hperm) as Hlen.
  rewrite length_app in Hlen.
  destruct (compareTo_fresh a b st ra rb Ha Hb Hne Hca Hcb)
    as (q & st' & Hcmp & Hq); [lia|exact Hkb|].
  exists q, st'. split; [exact Hcmp|]. rewrite Hq.
  assert (Forall hashable extra) as Hextra.
  { pose proof (recipe_tokens_hashable rb) as Hall.
    rewrite Hperm in Hall. now apply Forall_app in Hall as [_ Hall]. }
  assert (histogram rb 256 (repeat 0 256%nat)
          = hash_values 256 extra (histogram ra 256 (repeat 0 256%nat)))
    as ->.
  { rewrite !histogram_tokens, (hash_values_perm _ _ _ _ Hperm).
    apply hash_values_app. }
  destruct (hash_values_total 256 extra (histogram ra 256 (repeat 0 256%nat)))
    as [Htot Hle]; [lia| |exact Hextra|].
  { now rewrite length_histogram, repeat_length. }
  rewrite (total_distance_le_totals _ _ Hle), Htot.
  replace (total (histogram ra 256 (repeat 0 256%nat))
           + Z.of_nat (length extra)
           - total (histogram ra 256 (repeat 0 256%nat)))
    with (Z.of_nat (length extra)) by lia.
  apply (similarity_fraction _ 256).
Qed.

(** The example with biscuits has one step more than the plain one,
    [add(cookie).to(tazza)]: the three tokens of its action. *)
Lemma compareTo_extra_tokens_witness :
  exists q st',
    compareTo (H := ReferenceFacts.node) 0%nat (OtherRecipe 1%nat)
      Examples.kitchen = (Return (Finite q), st')
    /\ q == 4093 # 4096.
Proof.
  apply (compareTo_extra_tokens (H := ReferenceFacts.node) 0%nat 1%nat
           Examples.kitchen Examples.latteCaffe Examples.latteBiscotti
           (skipn 10 (recipe_tokens Examples.latteBiscotti))).
  - reflexivity.
  - reflexivity.
  - discriminate.
  - reflexivity.
  - reflexivity.
  - vm_compute. reflexivity.
  - vm_compute. lia.
Defined.

(** X12.  For instances without a cached hash and with at most 255 tokens
    each, [compareTo] returns a score, and the score is at most 1 and at
    least 1 - (ka + kb) / 4096 for recipes of [ka] and [kb] tokens: above
    0.87, so inside the range 0 to 1 of the docstring. *)
Theorem compareTo_score_range `{Node} (a b : loc) (st : store)
  (ra rb : Recipe) :
  st !! a = Some ra -> st !! b = Some rb -> a <> b ->
  cached_hash ra = None -> cached_hash rb = None ->
  (length (recipe_tokens ra) <= 255)%nat ->
  (length (recipe_tokens rb) <= 255)%nat ->
  exists q st',
    compareTo a (OtherRecipe b) st = (Return (Finite q), st')
    /\ ((4096 - Z.of_nat (length (recipe_tokens ra))
              - Z.of_nat (length (recipe_tokens rb))) # 4096 <= q)%Q
    /\ (3586 # 4096 <= q)%Q /\ (q <= 1)%Q.
Proof.
  intros Ha Hb Hne Hca Hcb Hka Hkb.
  destruct (compareTo_fresh a b st ra rb Ha Hb Hne Hca Hcb Hka Hkb)
    as (q & st' & Hcmp & Hq).
  exists q, st'. split; [exact Hcmp|].
  destruct (histogram_facts ra 256) as (Hta & Hra & _); [lia|].
  destruct (histogram_facts rb 256) as (Htb & Hrb & _); [lia|].
  cbv zeta in Hta, Htb, Hra, Hrb.
  change (Z.to_nat 256) with 256%nat in *.
  set (ha := histogram ra 256 (repeat 0 256%nat)) in *.
  set (hb := histogram rb 256 (repeat 0 256%nat)) in *.
  assert (total_distance ha hb
          <= Z.of_nat (length (recipe_tokens ra))
             + Z.of_nat (length (recipe_tokens rb))) as Hd.
  { rewrite <- Hta, <- Htb. apply total_distance_sum_bound.
    - eapply Forall_impl; [exact Hra|]. intros c Hc. cbn beta in Hc. lia.
    - eapply Forall_impl; [exact Hrb|]. intros c Hc. cbn beta in Hc. lia. }
  pose proof (total_distance_nonneg ha hb) as Hd0.
  assert ((4096 - Z.of_nat (length (recipe_tokens ra))
             - Z.of_nat (length (recipe_tokens rb))) # 4096 <= q)%Q as Hlow.
  { assert (similarity (Z.of_nat (length (recipe_tokens ra))
                         + Z.of_nat (length (recipe_tokens rb))) 256
            == (4096 - Z.of_nat (length (recipe_tokens ra))
                  - Z.of_nat (length (recipe_tokens rb))) # 4096) as E.
    { rewrite (similarity_fraction _ 256).
      unfold Qeq. cbn [Qnum Qden]. lia. }
    rewrite <- E, Hq. apply similarity_le; lia. }
  split; [exact Hlow|]. split.
  - eapply Qle_trans; [|exact Hlow]. unfold Qle. cbn [Qnum Qden]. lia.
  - rewrite Hq, <- (similarity_zero_distance 256).
    apply similarity_le; lia.
Qed.

Lemma compareTo_score_range_witness :
  exists q st',
    compareTo (H := ReferenceFacts.node) 0%nat (OtherRecipe 1%nat)
      Examples.kitchen = (Return (Finite q), st')
    /\ ((4096 - 10 - 13) # 4096 <= q)%Q
    /\ (3586 # 4096 <= q)%Q /\ (q <= 1)%Q.
Proof.
  apply (compareTo_score_range (H := ReferenceFacts.node) 0%nat 1%nat
           Examples.kitchen Examples.latteCaffe Examples.latteBiscotti).
  - reflexivity.
  - reflexivity.
  - discriminate.
  - reflexivity.
  - reflexivity.
  - vm_compute. lia.
  - vm_compute. lia.
Defined.

(** * Validation *)

(** [validate()]: [!this.name] holds of the empty string. *)
Definition validate (r : Recipe) : completion unit :=
  if String.eqb (recipe_name r) "" then
    Throw (Error "Recipe must have a name")
  else if (length (ingredients r) =? 0)%nat then
    Throw (Error "Recipe must have at least one ingredient")
  else if (length (steps r) =? 0)%nat then
    Throw (Error "Recipe must have at least one step")
  else Return tt.

Lemma validate_returns (r : Recipe) :
  validate r = Return tt
  <-> recipe_name r <> "" /\ ingredients r <> [] /\ steps r <> [].
Proof.
  unfold validate.
  destruct (String.eqb_spec (recipe_name r) "") as [->|Hname].
  - split; [discriminate|]. intros [Hn _]. now contradiction Hn.
  - destruct (ingredients r) as [|i l].
    + split; [discriminate|]. intros (_ & Hi & _). now contradiction Hi.
    + destruct (steps r) as [|s ss].
      * split; [discriminate|]. intros (_ & _ & Hs). now contradiction Hs.
      * split; [|reflexivity]. intros _. repeat split; [exact Hname|discriminate|discriminate].
Qed.

(** X13.  A recipe that [validate] accepts is still accepted after any of
    the methods [scale], [addTags], [setDifficulty], [setEstimatedTime],
    [addMiseEnPlace], [addServingSuggestion] and [suggestSubstitution], and
    [validate] does not look at the cached hash.  [createStep] cannot supply
    a missing step: on every instance it throws the ReferenceError
    "RecipeStep is not defined" and leaves the store, hence the outcome of
    [validate], as it was. *)
Theorem validate_methods (r : Recipe) (m : mutation) :
  is_method m = true ->
  (validate r = Return tt -> validate (mutate m r) = Return tt)
  /\ (forall h, validate (set_hash r h) = validate r)
  /\ (forall (this : loc) (st : store),
        st !! this = Some r ->
        createStep this st
        = (Throw (ReferenceError "RecipeStep is not defined"), st)).
Proof.
  intros Hm. split; [|split].
  - rewrite !validate_returns. intros (Hn & Hi & Hs).
    destruct m as [f|t|lv|t|ms|sg|o a|i|ss]; try discriminate;
      cbn [mutate recipe_name ingredients steps];
      repeat split; try assumption.
    destruct (ingredients r); [now contradiction Hi|discriminate].
  - reflexivity.
  - intros this st Hr. unfold createStep, bind, deref, lift. now rewrite Hr.
Qed.

(** The recipe without ingredient and step of [Examples.pantry] has no step
    after [createStep] either. *)
Lemma validate_methods_witness :
  validate (mutate (scale (Finite 2)) Examples.latteCaffe) = Return tt
  /\ createStep 0%nat Examples.pantry
     = (Throw (ReferenceError "RecipeStep is not defined"), Examples.pantry)
  /\ validate Examples.empty_recipe
     = Throw (Error "Recipe must have at least one ingredient").
Proof.
  destruct (validate_methods Examples.latteCaffe (scale (Finite 2)) eq_refl)
    as (Hvalid & _ & _).
  destruct (validate_methods Examples.empty_recipe (scale (Finite 2)) eq_refl)
    as (_ & _ & Hthrows).
  split; [now apply Hvalid|]. split; [now apply Hthrows|reflexivity].
Defined.

(** * The step builder *)

(** [String.prototype.toUpperCase], of the JavaScript engine. *)
Class Engine := { toUpperCase : string -> string }.

(** [Temperature(value, unit)] of [measurement.js]. *)
Definition Temperature (value : number) (unit : string) : Measurement :=
  {| value_of := value; unit_of := unit |}.

(** [Duration(value, unit)] and [minutes(value)] of [measurement.js]. *)
Definition Duration (value : number) (unit : string) : Measurement :=
  {| value_of := value; unit_of := unit |}.

Definition minutes (value : number) : Measurement :=
  Duration value "minutes".

(** [StoveHeat[key]].  The keys that the object inherits all have a
    lower-case letter. *)
Definition StoveHeat (key : string) : option Measurement :=
  if String.eqb key "LOW" then Some (Temperature (Finite 1) "level")
  else if String.eqb key "MEDIUM_LOW" then Some (Temperature (Finite 2) "level")
  else if String.eqb key "MEDIUM" then Some (Temperature (Finite 3) "level")
  else if String.eqb key "MEDIUM_HIGH" then Some (Temperature (Finite 4) "level")
  else if String.eqb key "HIGH" then Some (Temperature (Finite 5) "level")
  else None.

Module ActionType.
Definition ADD := "add".
Definition MIX := "mix".
Definition HEAT := "heat".
Definition TRANSFER := "transfer".
Definition PREPARE := "prepare".
Definition REST := "rest".
Definition EQUIPMENT_SETTING := "equipmentSetting".
Definition PREHEAT := "preheat".
End ActionType.

(** A [RecipeStep] instance while it is built: the five fields that the hash
    and [toJSON] read, and the two that only the builder methods read.  An
    action is kept as the properties of [Action]; what a method stores under
    another name ([from], [to], [technique], [equipment], [setting],
    [appliance], [targetTemperature], [method], [condition]) is not kept.  An
    element [None] of [currentIngredients] is [undefined]. *)
Record Builder := {
  built : RecipeStep;
  currentIngredients : list (option Entity);
  currentContainer : option Entity
}.

(** [new RecipeStep()] *)
Definition new_RecipeStep : Builder :=
  {| built := mkRecipeStep [] [] [] [] [];
     currentIngredients := []; currentContainer := None |}.

(** The argument of [add]: one value, [None] when the call has none, or an
    array. *)
Inductive ingredients_argument :=
  | one (ingredient : option Entity)
  | array (ingredients : list Entity).

(** The calls of a chain.  The callback of [parallel] is taken to be a chain
    of calls on the step it receives. *)
#[local] Unset Elimination Schemes.
Inductive call :=
  | add (ingredients : ingredients_argument)
  | to (container : Entity)
  | mix
  | heat (temperature : option TemperatureField)
  | for_ (duration : Measurement)
  | transfer (toContainer : Entity)
  | prepare (techniques : list string)
  | setEquipment (equipment : Entity) (setting : value)
  | rest (duration : Measurement)
  | preheat (appliance : Entity) (temperature : Measurement)
  | grillSetup (temperature : Measurement) (method : string)
  | cookToTemperature (targetTemperature : Measurement)
  | parallel (callback : list call)
  | untilCondition (condition : string)
  | untilCue (cueType description : string)
  | adjust (condition action : string)
  | checkSensory (feedbackType description adjustment : string).
#[local] Set Elimination Schemes.

Definition with_built (this : Builder) (step : RecipeStep) : Builder :=
  {| built := step; currentIngredients := currentIngredients this;
     currentContainer := currentContainer this |}.

(** [this.actions.push(...)], once for each action of the list. *)
Definition push_actions (new : list Action) (this : Builder) : Builder :=
  let s := built this in
  with_built this
    (mkRecipeStep (actions s ++ new) (threads s) (cues s) (adjustments s)
       (sensoryChecks s)).

Definition set_actions (acts : list Action) (this : Builder) : Builder :=
  let s := built this in
  with_built this
    (mkRecipeStep acts (threads s) (cues s) (adjustments s) (sensoryChecks s)).

Definition set_container (container : option Entity) (this : Builder)
  : Builder :=
  {| built := built this; currentIngredients := currentIngredients this;
     currentContainer := container |}.

Definition action (type : string) (ingredient container : option Entity)
  (temperature : option TemperatureField) (duration : option Measurement)
  : Action :=
  {| action_type := type; ingredient := ingredient; container := container;
     temperature := temperature; duration := duration |}.

Definition set_duration (d : Measurement) (a : Action) : Action :=
  action (action_type a) (ingredient a) (container a) (temperature a) (Some d).

(** The errors of V8 for an assignment to a property of [undefined]. *)
Definition duration_error : exn :=
  TypeError "Cannot set properties of undefined (setting 'duration')".
Definition condition_error : exn :=
  TypeError "Cannot set properties of undefined (setting 'condition')".

Section Calls.
Context `{Engine}.

(** [StoveHeat[temperature.toUpperCase()] || temperature] for a string, the
    argument itself otherwise. *)
Definition heat_temperature (temperature : option TemperatureField)
  : option TemperatureField :=
  match temperature with
  | Some (TemperatureString s) =>
      match StoveHeat (toUpperCase s) with
      | Some level => Some (TemperatureObject level)
      | None => Some (TemperatureString s)
      end
  | _ => temperature
  end.

(** One call on [this]; the result is [this] after it.  A call that throws
    has changed nothing. *)
Fixpoint call_method (c : call) (this : Builder) {struct c}
  : completion Builder :=
  let acts := actions (built this) in
  match c with
  | add (one ingredient) =>
      Return {| built := built this; currentIngredients := [ingredient];
                currentContainer := currentContainer this |}
  | add (array ingredients) =>
      Return {| built := built this;
                currentIngredients := map Some ingredients;
                currentContainer := currentContainer this |}
  | to container =>
      let new :=
        map (fun ingredient =>
               action ActionType.ADD ingredient (Some container) None None)
          (currentIngredients this) in
      Return (set_container (Some container) (push_actions new this))
  | mix =>
      Return (push_actions
                [action ActionType.MIX None (currentContainer this) None None]
                this)
  | heat temperature =>
      Return (push_actions
                [action ActionType.HEAT None (currentContainer this)
                   (heat_temperature temperature) None] this)
  | for_ duration =>
      match acts !! (length acts - 1)%nat with
      | Some lastAction =>
          Return (set_actions
                    (<[(length acts - 1)%nat := set_duration duration lastAction]>
                       acts) this)
      | None => Throw duration_error
      end
  | transfer toContainer =>
      Return (set_container (Some toContainer)
                (push_actions [action ActionType.TRANSFER None None None None]
                   this))
  | prepare techniques =>
      let new :=
        map (fun _ : string =>
               action ActionType.PREPARE
                 (mjoin (head (currentIngredients this))) None None None)
          techniques in
      Return (push_actions new this)
  | setEquipment _ _ =>
      Return (push_actions
                [action ActionType.EQUIPMENT_SETTING None None None None] this)
  | rest duration =>
      Return (push_actions
                [action ActionType.REST None None None (Some duration)] this)
  | preheat _ temperature =>
      Return (push_actions
                [action ActionType.PREHEAT None None
                   (Some (TemperatureObject temperature)) None] this)
  | grillSetup temperature _ =>
      Return (push_actions
                [action ActionType.EQUIPMENT_SETTING None None
                   (Some (TemperatureObject temperature)) None] this)
  | cookToTemperature _ =>
      Return (push_actions [action ActionType.HEAT None None None None] this)
  | parallel callback =>
      let chain :=
        fix chain (cs : list call) (step : Builder)
          : completion unit * Builder :=
          match cs with
          | [] => (Return tt, step)
          | c :: cs' =>
              match call_method c step with
              | Return step' => chain cs' step'
              | Throw e => (Throw e, step)
              end
          end in
      match chain callback new_RecipeStep with
      | (Return _, parallelStep) =>
          let s := built this in
          Return (with_built this
                    (mkRecipeStep (actions s)
                       (threads s ++ [built parallelStep]) (cues s)
                       (adjustments s) (sensoryChecks s)))
      | (Throw e, _) => Throw e
      end
  | untilCondition _ =>
      match acts !! (length acts - 1)%nat with
      | Some _ => Return this
      | None => Throw condition_error
      end
  | untilCue cueType description =>
      let s := built this in
      Return (with_built this
                (mkRecipeStep (actions s) (threads s)
                   (cues s ++ [{| cue_type := cueType;
                                  cue_description := description |}])
                   (adjustments s) (sensoryChecks s)))
  | adjust condition act =>
      let s := built this in
      Return (with_built this
                (mkRecipeStep (actions s) (threads s) (cues s)
                   (adjustments s ++ [{| adj_condition := condition;
                                         adj_action := act |}])
                   (sensoryChecks s)))
  | checkSensory feedbackType description adjustment =>
      let s := built this in
      Return (with_built this
                (mkRecipeStep (actions s) (threads s) (cues s) (adjustments s)
                   (sensoryChecks s
                    ++ [{| check_type := feedbackType;
                           check_description := description;
                           check_adjustment := adjustment |}])))
  end.

(** A chain [step.c1(..).c2(..)...]: the calls in turn, up to the first that
    throws. *)
Fixpoint chain (cs : list call) (step : Builder)
  : completion unit * Builder :=
  match cs with
  | [] => (Return tt, step)
  | c :: cs' =>
      match call_method c step with
      | Return step' => chain cs' step'
      | Throw e => (Throw e, step)
      end
  end.

End Calls.

(** The object that [toJSON] of a step returns. *)
#[local] Unset Elimination Schemes.
Inductive StepJSON := mkStepJSON {
  json_actions : list Action;
  json_threads : list StepJSON;
  json_cues : list Cue;
  json_adjustments : list Adjustment;
  json_sensoryChecks : list SensoryCheck
}.
#[local] Set Elimination Schemes.

(** [step.toJSON()]; it reads none of the builder's own two fields. *)
Fixpoint toJSON (step : RecipeStep) : StepJSON :=
  mkStepJSON (actions step) (map toJSON (threads step)) (cues step)
    (adjustments step) (sensoryChecks step).

(** [RecipeStep.fromJSON(json)] *)
Fixpoint fromJSON (json : StepJSON) : Builder :=
  {| built :=
       mkRecipeStep (json_actions json)
         (map (fun thread => built (fromJSON thread)) (json_threads json))
         (json_cues json) (json_adjustments json) (json_sensoryChecks json);
     currentIngredients := []; currentContainer := None |}.

(** Upper case for the letters a to z, which is what [toUpperCase] does on
    ASCII text. *)
Definition ascii_upper (c : ascii) : ascii :=
  let n := nat_of_ascii c in
  if ((97 <=? n) && (n <=? 122))%nat then ascii_of_nat (n - 32) else c.

Fixpoint string_upper (s : string) : string :=
  match s with
  | EmptyString => EmptyString
  | String c s' => String (ascii_upper c) (string_upper s')
  end.

#[export] Instance ascii_engine : Engine := {| toUpperCase := string_upper |}.

Example string_upper_example :
  string_upper "medium-Low_9" = "MEDIUM-LOW_9".
Proof. reflexivity. Qed.

(** The chains of the two example files build the steps of [Examples]. *)
Example chain_examples :
  chain [add (one (Some Examples.latte)); to Examples.tazza; mix]
    new_RecipeStep
  = (Return tt,
     {| built := Examples.step1;
        currentIngredients := [Some Examples.latte];
        currentContainer := Some Examples.tazza |})
  /\ chain [heat None; for_ (minutes (Finite 1))]
       new_RecipeStep
     = (Return tt, with_built new_RecipeStep Examples.step2)
  /\ chain [add (one (Some Examples.cookie)); to Examples.tazza]
       new_RecipeStep
     = (Return tt,
        {| built := Examples.step3;
           currentIngredients := [Some Examples.cookie];
           currentContainer := Some Examples.tazza |}).
Proof. repeat split. Qed.

(** * Facts about the step builder *)

(** A call without a callback. *)
Definition no_callback (c : call) : bool :=
  match c with parallel _ => false | _ => true end.

(** Induction on a call, with the calls of a callback as hypotheses. *)
Lemma call_callback_ind (P : call -> Prop) :
  (forall c, no_callback c = true -> P c) ->
  (forall callback, Forall P callback -> P (parallel callback)) ->
  forall c, P c.
Proof.
  intros Hbase Hparallel.
  fix IH 1. intros c.
  destruct c as [?|?| |?|?|?|?|? ?|?|? ?|? ?|?|callback|?|? ?|? ?|? ? ?];
    try (apply Hbase; reflexivity).
  apply Hparallel.
  exact ((fix all (l : list call) : Forall P l :=
            match l with
            | [] => List.Forall_nil P
            | c' :: l' => @List.Forall_cons _ P c' l' (IH c') (all l')
            end) callback).
Qed.

(** An action up to its duration. *)
Definition without_duration (a : Action) : Action :=
  action (action_type a) (ingredient a) (container a) (temperature a) None.

(** What every call keeps of a step: each action at its index, up to the
    duration when it is the last one, and each of the other lists as the
    beginning of the new one. *)
Definition grows (before after : RecipeStep) : Prop :=
  (forall i a, actions before !! i = Some a ->
     exists a', actions after !! i = Some a'
       /\ without_duration a' = without_duration a
       /\ (S i < length (actions before) -> a' = a)%nat)
  /\ cues before `prefix_of` cues after
  /\ adjustments before `prefix_of` adjustments after
  /\ sensoryChecks before `prefix_of` sensoryChecks after
  /\ threads before `prefix_of` threads after.

Section BuilderFacts.
Context `{Engine} `{Node}.

Lemma call_method_parallel (callback : list call) (this : Builder) :
  call_method (parallel callback) this
  = match chain callback new_RecipeStep with
    | (Return _, parallelStep) =>
        let s := built this in
        Return (with_built this
                  (mkRecipeStep (actions s)
                     (threads s ++ [built parallelStep]) (cues s)
                     (adjustments s) (sensoryChecks s)))
    | (Throw e, _) => Throw e
    end.
Proof. reflexivity. Qed.

Lemma grows_refl (s : RecipeStep) : grows s s.
Proof.
  repeat split; try reflexivity.
  intros i a Ha. exists a. auto.
Qed.

Lemma grows_trans (s1 s2 s3 : RecipeStep) :
  grows s1 s2 -> grows s2 s3 -> grows s1 s3.
Proof.
  intros (Ha1 & Hc1 & Hj1 & Hs1 & Ht1) (Ha2 & Hc2 & Hj2 & Hs2 & Ht2).
  repeat split; try (etransitivity; eassumption).
  intros i a Hi.
  destruct (Ha1 i a Hi) as (a' & Hi' & Hd' & Hsame').
  destruct (Ha2 i a' Hi') as (a'' & Hi'' & Hd'' & Hsame'').
  exists a''. split; [exact Hi''|]. split; [congruence|].
  intros Hlt.
  assert (S i < length (actions s2))%nat as Hlt2.
  { destruct (lookup_lt_is_Some_2 (actions s1) (length (actions s1) - 1))
      as [b Hb]; [lia|].
    destruct (Ha1 _ b Hb) as (b' & Hb' & _).
    apply lookup_lt_Some in Hb'. lia. }
  rewrite (Hsame'' Hlt2). auto.
Qed.

Lemma grows_push (this : Builder) (new : list Action) :
  grows (built this) (built (push_actions new this)).
Proof.
  repeat split; try reflexivity.
  intros i a Ha. exists a. cbn.
  rewrite lookup_app_l by (now apply lookup_lt_Some in Ha). auto.
Qed.

Lemma call_grows (c : call) (this after : Builder) :
  call_method c this = Return after -> grows (built this) (built after).
Proof.
  destruct c as [[i|l]|k| |t|d|k|ts|e v|d|e t|t m|t|cb|s|ct ds|cn ac|ft ds aj];
    try (intros [= <-]; first [apply grows_refl | apply grows_push]).
  - (* for *)
    cbn [call_method].
    destruct (actions (built this) !! (length (actions (built this)) - 1)%nat)
      as [lastAction|] eqn:Hlast; [|discriminate].
    intros [= <-]. repeat split; try reflexivity.
    intros i a Ha. cbn [built set_actions with_built actions].
    pose proof (lookup_lt_Some _ _ _ Ha) as Hlt.
    destruct (decide (i = length (actions (built this)) - 1)%nat) as [->|Hne].
    + rewrite list_lookup_insert_eq by lia.
      exists (set_duration d lastAction).
      rewrite Hlast in Ha. injection Ha as <-.
      split; [reflexivity|]. split; [reflexivity|]. lia.
    + rewrite list_lookup_insert_ne by congruence.
      exists a. auto.
  - (* parallel *)
    rewrite call_method_parallel.
    destruct (chain cb new_RecipeStep) as [[[]|e] p]; [|discriminate].
    intros [= <-]. repeat split; try reflexivity.
    + intros i a Ha. exists a. auto.
    + now apply prefix_app_r.
  - (* untilCondition *)
    cbn [call_method].
    destruct (actions (built this) !! (length (actions (built this)) - 1)%nat);
      [|discriminate].
    intros [= <-]. apply grows_refl.
  - (* untilCue *)
    intros [= <-]. repeat split; try reflexivity.
    + intros i a Ha. exists a. auto.
    + now apply prefix_app_r.
  - (* adjust *)
    intros [= <-]. repeat split; try reflexivity.
    + intros i a Ha. exists a. auto.
    + now apply prefix_app_r.
  - (* checkSensory *)
    intros [= <-]. repeat split; try reflexivity.
    + intros i a Ha. exists a. auto.
    + now apply prefix_app_r.
Qed.

Lemma chain_grows (cs : list call) (this after : Builder)
  (c : completion unit) :
  chain cs this = (c, after) -> grows (built this) (built after).
Proof.
  revert this. induction cs as [|c1 cs IH]; intros this.
  - intros [= _ <-]. apply grows_refl.
  - cbn [chain]. destruct (call_method c1 this) as [next|e] eqn:Hcall.
    + intros Hrest. eapply grows_trans; [|exact (IH _ Hrest)].
      now apply (call_grows c1).
    + intros [= _ <-]. apply grows_refl.
Qed.

Lemma call_throws (c : call) :
  forall this e, call_method c this = Throw e ->
                 e = duration_error \/ e = condition_error.
Proof.
  induction c as [c Hc|cb IH] using call_callback_ind.
  - destruct c
      as [[i|l]|k| |t|d|k|ts|e' v|d|e' t|t m|t|cb|s|ct ds|cn ac|ft ds aj];
      intros this e; try discriminate.
    + cbn [call_method].
      destruct (actions (built this)
                  !! (length (actions (built this)) - 1)%nat);
        [discriminate|]. intros [= <-]. now left.
    + cbn [call_method].
      destruct (actions (built this)
                  !! (length (actions (built this)) - 1)%nat);
        [discriminate|]. intros [= <-]. now right.
  - intros this e. rewrite call_method_parallel.
    assert (forall p e1 p1, chain cb p = (Throw e1, p1) ->
              e1 = duration_error \/ e1 = condition_error) as Hchain.
    { clear this e. induction IH as [|c1 cs Hc1 _ IHcs]; intros p e1 p1.
      - discriminate.
      - cbn [chain]. destruct (call_method c1 p) as [p'|e2] eqn:Hcall.
        + apply IHcs.
        + intros [= <- _]. now apply (Hc1 p). }
    destruct (chain cb new_RecipeStep) as [[[]|e1] p1] eqn:Hcb; [discriminate|].
    intros [= <-]. now apply (Hchain _ _ _ Hcb).
Qed.

Lemma call_returns (c : call) (this : Builder) :
  no_callback c = true -> actions (built this) <> [] ->
  exists after,
    call_method c this = Return after /\ actions (built after) <> [].
Proof.
  intros Hc Hacts.
  assert (forall new, actions (built (push_actions new this)) <> []) as Hpush.
  { intros new. cbn. destruct (actions (built this)); [easy|discriminate]. }
  assert (is_Some (actions (built this)
                     !! (length (actions (built this)) - 1)%nat)) as [a Ha].
  { apply lookup_lt_is_Some_2.
    destruct (actions (built this)); [easy|cbn; lia]. }
  destruct c as [[i|l]|k| |t|d|k|ts|e' v|d|e' t|t m|t|cb|s|ct ds|cn ac|ft ds aj];
    try discriminate; cbn [call_method]; rewrite ?Ha;
    eexists; (split; [reflexivity|]); try exact Hacts; try apply Hpush.
  cbn. intros Hnil.
  apply (f_equal length) in Hnil. rewrite length_insert in Hnil.
  destruct (actions (built this)); [easy|discriminate].
Qed.

Lemma chain_returns (cs : list call) (this : Builder) :
  forallb no_callback cs = true -> actions (built this) <> [] ->
  exists after,
    chain cs this = (Return tt, after) /\ actions (built after) <> [].
Proof.
  revert this. induction cs as [|c cs IH]; intros this Hcs Hacts.
  - exists this. auto.
  - cbn [forallb] in Hcs. apply andb_true_iff in Hcs as [Hc Hcs].
    destruct (call_returns c this Hc Hacts) as (next & Hcall & Hnext).
    cbn [chain]. rewrite Hcall. now apply IH.
Qed.

Lemma hashStep_actions (s : RecipeStep) (new : list Action)
  (n : Z) (buckets : list Z) :
  _hashStep
    (mkRecipeStep (actions s ++ new) (threads s) (cues s) (adjustments s)
       (sensoryChecks s)) buckets n
  = hash_values n (flat_map action_tokens new) (_hashStep s buckets n).
Proof.
  rewrite !hashStep_tokens, <- hash_values_app.
  apply hash_values_perm.
  destruct s as [acts ths cs adjs scs].
  cbn [step_tokens actions cues sensoryChecks threads].
  rewrite flat_map_app, <- !app_assoc.
  apply Permutation_app_head.
  etransitivity; [apply Permutation_app_comm|].
  now rewrite <- !app_assoc.
Qed.

Lemma toJSON_fromJSON (step : RecipeStep) :
  built (fromJSON (toJSON step)) = step.
Proof.
  induction step as [acts ths cs adjs scs IH] using RecipeStep_threads_ind.
  cbn [toJSON fromJSON built actions threads cues adjustments sensoryChecks
       json_actions json_threads json_cues json_adjustments
       json_sensoryChecks].
  f_equal. rewrite map_map.
  induction IH as [|t ts Ht _ IHts]; [reflexivity|].
  cbn [map]. now rewrite Ht, IHts.
Qed.

Lemma fromJSON_toJSON :
  forall json : StepJSON, toJSON (built (fromJSON json)) = json.
Proof.
  fix IH 1. intros [acts ths cs adjs scs].
  cbn [toJSON fromJSON built actions threads cues adjustments sensoryChecks
       json_actions json_threads json_cues json_adjustments
       json_sensoryChecks].
  f_equal. rewrite map_map.
  induction ths as [|t ts IHts]; [reflexivity|].
  cbn [map]. now rewrite IH, IHts.
Qed.

End BuilderFacts.

(** X14.  No call of the builder removes or reorders anything.  After any
    chain of calls, whether it ends or throws, every action of the step is
    still at its index, with the same type, ingredient, container and
    temperature, and with the same duration too unless it was the last one;
    the cues, the adjustments, the sensory checks and the threads have only
    got longer. *)
Theorem builder_appends `{Engine} (cs : list call) (this after : Builder)
  (c : completion unit) :
  chain cs this = (c, after) ->
  (forall i a, actions (built this) !! i = Some a ->
     exists a', actions (built after) !! i = Some a'
       /\ without_duration a' = without_duration a
       /\ (S i < length (actions (built this)) -> a' = a)%nat)
  /\ cues (built this) `prefix_of` cues (built after)
  /\ adjustments (built this) `prefix_of` adjustments (built after)
  /\ sensoryChecks (built this) `prefix_of` sensoryChecks (built after)
  /\ threads (built this) `prefix_of` threads (built after).
Proof. apply chain_grows. Qed.

Lemma builder_appends_witness :
  cues Examples.step1
    `prefix_of`
    cues (built (snd (chain [untilCue "color" "golden"; rest (minutes (Finite 5))]
                        (with_built new_RecipeStep Examples.step1)))).
Proof.
  destruct (chain [untilCue "color" "golden"; rest (minutes (Finite 5))]
              (with_built new_RecipeStep Examples.step1))
    as [c after] eqn:E.
  apply (builder_appends
           [untilCue "color" "golden"; rest (minutes (Finite 5))]
           (with_built new_RecipeStep Examples.step1) after c E).
Defined.

(** X15.  The one way a chain of builder calls throws: [for] and
    [untilCondition] throw a TypeError on a step that has no action, and no
    call throws anything else.  On a step that has an action, every chain of
    calls other than [parallel] runs to its end. *)
Theorem builder_type_errors `{Engine} (this : Builder) :
  (forall c e, call_method c this = Throw e ->
               e = duration_error \/ e = condition_error)
  /\ (actions (built this) = [] ->
      forall d s,
        call_method (for_ d) this = Throw duration_error
        /\ call_method (untilCondition s) this = Throw condition_error)
  /\ (actions (built this) <> [] ->
      forall cs, forallb no_callback cs = true ->
        exists after,
          chain cs this = (Return tt, after)
          /\ actions (built after) <> []).
Proof.
  split; [|split].
  - intros c e. apply call_throws.
  - intros Hnil d s. cbn [call_method].
    destruct (actions (built this)); [auto|discriminate Hnil].
  - intros Hacts cs Hcs. now apply chain_returns.
Qed.

Lemma builder_type_errors_witness :
  call_method (for_ (minutes (Finite 1))) new_RecipeStep
  = Throw duration_error
  /\ exists after,
       chain [for_ (minutes (Finite 1)); untilCondition "done"]
         (with_built new_RecipeStep Examples.step1)
       = (Return tt, after)
       /\ actions (built after) <> [].
Proof.
  destruct (builder_type_errors new_RecipeStep) as (_ & Hempty & _).
  destruct (builder_type_errors (with_built new_RecipeStep Examples.step1))
    as (_ & _ & Hchain).
  split.
  - now destruct (Hempty eq_refl (minutes (Finite 1)) "done").
  - apply Hchain; [discriminate|reflexivity].
Defined.

(** X16.  Calls whose arguments never reach the hash.  [add], [adjust] and,
    where it does not throw, [untilCondition] leave the hash of the step as
    it is; [transfer], [setEquipment] and [cookToTemperature] add the one
    token of their action type, whatever the container, the equipment, the
    setting or the target temperature. *)
Theorem unhashed_arguments `{Engine} `{Node} (this : Builder) (n : Z)
  (buckets : list Z) :
  let hash (step : completion Builder) : completion (list Z) :=
    match step with
    | Return after => Return (_hashStep (built after) buckets n)
    | Throw e => Throw e
    end in
  let before := _hashStep (built this) buckets n in
  (forall i, hash (call_method (add i) this) = Return before)
  /\ (forall cn ac, hash (call_method (adjust cn ac) this) = Return before)
  /\ (forall s, actions (built this) <> [] ->
        hash (call_method (untilCondition s) this) = Return before)
  /\ (forall k,
        hash (call_method (transfer k) this)
        = Return (_hashAttribute (VString "transfer") before n))
  /\ (forall e v,
        hash (call_method (setEquipment e v) this)
        = Return (_hashAttribute (VString "equipmentSetting") before n))
  /\ (forall t,
        hash (call_method (cookToTemperature t) this)
        = Return (_hashAttribute (VString "heat") before n)).
Proof.
  intros hash before. subst hash before. repeat split.
  - intros [i|l]; reflexivity.
  - intros cn ac. destruct this as [[acts ths cs adjs scs] ci cc].
    cbn [call_method]. rewrite !hashStep_tokens. reflexivity.
  - intros s Hacts. cbn [call_method].
    destruct (lookup_lt_is_Some_2 (actions (built this))
                (length (actions (built this)) - 1)) as [a ->];
      [|reflexivity].
    destruct (actions (built this)); [easy|cbn; lia].
  - intros k. cbn [call_method built set_container push_actions with_built].
    rewrite hashStep_actions. reflexivity.
  - intros e v. cbn [call_method built push_actions with_built].
    rewrite hashStep_actions. reflexivity.
  - intros t. cbn [call_method built push_actions with_built].
    rewrite hashStep_actions. reflexivity.
Qed.

Lemma unhashed_arguments_witness :
  let this := with_built new_RecipeStep Examples.step1 in
  let before :=
    _hashStep (H := ReferenceFacts.node) Examples.step1
      (repeat 0 256%nat) 256 in
  match call_method (untilCondition "thick") this with
  | Return after =>
      Return (_hashStep (H := ReferenceFacts.node) (built after)
                (repeat 0 256%nat) 256)
  | Throw e => Throw e
  end = Return before
  /\ match call_method (transfer Examples.tazza) this with
     | Return after =>
         Return (_hashStep (H := ReferenceFacts.node) (built after)
                   (repeat 0 256%nat) 256)
     | Throw e => Throw e
     end
     = Return (_hashAttribute (H := ReferenceFacts.node) (VString "transfer")
                 before 256).
Proof.
  intros this before.
  destruct (unhashed_arguments (H0 := ReferenceFacts.node) this 256
              (repeat 0 256%nat)) as (_ & _ & Huntil & Htransfer & _).
  split.
  - apply Huntil. discriminate.
  - apply Htransfer.
Defined.

(** X17.  [heat] with a string: when the string in upper case is one of
    [LOW], [MEDIUM_LOW], [MEDIUM], [MEDIUM_HIGH], [HIGH], the action gets the
    level and the hash counts its value, 1 to 5; any other string is stored
    as it is and adds nothing to the hash, so that the hash cannot tell two
    such strings apart. *)
Theorem heat_by_name `{Engine} `{Node} (this : Builder) (s : string) (n : Z)
  (buckets : list Z) :
  let after := push_actions
                 [action "heat" None (currentContainer this)
                    (heat_temperature (Some (TemperatureString s))) None]
                 this in
  let heated :=
    hash_values n
      (VString "heat"
       :: match currentContainer this with
          | Some k => [VString (name k)]
          | None => []
          end)
      (_hashStep (built this) buckets n) in
  call_method (heat (Some (TemperatureString s))) this = Return after
  /\ (forall level, StoveHeat (toUpperCase s) = Some level ->
        In (value_of level) [Finite 1; Finite 2; Finite 3; Finite 4; Finite 5]
        /\ _hashStep (built after) buckets n
           = _hashAttribute (VNumber (value_of level)) heated n)
  /\ (StoveHeat (toUpperCase s) = None ->
        _hashStep (built after) buckets n = heated).
Proof.
  intros after heated. split; [reflexivity|]. subst after heated.
  split.
  - intros level Hlevel. split.
    + unfold StoveHeat in Hlevel.
      repeat (destruct (String.eqb (toUpperCase s) _);
              [injection Hlevel as <-; cbn; tauto|]).
      discriminate.
    + cbn [built push_actions with_built].
      rewrite hashStep_actions. unfold heat_temperature. rewrite Hlevel.
      cbn [flat_map action_tokens action_head action_tail action action_type
           ingredient container temperature duration app].
      destruct (currentContainer this); reflexivity.
  - intros Hnone. cbn [built push_actions with_built].
    rewrite hashStep_actions. unfold heat_temperature.
    rewrite Hnone.
    cbn [flat_map action_tokens action_head action_tail action action_type
         ingredient container temperature duration app].
    destruct (currentContainer this); reflexivity.
Qed.

Lemma heat_by_name_witness :
  let this := with_built new_RecipeStep Examples.step1 in
  let heated :=
    hash_values (H := ReferenceFacts.node) 256 [VString "heat"]
      (_hashStep (H := ReferenceFacts.node) Examples.step1
         (repeat 0 256%nat) 256) in
  _hashStep (H := ReferenceFacts.node)
    (built (snd (chain [heat (Some (TemperatureString "medium"))] this)))
    (repeat 0 256%nat) 256
  = _hashAttribute (H := ReferenceFacts.node) (VNumber (Finite 3)) heated 256
  /\ _hashStep (H := ReferenceFacts.node)
       (built (snd (chain [heat (Some (TemperatureString "medium-low"))]
                      this)))
       (repeat 0 256%nat) 256
     = heated.
Proof.
  intros this heated.
  destruct (heat_by_name (H0 := ReferenceFacts.node) this "medium" 256
              (repeat 0 256%nat)) as (_ & Hlevel & _).
  destruct (heat_by_name (H0 := ReferenceFacts.node) this "medium-low" 256
              (repeat 0 256%nat)) as (_ & _ & Hnone).
  split.
  - apply (Hlevel (Temperature (Finite 3) "level")). reflexivity.
  - apply Hnone. reflexivity.
Defined.

(** X18.  [RecipeStep.fromJSON(step.toJSON())] has the actions, threads at
    every depth, cues, adjustments and sensory checks of [step], hence its
    hash, but not the ingredients and the container its builder was working
    with; and [toJSON] gives back the object that [fromJSON] was given. *)
Theorem step_json_roundtrip `{Node} (this : Builder) (json : StepJSON) :
  built (fromJSON (toJSON (built this))) = built this
  /\ currentIngredients (fromJSON (toJSON (built this))) = []
  /\ currentContainer (fromJSON (toJSON (built this))) = None
  /\ (forall buckets n,
        _hashStep (built (fromJSON (toJSON (built this)))) buckets n
        = _hashStep (built this) buckets n)
  /\ toJSON (built (fromJSON json)) = json.
Proof.
  split; [apply toJSON_fromJSON|].
  split; [now destruct (toJSON (built this))|].
  split; [now destruct (toJSON (built this))|].
  split; [|apply fromJSON_toJSON].
  intros buckets n. now rewrite toJSON_fromJSON.
Qed.

(** * What the hash can tell apart *)

(** The text that [_hashAttribute] digests for a value. *)
Definition token_key `{Node} (v : value) : string :=
  toLowerCase (toString v).

Section Keys.
Context `{Node}.

Lemma value_index_key (v w : value) (n : Z) :
  hashable v -> hashable w -> token_key v = token_key w ->
  value_index v n = value_index w n.
Proof.
  unfold token_key. intros [Hv1 Hv2] [Hw1 Hw2] Hkey.
  destruct v, w; try congruence; cbn [value_index]; now rewrite Hkey.
Qed.

Lemma hash_values_keys (n : Z) (l1 l2 : list value) (buckets : list Z) :
  Forall hashable l1 -> Forall hashable l2 ->
  map token_key l1 = map token_key l2 ->
  hash_values n l1 buckets = hash_values n l2 buckets.
Proof.
  intros H1. revert l2 buckets.
  induction H1 as [|v l1 Hv _ IH]; intros [|w l2] b H2 Hmap;
    try discriminate; [reflexivity|].
  apply Forall_cons in H2 as [Hw H2]. injection Hmap as Hkey Hmap.
  change (hash_values n l1 (_hashAttribute v b n)
          = hash_values n l2 (_hashAttribute w b n)).
  rewrite !hashAttribute_increment, (value_index_key v w n Hv Hw Hkey).
  now apply IH.
Qed.

Lemma total_distance_triangle (a b c : list Z) :
  length a = length b -> length b = length c ->
  total_distance a c <= total_distance a b + total_distance b c.
Proof.
  revert b c. induction a as [|x a IH]; intros [|y b] [|z c] Hab Hbc;
    cbn [length] in Hab, Hbc; try lia; [reflexivity|].
  cbn [total_distance]. injection Hab as Hab. injection Hbc as Hbc.
  specialize (IH b c Hab Hbc). lia.
Qed.

Lemma similarity_add (d1 d2 n : Z) :
  0 < n ->
  similarity (d1 + d2) n == similarity d1 n + similarity d2 n - 1.
Proof.
  intros Hn. unfold similarity. rewrite inject_Z_plus.
  assert (~ inject_Z n == 0) as Hnz.
  { change 0%Q with (inject_Z 0). rewrite inject_Z_injective. lia. }
  field. exact Hnz.
Qed.

End Keys.

(** X19.  The hash depends on nothing but the multiset of the lower-cased
    texts of the tokens: two recipes whose tokens have the same texts up to
    case and order have the same hash, for every bucket count.  So the hash
    cannot tell the field a text came from, a number from the string of its
    digits, or one order of ingredients, steps and actions from another. *)
Theorem hash_of_token_keys `{Node} (r1 r2 : Recipe) (numBuckets : number) :
  Permutation (map token_key (recipe_tokens r1))
    (map token_key (recipe_tokens r2)) ->
  compute_hash r1 numBuckets = compute_hash r2 numBuckets.
Proof.
  intros Hperm. apply compute_hash_histogram. intros n.
  rewrite !histogram_tokens.
  apply Permutation_map_inv in Hperm as (l & Hkeys & Hl).
  rewrite (hash_values_perm n _ _ _ Hl).
  apply hash_values_keys.
  - apply recipe_tokens_hashable.
  - rewrite <- Hl. apply recipe_tokens_hashable.
  - exact Hkeys.
Qed.

(** An ingredient named "3" and upper-case names against a rest of 3
    minutes and the names in lower case, in another order. *)
Lemma hash_of_token_keys_witness :
  compute_hash (H := ReferenceFacts.node)
    (Recipe_new "a"
       [Examples.Ingredient "LATTE" 1 "cup"; Examples.Ingredient "3" 1 "cup";
        Examples.Ingredient "Rest" 1 "cup"] [] [])
    (Finite 256)
  = compute_hash (H := ReferenceFacts.node)
      (Recipe_new "b" [Examples.Ingredient "latte" 2 "l"]
         [Examples.with_actions
            [action "rest" None None None (Some (minutes (Finite 3)))]]
         [])
      (Finite 256).
Proof.
  apply (hash_of_token_keys (H := ReferenceFacts.node)).
  vm_compute. apply perm_skip, perm_swap.
Defined.

(** X20.  With one bucket the hash is the number of tokens and nothing
    else: [cook(1)] encodes the histogram whose only counter is the number of
    tokens of the recipe. *)
Theorem one_bucket_counts `{Node} (r : Recipe) :
  compute_hash r (Finite 1)
  = Return (encode [Z.of_nat (length (recipe_tokens r))]).
Proof.
  unfold compute_hash.
  change (array_length (Finite 1)) with (Some 1).
  cbv zeta. destruct (histogram_facts r 1) as (Htotal & _ & Hlen); [lia|].
  cbv zeta in Htotal, Hlen. change (Z.to_nat 1) with 1%nat in *.
  destruct (histogram r 1 (repeat 0 1%nat)) as [|x [|y l]];
    try discriminate.
  rewrite total_cons in Htotal. change (total []) with 0 in Htotal.
  do 3 f_equal. lia.
Qed.

(** X21.  A hash cached by [cook(n)] with [n] other than 256 makes the
    comparison with a recipe that has no cached hash fail: for recipes of at
    most 255 tokens, after [a.cook(n)], [a.compareTo(b)] throws "Hashes must
    be of equal length". *)
Theorem compareTo_after_cook `{Node} (a b : loc) (st : store)
  (ra rb : Recipe) (numBuckets : number) (n : Z) :
  st !! a = Some ra -> st !! b = Some rb -> a <> b ->
  cached_hash ra = None -> cached_hash rb = None ->
  array_length numBuckets = Some n -> n <> 256 ->
  (length (recipe_tokens ra) <= 255)%nat ->
  (length (recipe_tokens rb) <= 255)%nat ->
  exists h st1 st2,
    cook a numBuckets st = (Return h, st1)
    /\ compareTo a (OtherRecipe b) st1
       = (Throw (Error "Hashes must be of equal length"), st2).
Proof.
  intros Ha Hb Hne Hca Hcb Hn Hn256 Hka Hkb.
  pose proof (histogram_byte_range ra n Hka) as Hra.
  pose proof (histogram_byte_range rb 256 Hkb) as Hrb.
  change (Z.to_nat 256) with 256%nat in Hrb.
  set (ha := histogram ra n (repeat 0 (Z.to_nat n))) in *.
  set (hb := histogram rb 256 (repeat 0 256%nat)) in *.
  assert (compute_hash ra numBuckets = Return (encode ha)) as Hha
    by (unfold compute_hash; now rewrite Hn).
  pose proof (cook_compute a numBuckets st ra _ Ha Hca Hha) as Hcook.
  set (st1 := alter (fun r => set_hash r (Some (encode ha))) a st) in *.
  assert (st1 !! a = Some (set_hash ra (Some (encode ha)))) as Ha1
    by (unfold st1; now rewrite lookup_alter_eq, Ha).
  assert (st1 !! b = Some rb) as Hb1
    by (unfold st1; rewrite lookup_alter_ne by congruence; exact Hb).
  pose proof (cook_cached a default_numBuckets st1 _ (encode ha) Ha1
                (cached_hash_set ra _ (encode_nonempty ha))) as Hcooka.
  pose proof (cook_compute b default_numBuckets st1 rb _ Hb1 Hcb
                (compute_hash_default rb)) as Hcookb.
  fold hb in Hcookb.
  eexists (encode ha), st1, _. split; [exact Hcook|].
  rewrite (compareTo_hashes a (OtherRecipe b) st1 st1 _ _ _ Hcooka Hcookb).
  rewrite !decompressHash_histogram by assumption.
  rewrite compare_hex_mismatch; [reflexivity|].
  unfold ha, hb.
  rewrite !length_map, !length_histogram, !repeat_length.
  apply array_length_spec in Hn as [Hrange _]. lia.
Qed.

Lemma compareTo_after_cook_witness :
  exists h st1 st2,
    cook (H := ReferenceFacts.node) 0%nat (Finite 16) Examples.kitchen
    = (Return h, st1)
    /\ compareTo (H := ReferenceFacts.node) 0%nat (OtherRecipe 1%nat) st1
       = (Throw (Error "Hashes must be of equal length"), st2).
Proof.
  apply (compareTo_after_cook (H := ReferenceFacts.node) 0%nat 1%nat
           Examples.kitchen Examples.latteCaffe Examples.latteBiscotti
           (Finite 16) 16).
  - reflexivity.
  - reflexivity.
  - discriminate.
  - reflexivity.
  - reflexivity.
  - vm_compute. reflexivity.
  - discriminate.
  - vm_compute. lia.
  - vm_compute. lia.
Defined.

(** X22.  Over a power of two of counters, as over the 256 of the hashes
    that [compareTo] computes itself, one minus the score obeys the triangle
    inequality: for three decompressed hashes of the same [2^k] counters,
    the scores that the loop of [compareTo] gives satisfy
    score(a,c) >= score(a,b) + score(b,c) - 1.  (Over other numbers of
    counters the two roundings can break it: see
    [three_counters_break_triangle].) *)
Theorem score_triangle (a b c : list byte) (k : Z) :
  length a = length b -> length b = length c ->
  0 <= k <= 32 -> Z.of_nat (length a) = 2 ^ k ->
  exists qab qbc qac,
    compare_hex (Buffer_toString_hex a) (Buffer_toString_hex b)
    = Return (Finite qab)
    /\ compare_hex (Buffer_toString_hex b) (Buffer_toString_hex c)
       = Return (Finite qbc)
    /\ compare_hex (Buffer_toString_hex a) (Buffer_toString_hex c)
       = Return (Finite qac)
    /\ (qab + qbc - 1 <= qac)%Q.
Proof.
  intros Hab Hbc Hk Hpow.
  assert (0 < 2 ^ k) as Hpos by (apply Z.pow_pos_nonneg; lia).
  assert (2 ^ k <= 2 ^ 32) as Hmax by (apply Z.pow_le_mono_r; lia).
  assert (length a <> 0%nat) as Hla by lia.
  destruct (compare_hex_buffers a b Hab) as (s1 & -> & _ & H1).
  destruct (compare_hex_buffers b c Hbc) as (s2 & -> & _ & H2).
  destruct (compare_hex_buffers a c) as (s3 & -> & _ & H3); [congruence|].
  destruct (H1 Hla) as (qab & -> & Hqab).
  destruct H2 as (qbc & -> & Hqbc); [congruence|].
  destruct (H3 Hla) as (qac & -> & Hqac).
  exists qab, qbc, qac. repeat split.
  pose proof (total_distance_nonneg (counters a) (counters b)).
  pose proof (total_distance_nonneg (counters b) (counters c)).
  pose proof (total_distance_nonneg (counters a) (counters c)).
  pose proof (total_distance_counters_le a b).
  pose proof (total_distance_counters_le b c).
  pose proof (total_distance_counters_le a c).
  rewrite Hqab, Hqbc, Hqac, <- Hab.
  rewrite !(binary64_similarity_exact _ _ k Hpow) by lia.
  rewrite <- similarity_add by lia.
  apply similarity_le; [lia|].
  apply total_distance_triangle; unfold counters; rewrite !length_map;
    congruence.
Qed.

Lemma score_triangle_witness :
  exists qab qbc qac,
    compare_hex "00ff" "0110" = Return (Finite qab)
    /\ compare_hex "0110" "0a00" = Return (Finite qbc)
    /\ compare_hex "00ff" "0a00" = Return (Finite qac)
    /\ (qab + qbc - 1 <= qac)%Q.
Proof.
  apply (score_triangle ["000"; "255"]%char ["001"; "016"]%char
           ["010"; "000"]%char 1).
  - reflexivity.
  - reflexivity.
  - lia.
  - reflexivity.
Defined.

(** Three counters: the scores of [0,0,0] against [1,0,0], of [1,0,0] against
    [14,0,0] and of [0,0,0] against [14,0,0] are the doubles
    0.9791666666666666, 0.7291666666666667 and 0.7083333333333333, and the
    first two less 1 exceed the third by [2^-53]. *)
Example three_counters_break_triangle :
  exists qab qbc qac,
    compare_hex "000000" "010000" = Return (Finite qab)
    /\ compare_hex "010000" "0e0000" = Return (Finite qbc)
    /\ compare_hex "000000" "0e0000" = Return (Finite qac)
    /\ (qab + qbc - 1 == qac + (1 # 2 ^ 53))%Q.
Proof.
  do 3 eexists.
  split; [vm_compute; reflexivity|]. split; [vm_compute; reflexivity|].
  split; [vm_compute; reflexivity|]. vm_compute. reflexivity.
Qed.
